(** * The compose-menu attachment engine of neomutt (src/compose/compose.c)

    A shallow embedding of the attachment tree (struct Body, linked by
    [next] and [parts]) and of the flat attachment index (struct AttachCtx,
    an array of pointers to struct AttachPtr) used by the compose menu,
    with the structural edit operations of the menu: append
    ([update_idx]), insert ([insert_idx]), delete ([delete_attachment] and
    [OP_DELETE]), move up/down ([compose_attach_swap]), grouping into
    multipart/alternative and multipart/multilingual, the cumulative size
    estimate ([cum_attachs_size]) and the pre-send check
    ([check_attachments]).

    Pointers are modelled as [nat] addresses into two stores: one for
    struct Body, one for struct AttachPtr; a NULL pointer is [None].
    Walks along [next] chains carry a fuel bound (one more than the number
    of bodies allocated so far), so that a corrupted cyclic chain, on which
    the C code would loop for ever, is reported as [Undef]. *)

From Stdlib Require Import Ascii String List Arith Lia Bool ZArith.
Import ListNotations.
Open Scope string_scope.
Open Scope list_scope.
Open Scope nat_scope.

Module Compose.

(** ** Data model *)

(** enum ContentType *)
Inductive ContentType :=
  TYPE_OTHER | TYPE_AUDIO | TYPE_APPLICATION | TYPE_IMAGE | TYPE_MESSAGE
| TYPE_MODEL | TYPE_MULTIPART | TYPE_TEXT | TYPE_VIDEO | TYPE_ANY.

Definition is_multipart (t : ContentType) : bool :=
  match t with TYPE_MULTIPART => true | _ => false end.

(** enum ContentDisposition *)
Inductive ContentDisposition := DISP_INLINE | DISP_ATTACH | DISP_FORM_DATA | DISP_NONE.

(** enum ContentEncoding *)
Inductive ContentEncoding :=
  ENC_OTHER | ENC_7BIT | ENC_8BIT | ENC_QUOTED_PRINTABLE | ENC_BASE64
| ENC_BINARY | ENC_UUENCODED.

(** struct Content: the cached byte classification of a part (the fields
    used here; they are [long] in C). *)
Record Content := mkContent {
  hibin : Z;
  lobin : Z;
  ascii : Z;
  crlf : Z
}.

(** struct Body: the fields the compose engine reads or writes.  The
    description and the boundary parameter of a new group are not
    modelled. [bemail] says whether [body->email] is set (a message
    attachment); [bprotocol] is the "protocol" parameter. *)
Record Body := mkBody {
  btype : ContentType;
  bsubtype : string;
  bprotocol : option string;
  bparts : option nat;
  bnext : option nat;
  btagged : bool;
  bdisposition : ContentDisposition;
  bencoding : ContentEncoding;
  bcontent : option Content;
  bfilename : option string;
  bstamp : Z;
  bemail : bool;
  bunlink : bool;
  blanguage : option string
}.

(** mutt_body_new(): a zeroed body, whose disposition is DISP_ATTACH. *)
Definition body_new : Body :=
  mkBody TYPE_OTHER "" None None None false DISP_ATTACH ENC_OTHER None None 0 false false None.

Definition set_next (b : Body) (n : option nat) : Body :=
  mkBody (btype b) (bsubtype b) (bprotocol b) (bparts b) n (btagged b)
    (bdisposition b) (bencoding b) (bcontent b) (bfilename b) (bstamp b)
    (bemail b) (bunlink b) (blanguage b).

Definition set_parts (b : Body) (p : option nat) : Body :=
  mkBody (btype b) (bsubtype b) (bprotocol b) p (bnext b) (btagged b)
    (bdisposition b) (bencoding b) (bcontent b) (bfilename b) (bstamp b)
    (bemail b) (bunlink b) (blanguage b).

Definition set_tagged (b : Body) (t : bool) : Body :=
  mkBody (btype b) (bsubtype b) (bprotocol b) (bparts b) (bnext b) t
    (bdisposition b) (bencoding b) (bcontent b) (bfilename b) (bstamp b)
    (bemail b) (bunlink b) (blanguage b).

Definition set_disposition (b : Body) (d : ContentDisposition) : Body :=
  mkBody (btype b) (bsubtype b) (bprotocol b) (bparts b) (bnext b) (btagged b)
    d (bencoding b) (bcontent b) (bfilename b) (bstamp b)
    (bemail b) (bunlink b) (blanguage b).

Definition set_content (b : Body) (c : option Content) : Body :=
  mkBody (btype b) (bsubtype b) (bprotocol b) (bparts b) (bnext b) (btagged b)
    (bdisposition b) (bencoding b) c (bfilename b) (bstamp b)
    (bemail b) (bunlink b) (blanguage b).

Definition set_stamp (b : Body) (s : Z) : Body :=
  mkBody (btype b) (bsubtype b) (bprotocol b) (bparts b) (bnext b) (btagged b)
    (bdisposition b) (bencoding b) (bcontent b) (bfilename b) s
    (bemail b) (bunlink b) (blanguage b).

Definition set_unlink (b : Body) (u : bool) : Body :=
  mkBody (btype b) (bsubtype b) (bprotocol b) (bparts b) (bnext b) (btagged b)
    (bdisposition b) (bencoding b) (bcontent b) (bfilename b) (bstamp b)
    (bemail b) u (blanguage b).

(** struct AttachPtr: the body it wraps, its nesting level, its display
    number and whether its file is owned by the user. *)
Record AttachPtr := mkAttachPtr {
  ap_body : nat;
  ap_level : nat;
  ap_num : Z;
  ap_unowned : bool
}.

Definition set_level (a : AttachPtr) (l : nat) : AttachPtr :=
  mkAttachPtr (ap_body a) l (ap_num a) (ap_unowned a).

Definition set_num (a : AttachPtr) (n : Z) : AttachPtr :=
  mkAttachPtr (ap_body a) (ap_level a) n (ap_unowned a).

(** The two stores. *)
Definition BodyHeap := nat -> Body.
Definition ApHeap := nat -> AttachPtr.

Definition hupd {A} (h : nat -> A) (x : nat) (v : A) : nat -> A :=
  fun y => if Nat.eqb y x then v else h y.

(** [p->next = n] *)
Definition wnext (h : BodyHeap) (p : nat) (n : option nat) : BodyHeap :=
  hupd h p (set_next (h p) n).

(** The state of a compose session: the body store, the AttachPtr store,
    [e->body], [actx->idx] (its length is [actx->idxlen]), [menu->current],
    and the next free addresses of the two allocators. *)
Record State := mkState {
  heap : BodyHeap;
  aps : ApHeap;
  ebody : option nat;
  idx : list nat;
  current : nat;
  next_body : nat;
  next_ap : nat
}.

Definition with_heap (st : State) (h : BodyHeap) : State :=
  mkState h (aps st) (ebody st) (idx st) (current st) (next_body st) (next_ap st).

Definition with_current (st : State) (c : nat) : State :=
  mkState (heap st) (aps st) (ebody st) (idx st) c (next_body st) (next_ap st).

(** Result of an operation of the menu: it succeeded, it was refused
    with an error message (the state is the one left behind), or the C
    code would read out of bounds, dereference NULL or loop for ever. *)
Inductive outcome :=
| Done (st : State)
| Err (msg : string) (st : State)
| Undef.

(** [actx->idx[i]->body] *)
Definition body_at (a : ApHeap) (l : list nat) (i : nat) : option nat :=
  option_map (fun p => ap_body (a p)) (nth_error l i).

Definition level_at (a : ApHeap) (l : list nat) (i : nat) : option nat :=
  option_map (fun p => ap_level (a p)) (nth_error l i).

(** The (body, level) view of the flat index. *)
Definition entries (st : State) : list (nat * nat) :=
  map (fun p => (ap_body (aps st p), ap_level (aps st p))) (idx st).

Definition fuel (st : State) : nat := S (next_body st).

(** ** Building the flat index: mutt_gen_compose_attach_list

    A multipart body with parts that is not PGP-encrypted is not listed
    itself: its parts are listed at the same level.  Other bodies are
    listed with the current level.  The result is the (body, level) view
    of the entries that the function appends. *)

(** Modelled from the spec: mutt_is_multipart_encrypted, of the crypt
    module, which is not in src/.  An "opaque" composite (section 4.1) is a
    multipart/encrypted part with protocol application/pgp-encrypted. *)
Definition mutt_is_multipart_encrypted (b : Body) : bool :=
  is_multipart (btype b) && String.eqb (bsubtype b) "encrypted"
  && match bprotocol b with
     | Some p => String.eqb p "application/pgp-encrypted"
     | None => false
     end.

Definition expands (b : Body) : bool :=
  is_multipart (btype b)
  && match bparts b with Some _ => true | None => false end
  && negb (mutt_is_multipart_encrypted b).

Fixpoint gen_attach_list (f : nat) (h : BodyHeap) (m : option nat) (level : nat)
  : list (nat * nat) :=
  match f with
  | 0 => []
  | S f' =>
      match m with
      | None => []
      | Some x =>
          (if expands (h x) then gen_attach_list f' h (bparts (h x)) level
           else [(x, level)])
          ++ gen_attach_list f' h (bnext (h x)) level
      end
  end.

(** Re-flattening the tree from [e->body] agrees with the maintained index
    once the walk is given enough fuel. *)
Definition consistent (st : State) : Prop :=
  exists n, forall f, n <= f -> gen_attach_list f (heap st) (ebody st) 0 = entries st.


(** ** Helpers for the flat index *)

Definition opt_eqb (a b : option nat) : bool :=
  match a, b with
  | Some x, Some y => Nat.eqb x y
  | None, None => true
  | _, _ => false
  end.

Definition obind {A B} (o : option A) (k : A -> option B) : option B :=
  match o with Some x => k x | None => None end.

Notation "'let*' x ':=' o 'in' k" := (obind o (fun x => k))
  (at level 200, x name, o at level 100, k at level 200).

Definition of_option (o : option State) : outcome :=
  match o with Some s => Done s | None => Undef end.

(** [l[i] = v] on an array of pointers. *)
Fixpoint replace_nth (l : list nat) (i v : nat) : list nat :=
  match l, i with
  | [], _ => []
  | _ :: l', 0 => v :: l'
  | x :: l', S i' => x :: replace_nth l' i' v
  end.

(** Shifting [idx[i+1..]] down by one and dropping the last slot. *)
Fixpoint remove_at (i : nat) (l : list nat) : list nat :=
  match l, i with
  | [], _ => []
  | _ :: l', 0 => l'
  | x :: l', S i' => x :: remove_at i' l'
  end.

(** Modelled from the spec: mutt_actx_add_attach (attach module, not in
    src/) appends one entry at the end of the flat array. *)
Definition mutt_actx_add_attach (l : list nat) (p : nat) : list nat := l ++ [p].

(** Modelled from the spec: mutt_actx_ins_attach (attach module, not in
    src/) inserts one entry at position [aidx] of the flat array, shifting
    the following entries up by one; [aidx] must be in [0, idxlen]. *)
Definition mutt_actx_ins_attach (l : list nat) (p aidx : nat) : option (list nat) :=
  if aidx <=? length l then Some (firstn aidx l ++ p :: skipn aidx l) else None.

(** mutt_update_compose_menu(actx, menu, false): the tree strings are
    display only; the cursor is clamped to the number of entries (the
    compose menu never collapses entries, so [vcount = idxlen]). *)
Definition update_compose_menu (st : State) : State :=
  let m := length (idx st) in
  with_current st (if m =? 0 then 0 else if m <=? current st then m - 1 else current st).

(** Allocation of a new struct Body (by a collaborator such as
    mutt_make_file_attach, or by mutt_body_new) and of a zeroed struct
    AttachPtr (mutt_mem_calloc). *)
Definition alloc_body (st : State) (b : Body) : State * nat :=
  (mkState (hupd (heap st) (next_body st) b) (aps st) (ebody st) (idx st)
     (current st) (S (next_body st)) (next_ap st), next_body st).

Definition alloc_ap (st : State) (b : nat) : State * nat :=
  (mkState (heap st) (hupd (aps st) (next_ap st) (mkAttachPtr b 0 0 false))
     (ebody st) (idx st) (current st) (next_body st) (S (next_ap st)), next_ap st).

(** [actx->idx[actx->idxlen - 1]] when the array is not empty. *)
Fixpoint last_opt (l : list nat) : option nat :=
  match l with
  | [] => None
  | [x] => Some x
  | _ :: l' => last_opt l'
  end.

(** ** Append: update_idx *)

Definition update_idx (st : State) (p : nat) : State :=
  let l := idx st in
  let lvl := match last_opt l with Some q => ap_level (aps st q) | None => 0 end in
  let a1 := hupd (aps st) p (set_level (aps st p) lvl) in
  let h1 := match last_opt l with
            | Some q => wnext (heap st) (ap_body (a1 q)) (Some (ap_body (a1 p)))
            | None => heap st
            end in
  let l1 := mutt_actx_add_attach l p in
  let st1 := update_compose_menu
               (mkState h1 a1 (ebody st) l1 (current st) (next_body st) (next_ap st)) in
  with_current st1 (length l1 - 1).

(** Attaching a new part: the collaborator builds the body, the menu
    wraps it in a fresh AttachPtr and calls update_idx. *)
Definition op_attach (st : State) (b : Body) : State :=
  let (st1, nb) := alloc_body st b in
  let (st2, p) := alloc_ap st1 nb in
  update_idx st2 p.

(** ** Insert: insert_idx *)

Definition insert_idx (st : State) (p aidx : nat) : option State :=
  let l := idx st in
  let lp := ap_level (aps st p) in
  let* h1 := (if 0 <? aidx then
                let* q := nth_error l (aidx - 1) in
                if lp =? ap_level (aps st q)
                then Some (wnext (heap st) (ap_body (aps st q)) (Some (ap_body (aps st p))))
                else Some (heap st)
              else Some (heap st)) in
  let h2 := match nth_error l aidx with
            | Some q => if (aidx <? length l) && (lp =? ap_level (aps st q))
                        then wnext h1 (ap_body (aps st p)) (Some (ap_body (aps st q)))
                        else h1
            | None => h1
            end in
  let* l1 := mutt_actx_ins_attach l p aidx in
  let st1 := update_compose_menu
               (mkState h2 (aps st) (ebody st) l1 (current st) (next_body st) (next_ap st)) in
  Some (with_current st1 aidx).

(** ** Delete: delete_attachment and OP_DELETE *)

(** The search for the entry whose body's [next] is the deleted body; the
    first one found is repointed to the deleted body's [next]. *)
Fixpoint unlink_pred (h : BodyHeap) (a : ApHeap) (l : list nat) (t : nat) : BodyHeap :=
  match l with
  | [] => h
  | q :: l' =>
      let y := ap_body (a q) in
      if opt_eqb (bnext (h y)) (Some t) then wnext h y (bnext (h t))
      else unlink_pred h a l' t
  end.

(** The compose menu never collapses entries, so [actx->v2r] is the
    identity and [rindex = x].  The freed body stays in the store,
    unreachable. *)
Definition delete_attachment (st : State) (x : nat) : outcome :=
  let rindex := x in
  match nth_error (idx st) rindex with
  | None => Undef
  | Some q =>
      let t := ap_body (aps st q) in
      if (rindex =? 0) && (length (idx st) =? 1) then
        Err "You may not delete the only attachment"
            (with_heap st (hupd (heap st) t (set_tagged (heap st t) false)))
      else
        let h1 := unlink_pred (heap st) (aps st) (idx st) t in
        let h2 := wnext h1 t None in
        let h3 := if bemail (h2 t) then h2 else hupd h2 t (set_parts (h2 t) None) in
        Done (mkState h3 (aps st) (ebody st) (remove_at rindex (idx st))
                (current st) (next_body st) (next_ap st))
  end.

Definition op_delete (st : State) : outcome :=
  if length (idx st) =? 0 then Err "There are no attachments." st else
  match nth_error (idx st) (current st) with
  | None => Undef
  | Some q =>
      let b := ap_body (aps st q) in
      let st1 := if ap_unowned (aps st q)
                 then with_heap st (hupd (heap st) b (set_unlink (heap st b) false))
                 else st in
      match delete_attachment st1 (current st1) with
      | Done s =>
          let s1 := update_compose_menu s in
          if current s1 =? 0 then
            match body_at (aps s1) (idx s1) 0 with
            | Some b0 => Done (mkState (heap s1) (aps s1) (Some b0) (idx s1)
                                 (current s1) (next_body s1) (next_ap s1))
            | None => Undef
            end
          else Done s1
      | r => r
      end
  end.

(** ** Moving: compose_attach_swap, OP_COMPOSE_MOVE_UP, OP_COMPOSE_MOVE_DOWN *)

Fixpoint swap_walk (f : nat) (h : BodyHeap) (part : option nat) (b0 b1 : nat)
  : option BodyHeap :=
  match f with
  | 0 => None
  | S f' =>
      match part with
      | None => Some h
      | Some p =>
          if opt_eqb (bnext (h p)) (Some b0) then
            let h1 := wnext h b0 (bnext (h b1)) in
            let h2 := wnext h1 b1 (Some b0) in
            Some (wnext h2 p (Some b1))
          else swap_walk f' h (bnext (h p)) b0 b1
      end
  end.

Definition compose_attach_swap (st : State) (first : nat) : option State :=
  let l := idx st in
  let* q0 := nth_error l first in
  let* q1 := nth_error l (S first) in
  let* h1 := swap_walk (fuel st) (heap st) (ebody st) (ap_body (aps st q0)) (ap_body (aps st q1)) in
  (* reorder index *)
  let l1 := replace_nth (replace_nth l first q1) (S first) q0 in
  (* swap ptr->num *)
  let i := ap_num (aps st q1) in
  let a1 := hupd (aps st) q1 (set_num (aps st q1) (ap_num (aps st q0))) in
  let a2 := hupd a1 q0 (set_num (a1 q0) i) in
  Some (mkState h1 a2 (ebody st) l1 (current st) (next_body st) (next_ap st)).

Definition op_move_up (st : State) : outcome :=
  let c := current st in
  if c =? 0 then Err "Attachment is already at top" st
  else if c =? 1 then Err "The fundamental part can't be moved" st
  else match compose_attach_swap st (c - 1) with
       | Some s => Done (with_current s (c - 1))
       | None => Undef
       end.

Definition op_move_down (st : State) : outcome :=
  let c := current st in
  if S c =? length (idx st) then Err "Attachment is already at bottom" st
  else if c =? 0 then Err "The fundamental part can't be moved" st
  else match compose_attach_swap st c with
       | Some s => Done (with_current s (S c))
       | None => Undef
       end.


(** ** Grouping *)

(** Modelled from the spec: [menu->tagged], kept by the menu code (not in
    src/), is the number of tagged entries of the flat array. *)
Definition menu_tagged (st : State) : nat :=
  length (filter (fun q => btagged (heap st (ap_body (aps st q)))) (idx st)).

(** A new multipart group: mutt_body_new(), then type, subtype and
    disposition set by the menu. *)
Definition group_body (subtype : string) : Body :=
  mkBody TYPE_MULTIPART subtype None None None false DISP_INLINE ENC_OTHER
    None None 0 false false None.

(** [bptr->tagged = false; bptr->disposition = DISP_INLINE;] *)
Definition untag_inline (h : BodyHeap) (b : nat) : BodyHeap :=
  hupd h b (set_disposition (set_tagged (h b) false) DISP_INLINE).

(** *** OP_COMPOSE_GROUP_ALTS *)

(** The variables of the grouping loop; [g_moved] is a ghost list of the
    bodies appended to the group's chain, in order. *)
Record AltsSt := mkAltsSt {
  g_heap : BodyHeap;
  g_aps : ApHeap;
  g_idx : list nat;
  g_bptr : option nat;
  g_i : nat;
  g_gidx : nat;
  g_glast : nat;
  g_glevel : nat;
  g_alts : option nat;
  g_moved : list nat
}.

(** [for (int j = i; j > glastidx + 1; j--)
      { actx->idx[j]->num += 1; actx->idx[j] = actx->idx[j - 1]; }],
    run [k] times from [j]. *)
Fixpoint shift_up (k j : nat) (a : ApHeap) (l : list nat) : option (ApHeap * list nat) :=
  match k with
  | 0 => Some (a, l)
  | S k' =>
      let* q := nth_error l j in
      let a1 := hupd a q (set_num (a q) (ap_num (a q) + 1)) in
      let* q' := nth_error l (j - 1) in
      shift_up k' (j - 1) a1 (replace_nth l j q')
  end.

(** "make grouped attachments consecutive" *)
Definition make_consecutive (i glast : nat) (a : ApHeap) (l : list nat) (h : BodyHeap)
  : option (ApHeap * list nat * BodyHeap) :=
  let* saved := nth_error l i in
  let saved_num := ap_num (a saved) in
  let* al1 := shift_up (i - S glast) i a l in
  let a1 := fst al1 in
  let l2 := replace_nth (snd al1) (S glast) saved in
  let a2 := hupd a1 saved (set_num (a1 saved) saved_num) in
  let* qi := nth_error l2 i in
  if S i <? length l2 then
    let* qn := nth_error l2 (S i) in
    Some (a2, l2, wnext h (ap_body (a2 qi)) (Some (ap_body (a2 qn))))
  else Some (a2, l2, wnext h (ap_body (a2 qi)) None).

(** One turn of the loop, at the body [b] that [bptr] points to. *)
Definition alts_step (G : nat) (s : AltsSt) (b : nat) : option AltsSt :=
  let h := g_heap s in
  let a := g_aps s in
  let l := g_idx s in
  let i := g_i s in
  if btagged (h b) then
    let h0 := untag_inline h b in
    let* s1 :=
      match g_alts s with
      | Some al =>
          let h1 := wnext h0 al (Some b) in
          let bptr' := bnext (h1 b) in
          let* al' := bnext (h1 al) in
          let h2 := wnext h1 al' None in
          let* alh :=
            (if S (g_glast s) <? i then make_consecutive i (g_glast s) a l h2
             else Some (a, l, h2)) in
          let '(a3, l3, h3) := alh in
          Some (mkAltsSt h3 a3 l3 bptr' i (g_gidx s) (S (g_glast s)) (g_glevel s)
                  (Some al') (g_moved s ++ [b]))
      | None =>
          let* q := nth_error l i in
          let glevel := ap_level (a q) in
          let h1 := hupd h0 G (set_parts (h0 G) (Some b)) in
          let bptr' := bnext (h1 b) in
          let h2 := wnext h1 b None in
          Some (mkAltsSt h2 a l bptr' i i i glevel (Some b) (g_moved s ++ [b]))
      end in
    let* q := nth_error (g_idx s1) (g_glast s1) in
    let a4 := hupd (g_aps s1) q (set_level (g_aps s1 q) (S (g_glevel s1))) in
    Some (mkAltsSt (g_heap s1) a4 (g_idx s1) (g_bptr s1) (S i) (g_gidx s1)
            (g_glast s1) (g_glevel s1) (g_alts s1) (g_moved s1))
  else
    Some (mkAltsSt h a l (bnext (h b)) (S i) (g_gidx s) (g_glast s) (g_glevel s)
            (g_alts s) (g_moved s)).

Fixpoint alts_loop (f G : nat) (s : AltsSt) : option AltsSt :=
  match f with
  | 0 => None
  | S f' =>
      match g_bptr s with
      | None => Some s
      | Some b => let* s' := alts_step G s b in alts_loop f' G s'
      end
  end.

(** The whole case, returning the outcome and the ghost list of moved
    bodies. *)
Definition group_alts_run (st : State) : outcome * list nat :=
  if menu_tagged st <? 2 then
    (Err "Grouping 'alternatives' requires at least 2 tagged messages" st, [])
  else
    let (st1, G) := alloc_body st (group_body "alternative") in
    let s0 := mkAltsSt (heap st1) (aps st1) (idx st1) (ebody st1) 0 0 0 0 None [] in
    match alts_loop (fuel st1) G s0 with
    | None => (Undef, [])
    | Some s =>
        let l := g_idx s in
        let h := g_heap s in
        let gnext := if S (g_glast s) <? length l then body_at (g_aps s) l (S (g_glast s))
                     else None in
        let h1 := wnext h G gnext in
        let st2 := mkState h1 (g_aps s) (ebody st1) l (current st1) (next_body st1) (next_ap st1) in
        let (st3, gptr) := alloc_ap st2 G in
        let st4 := mkState (heap st3) (hupd (aps st3) gptr (set_level (aps st3 gptr) (g_glevel s)))
                     (ebody st3) (idx st3) (current st3) (next_body st3) (next_ap st3) in
        match insert_idx st4 gptr (g_gidx s) with
        | None => (Undef, g_moved s)
        | Some st5 =>
            match body_at (aps st5) (idx st5) 0 with
            | None => (Undef, g_moved s)
            | Some b0 =>
                (Done (mkState (heap st5) (aps st5) (Some b0) (idx st5) (g_gidx s)
                         (next_body st5) (next_ap st5)), g_moved s)
            end
        end
    end.

Definition op_group_alts (st : State) : outcome := fst (group_alts_run st).

(** *** OP_COMPOSE_GROUP_LINGUAL *)

(** enum QuadOption: the answer to a yes/no prompt. *)
Inductive QuadOption := MUTT_ABORT | MUTT_NO | MUTT_YES | MUTT_ASKNO | MUTT_ASKYES.

Definition is_yes (q : QuadOption) : bool :=
  match q with MUTT_YES => true | _ => false end.

Definition has_language (b : Body) : bool :=
  match blanguage b with Some s => negb (String.eqb s "") | None => false end.

(** [for (b = e->body; b; b = b->next) if (b->tagged && b->language && *b->language) n++] *)
Fixpoint count_tagged_lang (f : nat) (h : BodyHeap) (m : option nat) : option nat :=
  match f with
  | 0 => None
  | S f' =>
      match m with
      | None => Some 0
      | Some b =>
          let* n := count_tagged_lang f' h (bnext (h b)) in
          Some (if btagged (h b) && has_language (h b) then S n else n)
      end
  end.

Record LingSt := mkLingSt {
  m_heap : BodyHeap;
  m_idx : list nat;
  m_bptr : option nat;
  m_i : nat;
  m_alts : option nat;
  m_moved : list nat
}.

(** [for (j = i; j < idxlen - 1; j++) { idx[j] = idx[j + 1]; idx[j + 1] = NULL; }
     idxlen--;] *)
Definition drop_entry (i : nat) (l : list nat) : option (list nat) :=
  match l with
  | [] => None
  | _ => Some (if i <? length l then remove_at i l else removelast l)
  end.

Definition lingual_step (G : nat) (s : LingSt) (b : nat) : option LingSt :=
  let h := m_heap s in
  if btagged (h b) then
    let h0 := untag_inline h b in
    let* hba :=
      match m_alts s with
      | Some al =>
          let h1 := wnext h0 al (Some b) in
          let bptr' := bnext (h1 b) in
          let* al' := bnext (h1 al) in
          Some (wnext h1 al' None, bptr', al')
      | None =>
          let h1 := hupd h0 G (set_parts (h0 G) (Some b)) in
          let bptr' := bnext (h1 b) in
          Some (wnext h1 b None, bptr', b)
      end in
    let '(h2, bptr', al') := hba in
    let* l1 := drop_entry (m_i s) (m_idx s) in
    Some (mkLingSt h2 l1 bptr' (m_i s) (Some al') (m_moved s ++ [b]))
  else
    Some (mkLingSt h (m_idx s) (bnext (h b)) (S (m_i s)) (m_alts s) (m_moved s)).

Fixpoint lingual_loop (f G : nat) (s : LingSt) : option LingSt :=
  match f with
  | 0 => None
  | S f' =>
      match m_bptr s with
      | None => Some s
      | Some b => let* s' := lingual_step G s b in lingual_loop f' G s'
      end
  end.

(** [ans] is the user's answer to the Content-Language prompt, asked only
    when some tagged part has no language. *)
Definition group_lingual_run (st : State) (ans : QuadOption) : outcome * list nat :=
  if menu_tagged st <? 2 then
    (Err "Grouping 'multilingual' requires at least 2 tagged messages" st, [])
  else
    match count_tagged_lang (fuel st) (heap st) (ebody st) with
    | None => (Undef, [])
    | Some n =>
        if negb (menu_tagged st =? n) && negb (is_yes ans) then
          (Err "Not sending this message" st, [])
        else
          let (st1, G) := alloc_body st (group_body "multilingual") in
          let s0 := mkLingSt (heap st1) (idx st1) (ebody st1) 0 None [] in
          match lingual_loop (fuel st1) G s0 with
          | None => (Undef, [])
          | Some s =>
              let h1 := wnext (m_heap s) G None in
              let st2 := mkState h1 (aps st1) (ebody st1) (m_idx s) (current st1)
                           (next_body st1) (next_ap st1) in
              let (st3, gptr) := alloc_ap st2 G in
              (Done (update_idx st3 gptr), m_moved s)
          end
    end.

Definition op_group_lingual (st : State) (ans : QuadOption) : outcome :=
  fst (group_lingual_run st ans).


(** ** Size estimate: cum_attachs_size

    [mutt_get_content_info] (sendlib, not in src/) classifies a body's
    file; it is a parameter.  The counts are [long], the sum is a
    [size_t], kept modulo 2^64; the division of the base64 case is C's
    integer division. *)
Section Size.

Variable get_content_info : Body -> option Content.

Definition total_bytes (info : Content) : Z :=
  (lobin info + hibin info + ascii info + crlf info)%Z.

Definition encoded_size (enc : ContentEncoding) (info : Content) : Z :=
  match enc with
  | ENC_QUOTED_PRINTABLE => 3 * (lobin info + hibin info) + ascii info + crlf info
  | ENC_BASE64 => Z.quot (4 * (lobin info + hibin info + ascii info + crlf info)) 3
  | _ => lobin info + hibin info + ascii info + crlf info
  end%Z.

Definition size_t_modulus : Z := (2 ^ 64)%Z.

Fixpoint cum_size_loop (h : BodyHeap) (a : ApHeap) (l : list nat) (s : Z) : Z * BodyHeap :=
  match l with
  | [] => (s, h)
  | q :: l' =>
      let b := ap_body (a q) in
      let h1 := match bcontent (h b) with
                | None => hupd h b (set_content (h b) (get_content_info (h b)))
                | Some _ => h
                end in
      let s1 := match bcontent (h1 b) with
                | Some info => ((s + encoded_size (bencoding (h1 b)) info) mod size_t_modulus)%Z
                | None => s
                end in
      cum_size_loop h1 a l' s1
  end.

(** The size and the store with the classifications cached. *)
Definition cum_attachs_size (st : State) : Z * BodyHeap :=
  cum_size_loop (heap st) (aps st) (idx st) 0.

End Size.

(** ** Pre-send check: check_attachments *)

Section Check.

(** [stat_mtime f] is the modification time of file [f], or [None] when
    stat() fails; [answer i] is the reply to the "Attachment #i modified"
    prompt; [get_content_info] and [now] are used to update the encoding. *)
Variable stat_mtime : string -> option Z.
Variable answer : nat -> QuadOption.
Variable get_content_info : Body -> option Content.
Variable now : Z.

(** Modelled from the spec: mutt_update_encoding (sendlib, not in src/)
    re-runs the classification of the part and updates its stamp. *)
Definition mutt_update_encoding (b : Body) : Body :=
  set_stamp (set_content b (get_content_info b)) now.

Definition stat_body (b : Body) : option Z :=
  match bfilename b with Some f => stat_mtime f | None => None end.

(** The result, with the store as left behind: success, "Attachment #i+1
    no longer exists", or an abort at the prompt of entry i. *)
Inductive check_result :=
| CheckOk (h : BodyHeap)
| CheckMissing (i : nat) (h : BodyHeap)
| CheckAborted (i : nat) (h : BodyHeap).

Fixpoint check_loop (h : BodyHeap) (a : ApHeap) (l : list nat) (i : nat) : check_result :=
  match l with
  | [] => CheckOk h
  | q :: l' =>
      let b := ap_body (a q) in
      if is_multipart (btype (h b)) then check_loop h a l' (S i)
      else
        match stat_body (h b) with
        | None => CheckMissing i h
        | Some mtime =>
            if bstamp (h b) <? mtime then
              match answer i with
              | MUTT_YES => check_loop (hupd h b (mutt_update_encoding (h b))) a l' (S i)
              | MUTT_ABORT => CheckAborted i h
              | _ => check_loop h a l' (S i)
              end
            else check_loop h a l' (S i)
        end
  end%Z.

Definition check_attachments (st : State) : check_result :=
  check_loop (heap st) (aps st) (idx st) 0.

(** OP_COMPOSE_SEND_MESSAGE and OP_COMPOSE_POSTPONE_MESSAGE: the message
    is sent or postponed only when check_attachments returns 0; otherwise
    the menu stays open. *)
Inductive finalize_result := Finalize (st : State) | StayInMenu (st : State).

Definition op_finalize (st : State) : finalize_result :=
  match check_attachments st with
  | CheckOk h => Finalize (with_heap st h)
  | CheckMissing _ h => StayInMenu (with_heap st h)
  | CheckAborted _ h => StayInMenu (with_heap st h)
  end.

End Check.

(** ** Concrete states *)

Definition leaf (nx : option nat) (tg : bool) : Body :=
  mkBody TYPE_TEXT "plain" None None nx tg DISP_ATTACH ENC_7BIT None
    (Some "/tmp/part") 0 false false None.

Definition mk_heap (bs : list (nat * Body)) : BodyHeap :=
  fold_left (fun h xb => hupd h (fst xb) (snd xb)) bs (fun _ => body_new).

Definition mk_aps (ps : list (nat * AttachPtr)) : ApHeap :=
  fold_left (fun a xp => hupd a (fst xp) (snd xp)) ps (fun _ => mkAttachPtr 0 0 0 false).

(** Scenario B of the spec: three leaves a (0), b (1), c (2) at depth 0,
    b and c tagged, the flat array in chain order. *)
Definition scenario_b : State :=
  mkState (mk_heap [(0, leaf (Some 1) false); (1, leaf (Some 2) true); (2, leaf None true)])
    (mk_aps [(0, mkAttachPtr 0 0 0 false); (1, mkAttachPtr 1 0 1 false);
             (2, mkAttachPtr 2 0 2 false)])
    (Some 0) [0; 1; 2] 0 3 3.

(** Six leaves w x y d e f (bodies 0..5, entries 0..5), of which w, x, y
    are tagged: the state before a first grouping. *)
Definition six_leaves : State :=
  mkState (mk_heap [(0, leaf (Some 1) true); (1, leaf (Some 2) true); (2, leaf (Some 3) true);
                    (3, leaf (Some 4) false); (4, leaf (Some 5) false); (5, leaf None false)])
    (mk_aps [(0, mkAttachPtr 0 0 0 false); (1, mkAttachPtr 1 0 1 false);
             (2, mkAttachPtr 2 0 2 false); (3, mkAttachPtr 3 0 3 false);
             (4, mkAttachPtr 4 0 4 false); (5, mkAttachPtr 5 0 5 false)])
    (Some 0) [0; 1; 2; 3; 4; 5] 0 6 6.

(** Tagging the body of an entry, as the menu's tag command does. *)
Definition tag_body (st : State) (b : nat) : State :=
  with_heap st (hupd (heap st) b (set_tagged (heap st b) true)).

Definition outcome_state (o : outcome) : option State :=
  match o with Done s => Some s | Err _ s => Some s | Undef => None end.


(** A single leaf, tagged. *)
Definition single_leaf : State :=
  mkState (mk_heap [(0, leaf None true)]) (mk_aps [(0, mkAttachPtr 0 0 0 false)])
    (Some 0) [0] 0 1 1.

(** Scenario B after grouping b and c: [a@0, group@0, b@1, c@1]. *)
Definition scenario_b_grouped : State :=
  match op_group_alts scenario_b with Done s => s | _ => scenario_b end.

(** After grouping w, x, y of [six_leaves] into an alternative group
    (body 6), the parts y (nested in the group), d and f are tagged:
    entries [G@0, w@1, x@1, y@1, d@0, e@0, f@0]. *)
Definition nested : State :=
  match op_group_alts six_leaves with
  | Done s => tag_body (tag_body (tag_body s 2) 3) 5
  | _ => six_leaves
  end.

(** One leaf, base64-encoded, whose cached classification counts a single
    ASCII byte. *)
Definition one_byte_base64 : State :=
  mkState (mk_heap [(0, mkBody TYPE_APPLICATION "octet-stream" None None None false
                          DISP_ATTACH ENC_BASE64 (Some (mkContent 0 0 1 0))
                          (Some "/tmp/part") 0 false false None)])
    (mk_aps [(0, mkAttachPtr 0 0 0 false)]) (Some 0) [0] 0 1 1.

(** The per-leaf estimate in the words of the spec (section 4.8), for
    comparison: base64 rounds 4/3 of the byte count up. *)
Definition spec_encoded_size (enc : ContentEncoding) (info : Content) : Z :=
  match enc with
  | ENC_QUOTED_PRINTABLE => 3 * (lobin info + hibin info) + ascii info + crlf info
  | ENC_BASE64 => (4 * total_bytes info + 2) / 3
  | _ => total_bytes info
  end%Z.

(** The estimate of one entry's body from its classification, cached or
    computed by [gci]; 0 when there is none. *)
Definition entry_estimate (gci : Body -> option Content) (b : Body) : Z :=
  match match bcontent b with Some c => Some c | None => gci b end with
  | Some info => encoded_size (bencoding b) info
  | None => 0%Z
  end.

Definition sum_Z (l : list Z) : Z := fold_right Z.add 0%Z l.

(** ** Chains *)

(** [chain h m ids]: following [next] from [m] visits exactly [ids] and
    then reaches NULL. *)
Inductive chain (h : BodyHeap) : option nat -> list nat -> Prop :=
| chain_nil : chain h None []
| chain_cons x l : chain h (bnext (h x)) l -> chain h (Some x) (x :: l).

Fixpoint chainb (f : nat) (h : BodyHeap) (m : option nat) (ids : list nat) : bool :=
  match f, m, ids with
  | _, None, [] => true
  | S f', Some x, y :: ids' => Nat.eqb x y && chainb f' h (bnext (h x)) ids'
  | _, _, _ => false
  end.

(** A flat index: the top-level chain from [e->body] is [ids], none of
    them is an expanding multipart, and the flat array lists each of them,
    in chain order, at depth 0. *)
Definition flat (st : State) (ids : list nat) : Prop :=
  chain (heap st) (ebody st) ids /\ entries st = map (fun x => (x, 0)) ids /\
  (forall x, In x ids -> expands (heap st x) = false).

(** The fields of a body that re-flattening reads besides [next]. *)
Definition shape_of (b : Body) : ContentType * string * option string * option nat :=
  (btype b, bsubtype b, bprotocol b, bparts b).

(** [swap_adj i l] exchanges the elements at positions [i] and [i+1]. *)
Fixpoint swap_adj {A} (i : nat) (l : list A) : list A :=
  match i, l with
  | 0, x :: y :: l' => y :: x :: l'
  | S i', x :: l' => x :: swap_adj i' l'
  | _, _ => l
  end.

(** ** Invariants used by the proofs *)

(** [h] is [h0] with some classifications cached. *)
Definition cached (gci : Body -> option Content) (h0 h : BodyHeap) : Prop :=
  forall y, h y = h0 y \/ (bcontent (h0 y) = None /\ h y = set_content (h0 y) (gci (h0 y))).

(** A non-multipart body whose file cannot be stat'ed. *)
Definition leaf_missing (stat : string -> option Z) (b : Body) : Prop :=
  is_multipart (btype b) = false /\ stat_body stat b = None.

(** Updating the encoding never changes a body's type or file name. *)
Definition same_shape (h0 h : BodyHeap) : Prop :=
  forall y, btype (h y) = btype (h0 y) /\ bfilename (h y) = bfilename (h0 y).

(** A moved part: no longer tagged, and inline. *)
Definition untagged_inline (h : BodyHeap) (x : nat) : Prop :=
  btagged (h x) = false /\ bdisposition (h x) = DISP_INLINE.

(** The variables of the multilingual loop after the top-level parts
    [done] have been visited, [rest] being the ones still to come. *)
Definition ling_inv (h0 : BodyHeap) (a : ApHeap) (G na : nat) (done rest : list nat)
  (s : LingSt) : Prop :=
  (forall q, In q (m_idx s) -> q < na) /\
  m_bptr s = hd_error rest /\
  (forall x, In x rest -> m_heap s x = h0 x) /\
  map (fun q => (ap_body (a q), ap_level (a q))) (m_idx s) =
    map (fun x => (x, 0)) (filter (fun x => negb (btagged (h0 x))) done ++ rest) /\
  m_i s = length (filter (fun x => negb (btagged (h0 x))) done) /\
  m_moved s = filter (fun x => btagged (h0 x)) done /\
  btype (m_heap s G) = btype (h0 G) /\ bsubtype (m_heap s G) = bsubtype (h0 G) /\
  match m_alts s with
  | None => m_moved s = []
  | Some al => exists l, m_moved s = l ++ [al] /\
                 chain (m_heap s) (bparts (m_heap s G)) (m_moved s)
  end.

(** The heap after compose_attach_swap found [p], the body before [b0]. *)
Definition swapped (h : BodyHeap) (p b0 b1 : nat) : BodyHeap :=
  wnext (wnext (wnext h b0 (bnext (h b1))) b1 (Some b0)) p (Some b1).

(** The new group keeps its type, subtype and protocol through the
    loops, and has parts once a part has been moved into it. *)
Definition group_shape (h : BodyHeap) (G : nat) (sub : string) : Prop :=
  btype (h G) = TYPE_MULTIPART /\ bsubtype (h G) = sub /\ bprotocol (h G) = None.

(** The group [G] along the two grouping loops. *)
Definition alts_group_inv (G : nat) (s : AltsSt) : Prop :=
  group_shape (g_heap s) G "alternative" /\
  (g_alts s <> None -> exists p, bparts (g_heap s G) = Some p) /\
  (g_moved s <> [] -> g_alts s <> None).

Definition ling_group_inv (G : nat) (s : LingSt) : Prop :=
  group_shape (m_heap s) G "multilingual" /\
  (m_alts s <> None -> exists p, bparts (m_heap s G) = Some p) /\
  (m_moved s <> [] -> m_alts s <> None).

(** ** The envelope area: header padding, row counting and drawing *)

(** enum HeaderField, with every optional enumerator present;
    [header_fields] lists those a build has, in the order of the enum. *)
Inductive HeaderField :=
  HDR_FROM | HDR_TO | HDR_CC | HDR_BCC | HDR_SUBJECT | HDR_REPLYTO | HDR_FCC
| HDR_MIX | HDR_CRYPT | HDR_CRYPTINFO | HDR_AUTOCRYPT
| HDR_NEWSGROUPS | HDR_FOLLOWUPTO | HDR_XCOMMENTTO | HDR_CUSTOM_HEADERS.

Scheme Equality for HeaderField.

(** The compile-time configuration: [WithCrypto] (the APPLICATION_PGP and
    APPLICATION_SMIME bits of the crypto back ends built in) and the
    MIXMASTER, USE_AUTOCRYPT and USE_NNTP switches. *)
Record Build := mkBuild {
  WithCrypto : Z;
  MIXMASTER : bool;
  USE_AUTOCRYPT : bool;
  USE_NNTP : bool
}.

Definition header_fields (b : Build) : list HeaderField :=
  [HDR_FROM; HDR_TO; HDR_CC; HDR_BCC; HDR_SUBJECT; HDR_REPLYTO; HDR_FCC]
  ++ (if MIXMASTER b then [HDR_MIX] else [])
  ++ [HDR_CRYPT; HDR_CRYPTINFO]
  ++ (if USE_AUTOCRYPT b then [HDR_AUTOCRYPT] else [])
  ++ (if USE_NNTP b then [HDR_NEWSGROUPS; HDR_FOLLOWUPTO; HDR_XCOMMENTTO] else [])
  ++ [HDR_CUSTOM_HEADERS].

Definition MAX_ADDR_ROWS : Z := 5%Z.
Definition MAX_USER_HDR_ROWS : Z := 5%Z.

(** What the envelope window receives, in order (colours are left out):
    draw_header, draw_floating, mutt_window_move, mutt_window_addstr (and
    mutt_window_printf with "%s"), mutt_paddstr, mutt_window_clrtoeol and
    mutt_window_clear. *)
Inductive Ev :=
| EvHeader (row : Z) (field : HeaderField)
| EvFloat (col row : Z) (text : string)
| EvMove (col row : Z)
| EvAddstr (s : string)
| EvPaddstr (width : Z) (s : string)
| EvClrtoeol
| EvClear.

(** The field value of an event that writes text after a label. *)
Definition ev_text (e : Ev) : option string :=
  match e with
  | EvAddstr s | EvPaddstr _ s => Some s
  | _ => None
  end.

(** A [short] variable assigned an [int]. *)
Definition to_short (z : Z) : Z := ((z + 2 ^ 15) mod 2 ^ 16 - 2 ^ 15)%Z.

Definition has_next {A} (l : list A) : bool :=
  match l with [] => false | _ => true end.

Section Layout.

(** mutt_strwidth (screen columns of a string) is a parameter;
    [fmt_more n] is the text that snprintf makes of
    ngettext("(+%d more)", ...) for [n]. *)
Variable mutt_strwidth : string -> Z.
Variable fmt_more : Z -> string.

(** *** calc_address

    [slist] is the list written by mutt_addrlist_write_list.  One pass of
    the [try_again] block gives [inl (rows, width_left)] to go on with the
    next address and [inr rows] for the [break]; its [goto] re-enters the
    block with [width_left = cols], where it cannot be taken again, so two
    passes ([k = 2]) are the most the code makes. *)
Fixpoint calc_try (k : nat) (cols addr_len rows width_left : Z) : (Z * Z) + Z :=
  match k with
  | O => inr rows
  | S k' =>
      if addr_len >=? width_left then
        if width_left =? cols then inr rows
        else calc_try k' cols addr_len (rows + 1) cols
      else inl (rows, if addr_len <? width_left then width_left - addr_len else width_left)
  end%Z.

Fixpoint calc_address_loop (cols : Z) (slist : list string) (rows width_left : Z) : Z :=
  match slist with
  | [] => rows
  | s :: l' =>
      let addr_len := (mutt_strwidth s + if has_next l' then 2 else 0)%Z in
      match calc_try 2 cols addr_len rows width_left with
      | inl (r, w) => calc_address_loop cols l' r w
      | inr r => r
      end
  end.

(** The value returned (and stored in [*srows]). *)
Definition calc_address (slist : list string) (cols : Z) : Z :=
  Z.min (calc_address_loop cols slist 1 cols) MAX_ADDR_ROWS.

(** *** calc_user_hdrs *)
Fixpoint calc_user_hdrs_loop (hdrs : list string) (rows : Z) : Z :=
  match hdrs with
  | [] => rows
  | _ :: l' => if (rows =? MAX_USER_HDR_ROWS)%Z then rows else calc_user_hdrs_loop l' (rows + 1)
  end.

Definition calc_user_hdrs (hdrs : list string) : Z := calc_user_hdrs_loop hdrs 0.

(** *** draw_envelope_addr

    The loop state: [lines_used], [width_left], the [more] buffer and
    [more_len], [row], [count] and the events so far.  [max_lines] is a
    [size_t]; the values it is given ([1] and the row counts of
    calc_address) are small and positive, so [lines_used == max_lines] is
    compared as integers. *)
Record AddrSt := mkAddrSt {
  a_lines : Z;
  a_width : Z;
  a_more : string;
  a_more_len : Z;
  a_row : Z;
  a_count : Z;
  a_ev : list Ev
}.

Definition a_set_try (st : AddrSt) (more : string) (more_len : Z) : AddrSt :=
  mkAddrSt (a_lines st) (a_width st) more more_len (a_row st) (a_count st) (a_ev st).

Definition a_emit (st : AddrSt) (e : list Ev) : AddrSt :=
  mkAddrSt (a_lines st) (a_width st) (a_more st) (a_more_len st) (a_row st) (a_count st)
    (a_ev st ++ e).

(** One pass of [try_again]: [inl] to go on with the next address,
    [inr] for the [break].  [full] is [win->state.cols - MaxHeaderWidth];
    the text of [more] is what fits in its 32 bytes, [more_len] is
    snprintf's return value. *)
Fixpoint addr_try (k : nat) (full mhw max_lines addr_len : Z) (s sep : string) (st : AddrSt)
  : AddrSt + AddrSt :=
  match k with
  | O => inr st
  | S k' =>
      let txt := fmt_more (a_count st) in
      let more_len := Z.of_nat (String.length txt) in
      let st := a_set_try st (substring 0 31 txt) more_len in
      let reserve := if (0 <? a_count st)%Z && (a_lines st =? max_lines)%Z then more_len else 0%Z in
      if (addr_len >=? a_width st - reserve)%Z then
        if (a_lines st =? max_lines)%Z then inr (a_emit st [EvPaddstr (a_width st) s])
        else if (a_width st =? full)%Z then inr (a_emit st [EvPaddstr (a_width st) s])
        else
          addr_try k' full mhw max_lines addr_len s sep
            (mkAddrSt (a_lines st + 1) full (a_more st) (a_more_len st) (a_row st + 1)
               (a_count st) (a_ev st ++ [EvClrtoeol; EvMove mhw (a_row st + 1)]))
      else if (addr_len <? a_width st)%Z then
        inl (mkAddrSt (a_lines st) (a_width st - addr_len) (a_more st) (a_more_len st)
               (a_row st) (a_count st) (a_ev st ++ [EvAddstr s; EvAddstr sep]))
      else inl st
  end.

Fixpoint addr_loop (full mhw max_lines : Z) (l : list string) (st : AddrSt) : AddrSt :=
  match l with
  | [] => st
  | s :: l' =>
      let addr_len := (mutt_strwidth s + if has_next l' then 2 else 0)%Z in
      let sep := if has_next l' then ", " else "" in
      let st1 := mkAddrSt (a_lines st) (a_width st) (a_more st) (a_more_len st)
                   (a_row st) (a_count st - 1) (a_ev st) in
      match addr_try 2 full mhw max_lines addr_len s sep st1 with
      | inl st2 => addr_loop full mhw max_lines l' st2
      | inr st2 => st2
      end
  end.

(** [for (int i = lines_used; i < max_lines; i++)] clearing row [row + i]. *)
Fixpoint clear_rows (n : nat) (i row : Z) : list Ev :=
  match n with
  | O => []
  | S n' => EvMove 0 (row + i) :: EvClrtoeol :: clear_rows n' (i + 1) row
  end.

(** [al] is the list mutt_addrlist_write_list writes; [cols] is
    [win->state.cols] and [mhw] is [MaxHeaderWidth].  The result is
    [lines_used] and the events. *)
Definition draw_envelope_addr (field : HeaderField) (al : list string) (cols mhw row max_lines : Z)
  : Z * list Ev :=
  let st0 := mkAddrSt 1 (cols - mhw) "" 0 row (Z.of_nat (length al)) [EvHeader row field] in
  let st := addr_loop (cols - mhw) mhw max_lines al st0 in
  let tail := if (0 <? a_count st)%Z
              then [EvMove (cols - a_more_len st) (a_row st); EvAddstr (a_more st)]
              else [EvClrtoeol] in
  (a_lines st,
   a_ev st ++ tail ++ clear_rows (Z.to_nat (max_lines - a_lines st)) (a_lines st) (a_row st)).

(** *** draw_envelope_user_hdrs

    [pad] is [HeaderPadding[HDR_CUSTOM_HEADERS]], [prompt] the text of its
    label; draw_header_content moves to column [pad] and pads to
    [cols - pad]. *)
Definition draw_header_content (cols pad row : Z) (content : string) : list Ev :=
  [EvMove pad row; EvPaddstr (cols - pad) content].

Fixpoint user_hdrs_loop (cols pad row : Z) (l : list string) (rows_used : Z) (ev : list Ev)
  : Z * list Ev :=
  match l with
  | [] => (rows_used, ev)
  | s :: l' =>
      if (rows_used =? MAX_USER_HDR_ROWS - 1)%Z && has_next l' then
        (rows_used + 1, ev ++ draw_header_content cols pad (row + rows_used) "...")%Z
      else
        user_hdrs_loop cols pad row l' (rows_used + 1)
          (ev ++ draw_header_content cols pad (row + rows_used) s)
  end.

Definition draw_envelope_user_hdrs (hdrs : list string) (cols pad : Z) (prompt : string) (row : Z)
  : Z * list Ev :=
  match hdrs with
  | [] => (0%Z, [])
  | first :: rest =>
      let ev := [EvHeader row HDR_CUSTOM_HEADERS;
                 EvPaddstr (cols - (pad + mutt_strwidth prompt)) first] in
      match rest with
      | [] => (1%Z, ev)
      | _ => user_hdrs_loop cols pad row rest 1 ev
      end
  end.

End Layout.

(** SecurityFlags (ncrypt/lib.h, not in src/): one bit each. *)
Definition SEC_ENCRYPT : Z := Z.shiftl 1 0.
Definition SEC_SIGN : Z := Z.shiftl 1 1.
Definition SEC_INLINE : Z := Z.shiftl 1 7.
Definition SEC_OPPENCRYPT : Z := Z.shiftl 1 8.
Definition SEC_AUTOCRYPT : Z := Z.shiftl 1 9.
Definition SEC_AUTOCRYPT_OVERRIDE : Z := Z.shiftl 1 10.
Definition APPLICATION_PGP : Z := Z.shiftl 1 11.
Definition APPLICATION_SMIME : Z := Z.shiftl 1 12.

(** [(s & f) != 0], [s |= f] and [s &= ~f]. *)
Definition sec_has (s f : Z) : bool := negb (Z.land s f =? 0)%Z.
Definition sec_set (s f : Z) : Z := Z.lor s f.
Definition sec_clear (s f : Z) : Z := Z.land s (Z.lnot f).

(** enum AutocryptRec (autocrypt/lib.h) and AutocryptRecUiFlags. *)
Inductive AutocryptRec :=
  AUTOCRYPT_REC_OFF | AUTOCRYPT_REC_NO | AUTOCRYPT_REC_DISCOURAGE
| AUTOCRYPT_REC_AVAILABLE | AUTOCRYPT_REC_YES.

Definition AutocryptRecUiFlags (r : AutocryptRec) : string :=
  match r with
  | AUTOCRYPT_REC_OFF => "Off"
  | AUTOCRYPT_REC_NO => "No"
  | AUTOCRYPT_REC_DISCOURAGE => "Discouraged"
  | AUTOCRYPT_REC_AVAILABLE => "Available"
  | AUTOCRYPT_REC_YES => "Yes"
  end.

Definition rec_is_yes (r : AutocryptRec) : bool :=
  match r with AUTOCRYPT_REC_YES => true | _ => false end.

(** The envelope as the compose screen reads it: each address list as the
    strings mutt_addrlist_write_list makes of it. *)
Record Envelope := mkEnvelope {
  env_from : list string;
  env_to : list string;
  env_cc : list string;
  env_bcc : list string;
  env_reply_to : list string;
  env_subject : option string;
  env_newsgroups : option string;
  env_followup_to : option string;
  env_x_comment_to : option string;
  env_userhdrs : list string
}.

(** struct ComposeRedrawData: the row counts and the recommendation. *)
Record Redraw := mkRedraw {
  to_rows : Z;
  cc_rows : Z;
  bcc_rows : Z;
  sec_rows : Z;
  autocrypt_rec : AutocryptRec
}.

Definition NONULL (s : option string) : string :=
  match s with Some x => x | None => "" end.

Section Crypt.

(** The configuration as read by cs_subset_bool and cs_subset_string;
    the translated texts are the untranslated ones. *)
Variable cfg_bool : string -> bool.
Variable cfg_string : string -> option string.
Variable mutt_strwidth : string -> Z.
Variable fmt_more : Z -> string.

(** *** calc_security *)
Definition calc_security (b : Build) (security : Z) : Z :=
  let rows :=
    if (Z.land (WithCrypto b) (Z.lor APPLICATION_PGP APPLICATION_SMIME) =? 0)%Z then 0%Z
    else if sec_has security (Z.lor SEC_ENCRYPT SEC_SIGN) then 2%Z
    else 1%Z in
  if USE_AUTOCRYPT b && cfg_bool "autocrypt" then (rows + 1)%Z else rows.

(** *** redraw_crypt_lines: the rows used and the events. *)
Definition redraw_crypt_lines (b : Build) (security : Z) (rec : AutocryptRec) (row : Z)
  : Z * list Ev :=
  let wc := WithCrypto b in
  let ev0 := [EvHeader row HDR_CRYPT] in
  let row1 := (row + 1)%Z in
  if (Z.land wc (Z.lor APPLICATION_PGP APPLICATION_SMIME) =? 0)%Z then (0%Z, ev0) else
  let '(txt, used) :=
    if (Z.land security (Z.lor SEC_ENCRYPT SEC_SIGN) =? Z.lor SEC_ENCRYPT SEC_SIGN)%Z
    then ("Sign, Encrypt", 2%Z)
    else if sec_has security SEC_ENCRYPT then ("Encrypt", 2%Z)
    else if sec_has security SEC_SIGN then ("Sign", 2%Z)
    else ("None", 1%Z) in
  let ev1 :=
    if sec_has security (Z.lor SEC_ENCRYPT SEC_SIGN) then
      if sec_has wc APPLICATION_PGP && sec_has security APPLICATION_PGP then
        [EvAddstr (if sec_has security SEC_INLINE then " (inline PGP)" else " (PGP/MIME)")]
      else if sec_has wc APPLICATION_SMIME && sec_has security APPLICATION_SMIME then
        [EvAddstr " (S/MIME)"]
      else []
    else [] in
  let ev2 :=
    if cfg_bool "crypt_opportunistic_encrypt" && sec_has security SEC_OPPENCRYPT
    then [EvAddstr " (OppEnc mode)"] else [] in
  let '(row2, ev3) :=
    if sec_has wc APPLICATION_PGP && sec_has security APPLICATION_PGP
       && sec_has security SEC_SIGN
    then ((row1 + 1)%Z,
          [EvHeader row1 HDR_CRYPTINFO;
           EvAddstr (match cfg_string "pgp_sign_as" with Some s => s | None => "<default>" end)])
    else (row1, []) in
  let '(row3, ev4) :=
    if sec_has wc APPLICATION_SMIME && sec_has security APPLICATION_SMIME
       && sec_has security SEC_SIGN
    then ((row2 + 1)%Z,
          [EvHeader row2 HDR_CRYPTINFO;
           EvAddstr (match cfg_string "pgp_sign_as" with Some s => s | None => "<default>" end)])
    else (row2, []) in
  let ev5 :=
    match cfg_string "smime_encrypt_with" with
    | Some with_ =>
        if sec_has wc APPLICATION_SMIME && sec_has security APPLICATION_SMIME
           && sec_has security SEC_ENCRYPT
        then [EvFloat 40 (row3 - 1) "Encrypt with: "; EvAddstr with_] else []
    | None => []
    end in
  let '(used', ev6) :=
    if USE_AUTOCRYPT b && cfg_bool "autocrypt" then
      ((used + 1)%Z,
       [EvHeader row3 HDR_AUTOCRYPT;
        EvAddstr (if sec_has security SEC_AUTOCRYPT then "Encrypt" else "Off");
        EvFloat 40 row3 "Recommendation: ";
        EvAddstr (AutocryptRecUiFlags rec)])
    else (used, []) in
  (used', ev0 ++ [EvAddstr txt] ++ ev1 ++ ev2 ++ [EvClrtoeol] ++ ev3 ++ ev4 ++ ev5 ++ ev6).

(** *** redraw_mix_line

    [cols] is the width of the envelope window.  The test
    [c + mutt_str_len(t) + 2 >= cols] is made on [size_t] values. *)
Definition size_t_of (z : Z) : Z := (z mod 2 ^ 64)%Z.

Fixpoint mix_loop (cols : Z) (l : list string) (c : Z) : list Ev :=
  match l with
  | [] => []
  | t :: l' =>
      let t' := if String.eqb t "0" then "<random>" else t in
      if (size_t_of (c + Z.of_nat (String.length t') + 2) >=? size_t_of cols)%Z then []
      else EvAddstr t' :: (if has_next l' then [EvAddstr ", "] else [])
           ++ mix_loop cols l' (c + Z.of_nat (String.length t') + 2)
  end.

Definition redraw_mix_line (chain : list string) (cols row : Z) : list Ev :=
  EvHeader row HDR_MIX ::
  match chain with
  | [] => [EvAddstr "<no chain defined>"; EvClrtoeol]
  | _ => mix_loop cols chain 12
  end.

(** *** calc_envelope

    [win_cols] is the envelope window's width and [mhw] is MaxHeaderWidth;
    [news] is OptNewsSend.  The [int] width is passed to the [short]
    parameter of calc_address. *)
Definition calc_envelope (b : Build) (news : bool) (env : Envelope) (security : Z)
  (rd : Redraw) (win_cols mhw : Z) : Z * Redraw :=
  let rows := (4 + if MIXMASTER b then 1 else 0)%Z in
  let cols := (win_cols - mhw)%Z in
  let '(rows, rd) :=
    if USE_NNTP b && news then
      ((rows + 2 + if cfg_bool "x_comment_to" then 1 else 0)%Z, rd)
    else
      let t := calc_address mutt_strwidth (env_to env) (to_short cols) in
      let c := calc_address mutt_strwidth (env_cc env) (to_short cols) in
      let bc := calc_address mutt_strwidth (env_bcc env) (to_short cols) in
      ((rows + t + c + bc)%Z, mkRedraw t c bc (sec_rows rd) (autocrypt_rec rd)) in
  let s := calc_security b security in
  let rd := mkRedraw (to_rows rd) (cc_rows rd) (bcc_rows rd) s (autocrypt_rec rd) in
  let rows := (rows + s)%Z in
  let rows := if cfg_bool "compose_show_user_headers"
              then (rows + calc_user_hdrs (env_userhdrs env))%Z else rows in
  (rows, rd).

(** *** draw_envelope

    [fcc] is the Fcc text; [pad_custom] is HeaderPadding[HDR_CUSTOM_HEADERS]
    and [prompt_custom] the label "Headers: ".  The result is the row after
    the last one drawn, and the events of the envelope window (the
    "-- Attachments" label goes to another window). *)
Definition draw_envelope (b : Build) (news : bool) (env : Envelope) (security : Z)
  (chain : list string) (rd : Redraw) (fcc : string) (win_cols mhw pad_custom : Z)
  (prompt_custom : string) : Z * list Ev :=
  let cols := (win_cols - mhw)%Z in
  let '(row, ev) := draw_envelope_addr mutt_strwidth fmt_more HDR_FROM (env_from env) win_cols mhw 0 1 in
  let ev := EvClear :: ev in
  let '(row, ev) :=
    if USE_NNTP b && news then
      let ev := ev ++ [EvHeader row HDR_NEWSGROUPS; EvPaddstr cols (NONULL (env_newsgroups env))] in
      let row := (row + 1)%Z in
      let ev := ev ++ [EvHeader row HDR_FOLLOWUPTO; EvPaddstr cols (NONULL (env_followup_to env))] in
      let row := (row + 1)%Z in
      if cfg_bool "x_comment_to" then
        ((row + 1)%Z, ev ++ [EvHeader row HDR_XCOMMENTTO; EvPaddstr cols (NONULL (env_x_comment_to env))])
      else (row, ev)
    else
      let '(n, e) := draw_envelope_addr mutt_strwidth fmt_more HDR_TO (env_to env) win_cols mhw row (to_rows rd) in
      let '(row, ev) := ((row + n)%Z, ev ++ e) in
      let '(n, e) := draw_envelope_addr mutt_strwidth fmt_more HDR_CC (env_cc env) win_cols mhw row (cc_rows rd) in
      let '(row, ev) := ((row + n)%Z, ev ++ e) in
      let '(n, e) := draw_envelope_addr mutt_strwidth fmt_more HDR_BCC (env_bcc env) win_cols mhw row (bcc_rows rd) in
      ((row + n)%Z, ev ++ e) in
  let ev := ev ++ [EvHeader row HDR_SUBJECT; EvPaddstr cols (NONULL (env_subject env))] in
  let row := (row + 1)%Z in
  let '(n, e) := draw_envelope_addr mutt_strwidth fmt_more HDR_REPLYTO (env_reply_to env) win_cols mhw row 1 in
  let '(row, ev) := ((row + n)%Z, ev ++ e) in
  let ev := ev ++ [EvHeader row HDR_FCC; EvPaddstr cols fcc] in
  let row := (row + 1)%Z in
  let '(row, ev) :=
    if negb (WithCrypto b =? 0)%Z then
      let '(n, e) := redraw_crypt_lines b security (autocrypt_rec rd) row in ((row + n)%Z, ev ++ e)
    else (row, ev) in
  let '(row, ev) :=
    if MIXMASTER b then ((row + 1)%Z, ev ++ redraw_mix_line chain win_cols row) else (row, ev) in
  if cfg_bool "compose_show_user_headers" then
    let '(n, e) := draw_envelope_user_hdrs mutt_strwidth (env_userhdrs env) win_cols pad_custom
                     prompt_custom row in
    ((row + n)%Z, ev ++ e)
  else (row, ev).

End Crypt.

(** The row an event is placed at, if it places one. *)
Definition ev_row (e : Ev) : option Z :=
  match e with
  | EvHeader r _ | EvFloat _ r _ => Some r
  | _ => None
  end.

(** *** Header labels and their padding *)

Definition Prompts (f : HeaderField) : string :=
  match f with
  | HDR_FROM => "From: "
  | HDR_TO => "To: "
  | HDR_CC => "Cc: "
  | HDR_BCC => "Bcc: "
  | HDR_SUBJECT => "Subject: "
  | HDR_REPLYTO => "Reply-To: "
  | HDR_FCC => "Fcc: "
  | HDR_MIX => "Mix: "
  | HDR_CRYPT => "Security: "
  | HDR_CRYPTINFO => "Sign as: "
  | HDR_AUTOCRYPT => "Autocrypt: "
  | HDR_NEWSGROUPS => "Newsgroups: "
  | HDR_FOLLOWUPTO => "Followup-To: "
  | HDR_XCOMMENTTO => "X-Comment-To: "
  | HDR_CUSTOM_HEADERS => "Headers: "
  end.

(** mutt_str_len: the length in bytes. *)
Definition mutt_str_len (s : string) : Z := Z.of_nat (String.length s).

(** The static [done] flag of init_header_padding, [HeaderPadding] and
    [MaxHeaderWidth]. *)
Record PadSt := mkPadSt {
  pad_done : bool;
  HeaderPadding : HeaderField -> Z;
  MaxHeaderWidth : Z
}.

Definition fupd (h : HeaderField -> Z) (f : HeaderField) (v : Z) : HeaderField -> Z :=
  fun g => if HeaderField_beq g f then v else h g.

Definition set_padding (st : PadSt) (f : HeaderField) (v : Z) : PadSt :=
  mkPadSt (pad_done st) (fupd (HeaderPadding st) f v) (MaxHeaderWidth st).

Section Padding.

(** [gettext] is the translation of [_()]. *)
Variable mutt_strwidth : string -> Z.
Variable gettext : string -> string.

Definition calc_header_width_padding (idx : HeaderField) (header : string) (calc_max : bool)
  (st : PadSt) : PadSt :=
  let st := set_padding st idx (mutt_str_len header) in
  let width := mutt_strwidth header in
  let st := if calc_max && (MaxHeaderWidth st <? width)%Z
            then mkPadSt (pad_done st) (HeaderPadding st) width else st in
  set_padding st idx (HeaderPadding st idx - width)%Z.

(** The loops over [0 <= i < HDR_ATTACH_TITLE] visit the fields of the
    build in the order of the enum. *)
Definition init_header_padding (b : Build) (st : PadSt) : PadSt :=
  if pad_done st then st else
  let st := mkPadSt true (HeaderPadding st) (MaxHeaderWidth st) in
  let st := fold_left (fun st i =>
              if HeaderField_beq i HDR_CRYPTINFO then st
              else calc_header_width_padding i (gettext (Prompts i)) true st)
              (header_fields b) st in
  let st := calc_header_width_padding HDR_CRYPTINFO (gettext (Prompts HDR_CRYPTINFO)) false st in
  fold_left (fun st i =>
    let st := set_padding st i (HeaderPadding st i + MaxHeaderWidth st)%Z in
    if (HeaderPadding st i <? 0)%Z then set_padding st i 0%Z else st)
    (header_fields b) st.

(** draw_header prints the label with "%*s" and width [HeaderPadding[field]]:
    the spaces printf puts before it. *)
Definition label_spaces (st : PadSt) (f : HeaderField) : Z :=
  Z.max 0 (HeaderPadding st f - mutt_str_len (gettext (Prompts f))).

End Padding.

(** *** Security settings: update_crypt_info and the autocrypt menu *)

Section Security.

Variable cfg_bool : string -> bool.
(** crypt_opportunistic_encrypt (ncrypt, not in src/), on the flags of the
    email, and mutt_autocrypt_ui_recommendation (autocrypt, not in src/). *)
Variable crypt_opportunistic_encrypt : Z -> Z.
Variable mutt_autocrypt_ui_recommendation : Z -> AutocryptRec.

(** The new [e->security] and the ComposeRedrawData. *)
Definition update_crypt_info (b : Build) (security : Z) (rd : Redraw) : Z * Redraw :=
  let security := if cfg_bool "crypt_opportunistic_encrypt"
                  then crypt_opportunistic_encrypt security else security in
  if USE_AUTOCRYPT b && cfg_bool "autocrypt" then
    let r := mutt_autocrypt_ui_recommendation security in
    let rd := mkRedraw (to_rows rd) (cc_rows rd) (bcc_rows rd) (sec_rows rd) r in
    if sec_has security (Z.lor (Z.lor SEC_ENCRYPT SEC_SIGN) APPLICATION_SMIME) then
      (sec_clear security (Z.lor SEC_AUTOCRYPT SEC_AUTOCRYPT_OVERRIDE), rd)
    else if negb (sec_has security SEC_AUTOCRYPT_OVERRIDE) then
      if rec_is_yes r then
        (sec_clear (sec_set security (Z.lor SEC_AUTOCRYPT APPLICATION_PGP))
                   (Z.lor SEC_INLINE APPLICATION_SMIME), rd)
      else (sec_clear security SEC_AUTOCRYPT, rd)
    else (security, rd)
  else (security, rd).

(** [choice] is what mutt_multi_choice returns for the letters "eca":
    1, 2 or 3, or -1 when the prompt is aborted. *)
Definition autocrypt_compose_menu (security choice : Z) : Z :=
  let security := sec_set security APPLICATION_PGP in
  if (choice =? 1)%Z then
    sec_clear (sec_set security (Z.lor SEC_AUTOCRYPT SEC_AUTOCRYPT_OVERRIDE))
      (Z.lor (Z.lor (Z.lor SEC_ENCRYPT SEC_SIGN) SEC_OPPENCRYPT) SEC_INLINE)
  else if (choice =? 2)%Z then
    sec_set (sec_clear security SEC_AUTOCRYPT) SEC_AUTOCRYPT_OVERRIDE
  else if (choice =? 3)%Z then
    let security := sec_clear security SEC_AUTOCRYPT_OVERRIDE in
    if cfg_bool "crypt_opportunistic_encrypt" then sec_set security SEC_OPPENCRYPT
    else security
  else security.

(** OP_COMPOSE_AUTOCRYPT_MENU (a USE_AUTOCRYPT build): [yes] is the reply
    to "S/MIME already selected. Clear and continue?".  The result is the
    new flags, the redraw data and [redraw_env]. *)
Definition op_autocrypt_menu (b : Build) (security : Z) (rd : Redraw)
  (yes : QuadOption) (choice : Z) : Z * Redraw * bool :=
  let old_flags := security in
  if negb (cfg_bool "autocrypt") then (security, rd, false) else
  let step :=
    if sec_has (WithCrypto b) APPLICATION_SMIME && sec_has security APPLICATION_SMIME then
      let cleared :=
        if sec_has security (Z.lor SEC_ENCRYPT SEC_SIGN) then
          match yes with
          | MUTT_YES => Some (sec_clear security (Z.lor SEC_ENCRYPT SEC_SIGN))
          | _ => None
          end
        else Some security in
      match cleared with
      | Some s =>
          let s := sec_set (sec_clear s APPLICATION_SMIME) APPLICATION_PGP in
          Some (update_crypt_info b s rd)
      | None => None
      end
    else Some (security, rd) in
  match step with
  | None => (security, rd, false)
  | Some (s, rd) =>
      let s := autocrypt_compose_menu s choice in
      let '(s, rd) := update_crypt_info b s rd in
      (s, rd, negb (old_flags =? s)%Z)
  end.

End Security.

(** *** The status bar: compose_format_str

    MUTT_FORMAT_OPTIONAL is defined in format_flags.h (not in src/). *)
Definition MUTT_FORMAT_OPTIONAL : Z := Z.shiftl 1 2.

Section Format.

(** The printf family and the collaborators: [fmt_d prec n] and
    [fmt_s prec s] are what snprintf makes of "%<prec>d" and "%<prec>s";
    [fmt_other prec op] of "%%%s%c"; [pretty_size] is
    mutt_str_pretty_size; [status_line src] is what compose_status_line
    (mutt_expando_format with this function) makes of [src]. *)
Variable fmt_d : string -> Z -> string.
Variable fmt_s : string -> string -> string.
Variable fmt_other : string -> Ascii.ascii -> string.
Variable pretty_size : Z -> string.
Variable ShortHostname : option string.
Variable mutt_make_version : string.
Variable get_content_info : Body -> option Content.
Variable status_line : State -> string -> string.

(** [op] is [None] for the NUL character.  The result is the text put in
    [buf] and the body store left by cum_attachs_size. *)
Definition compose_format_str (op : option Ascii.ascii) (prec if_str else_str : string)
  (st : State) (flags : Z) : string * BodyHeap :=
  let optional := sec_has flags MUTT_FORMAT_OPTIONAL in
  let '(buf, h) :=
    match op with
    | None => ("", heap st)
    | Some c =>
        if Ascii.eqb c "a"%char then (fmt_d prec (Z.of_nat (length (idx st))), heap st)
        else if Ascii.eqb c "h"%char then (fmt_s prec (NONULL ShortHostname), heap st)
        else if Ascii.eqb c "l"%char then
          let '(sz, h) := cum_attachs_size get_content_info st in (fmt_s prec (pretty_size sz), h)
        else if Ascii.eqb c "v"%char then (mutt_make_version, heap st)
        else (fmt_other prec c, heap st)
    end in
  match op with
  | None => (buf, h)
  | Some _ =>
      if optional then (status_line st if_str, h)
      else if sec_has flags MUTT_FORMAT_OPTIONAL then (status_line st else_str, h)
      else (buf, h)
  end.

End Format.

(** *** Moving the status bar: compose_config_observer

    The compose dialog's children, each with its identity and type;
    mutt_window_find searches the children in order (they have none of
    their own). *)
Inductive WindowType := WT_DLG_COMPOSE | WT_CUSTOM | WT_INDEX | WT_INDEX_BAR.

Definition wt_eqb (a b : WindowType) : bool :=
  match a, b with
  | WT_DLG_COMPOSE, WT_DLG_COMPOSE | WT_CUSTOM, WT_CUSTOM
  | WT_INDEX, WT_INDEX | WT_INDEX_BAR, WT_INDEX_BAR => true
  | _, _ => false
  end.

Record Window := mkWindow { win_id : nat; win_type : WindowType }.

Fixpoint mutt_window_find (l : list Window) (t : WindowType) : option Window :=
  match l with
  | [] => None
  | w :: l' => if wt_eqb (win_type w) t then Some w else mutt_window_find l' t
  end.

(** TAILQ_REMOVE of a window found in the list. *)
Fixpoint tailq_remove (l : list Window) (w : Window) : list Window :=
  match l with
  | [] => []
  | x :: l' => if Nat.eqb (win_id x) (win_id w) then l' else x :: tailq_remove l' w
  end.

Inductive NotifyType := NT_CONFIG | NT_HEADER | NT_OTHER.

(** struct EventConfig: the option's name and the value of status_on_top
    in its ConfigSubset. *)
Record EventConfig := mkEventConfig { ec_name : string; ec_status_on_top : bool }.

Record NotifyCallback := mkNotifyCallback {
  event_type : NotifyType;
  event_data : option EventConfig;
  global_data : option (list Window)
}.

(** The return value and the dialog's children after the call. *)
Definition compose_config_observer (nc : NotifyCallback) : Z * option (list Window) :=
  match event_data nc, global_data nc with
  | Some ec, Some dlg =>
      match event_type nc with
      | NT_CONFIG =>
          if negb (String.eqb (ec_name ec) "status_on_top") then (0%Z, Some dlg) else
          match mutt_window_find dlg WT_INDEX_BAR with
          | None => (0%Z, Some dlg)
          | Some win_ebar =>
              let l := tailq_remove dlg win_ebar in
              if ec_status_on_top ec then (0%Z, Some (win_ebar :: l))
              else (0%Z, Some (l ++ [win_ebar]))
          end
      | _ => (0%Z, Some dlg)
      end
  | _, _ => ((-1)%Z, global_data nc)
  end.

(** The children mutt_compose_menu gives the dialog. *)
Definition compose_layout (status_on_top : bool) (envelope abar attach ebar : Window)
  : list Window :=
  if status_on_top then [ebar; envelope; abar; attach] else [envelope; abar; attach; ebar].

(** ** More operations of the menu *)

Definition set_encoding (b : Body) (e : ContentEncoding) : Body :=
  mkBody (btype b) (bsubtype b) (bprotocol b) (bparts b) (bnext b) (btagged b)
    (bdisposition b) e (bcontent b) (bfilename b) (bstamp b)
    (bemail b) (bunlink b) (blanguage b).

Definition enc_eqb (a b : ContentEncoding) : bool :=
  match a, b with
  | ENC_OTHER, ENC_OTHER | ENC_7BIT, ENC_7BIT | ENC_8BIT, ENC_8BIT
  | ENC_QUOTED_PRINTABLE, ENC_QUOTED_PRINTABLE | ENC_BASE64, ENC_BASE64
  | ENC_BINARY, ENC_BINARY | ENC_UUENCODED, ENC_UUENCODED => true
  | _, _ => false
  end.

Definition There_are_no_attachments : string := "There are no attachments".

(** [CUR_ATTACH->body], with [v2r] the identity. *)
Definition cur_body (st : State) : option nat := body_at (aps st) (idx st) (current st).

(** OP_COMPOSE_TOGGLE_DISPOSITION: there is no CHECK_COUNT. *)
Definition op_toggle_disposition (st : State) : outcome :=
  match cur_body st with
  | None => Undef
  | Some b =>
      let d := match bdisposition (heap st b) with
               | DISP_INLINE => DISP_ATTACH
               | _ => DISP_INLINE
               end in
      Done (with_heap st (hupd (heap st) b (set_disposition (heap st b) d)))
  end.

(** OP_COMPOSE_TOGGLE_UNLINK *)
Definition op_toggle_unlink (st : State) : outcome :=
  if length (idx st) =? 0 then Err There_are_no_attachments st else
  match cur_body st with
  | None => Undef
  | Some b => Done (with_heap st (hupd (heap st) b (set_unlink (heap st b) (negb (bunlink (heap st b))))))
  end.

(** OP_COMPOSE_EDIT_ENCODING: [answer] is the text typed at the
    "Content-Transfer-Encoding: " prompt ([None] when mutt_get_field does
    not return 0) and [mutt_check_encoding] the parser of the email
    library (not in src/). *)
Definition op_edit_encoding (mutt_check_encoding : string -> ContentEncoding)
  (answer : option string) (st : State) : outcome :=
  if length (idx st) =? 0 then Err There_are_no_attachments st else
  match cur_body st with
  | None => Undef
  | Some b =>
      match answer with
      | Some buf =>
          if String.eqb buf "" then Done st else
          let enc := mutt_check_encoding buf in
          if negb (enc_eqb enc ENC_OTHER) && negb (enc_eqb enc ENC_UUENCODED) then
            if negb (enc_eqb enc (bencoding (heap st b))) then
              Done (with_heap st (hupd (heap st) b (set_encoding (heap st b) enc)))
            else Done st
          else Err "Invalid encoding" st
      | None => Done st
      end
  end.

Section Encoding.

Variable get_content_info : Body -> option Content.
Variable now : Z.

(** [for (top = e->body; top; top = top->next)] updating the tagged ones. *)
Fixpoint update_tagged (f : nat) (h : BodyHeap) (top : option nat) : option BodyHeap :=
  match f with
  | 0 => None
  | S f' =>
      match top with
      | None => Some h
      | Some t =>
          let h := if btagged (h t) then hupd h t (mutt_update_encoding get_content_info now (h t))
                   else h in
          update_tagged f' h (bnext (h t))
      end
  end.

(** OP_COMPOSE_UPDATE_ENCODING, with or without the tag prefix. *)
Definition op_update_encoding (tagprefix : bool) (st : State) : outcome :=
  if length (idx st) =? 0 then Err There_are_no_attachments st else
  if tagprefix then
    match update_tagged (fuel st) (heap st) (ebody st) with
    | Some h => Done (with_heap st h)
    | None => Undef
    end
  else
    match cur_body st with
    | None => Undef
    | Some b => Done (with_heap st (hupd (heap st) b (mutt_update_encoding get_content_info now (heap st b))))
    end.

End Encoding.

(** OP_EXIT answered "no": the files of unowned entries are kept, then
    (without MUTT_COMPOSE_NOFREEHEADER) every entry's body is cut from its
    siblings (and from its parts, unless it is a message) before it is
    freed.  The result is the store the bodies are freed from. *)
Fixpoint keep_unowned (h : BodyHeap) (a : ApHeap) (l : list nat) : BodyHeap :=
  match l with
  | [] => h
  | q :: l' =>
      let h := if ap_unowned (a q) then hupd h (ap_body (a q)) (set_unlink (h (ap_body (a q))) false)
               else h in
      keep_unowned h a l'
  end.

Fixpoint detach_all (h : BodyHeap) (a : ApHeap) (l : list nat) : BodyHeap :=
  match l with
  | [] => h
  | q :: l' =>
      let b := ap_body (a q) in
      let h := wnext h b None in
      let h := if bemail (h b) then h else hupd h b (set_parts (h b) None) in
      detach_all h a l'
  end.

Definition op_exit_discard (nofreeheader : bool) (st : State) : BodyHeap :=
  let h := keep_unowned (heap st) (aps st) (idx st) in
  if nofreeheader then h else detach_all h (aps st) (idx st).

(** ** The Mixmaster chain line, as the code lays it out *)

Definition mix_shown (t : string) : string := if String.eqb t "0" then "<random>" else t.

Fixpoint mix_width (l : list string) : Z :=
  match l with
  | [] => 0%Z
  | t :: l' => (Z.of_nat (String.length (mix_shown t)) + 2 + mix_width l')%Z
  end.

(** The names [p] followed by separators; [more] says whether the chain
    goes on after [p]. *)
Fixpoint mix_render (p : list string) (more : bool) : list Ev :=
  match p with
  | [] => []
  | t :: p' => EvAddstr (mix_shown t) :: (if has_next p' || more then [EvAddstr ", "] else [])
               ++ mix_render p' more
  end.

(** ** Views of the drawing and the padding passes *)

(** The texts written by mutt_paddstr. *)
Definition padd_texts (ev : list Ev) : list string :=
  flat_map (fun e => match e with EvPaddstr _ s => [s] | _ => [] end) ev.

(** [x] is immediately followed by [y] somewhere in [l]. *)
Definition adjacent (x y : Ev) (l : list Ev) : Prop :=
  exists pre post, l = pre ++ x :: y :: post.

(** Every row drawn on lies in [lo, hi). *)
Definition rows_within (lo hi : Z) (evs : list Ev) : Prop :=
  Forall (fun e => match ev_row e with Some r => (lo <= r < hi)%Z | None => True end) evs.

Section PadPhases.

Variable w : string -> Z.
Variable g : string -> string.

(** The first loop of init_header_padding (one step). *)
Definition phase1 (st : PadSt) (i : HeaderField) : PadSt :=
  if HeaderField_beq i HDR_CRYPTINFO then st
  else calc_header_width_padding w i (g (Prompts i)) true st.

(** Its third loop (one step). *)
Definition phase3 (st : PadSt) (i : HeaderField) : PadSt :=
  let st := set_padding st i (HeaderPadding st i + MaxHeaderWidth st)%Z in
  if (HeaderPadding st i <? 0)%Z then set_padding st i 0%Z else st.

End PadPhases.

(** * Properties *)

(** ** Store and list lemmas *)

Lemma hupd_eq {A} (h : nat -> A) x v : hupd h x v x = v.
Proof. unfold hupd. now rewrite Nat.eqb_refl. Qed.

Lemma hupd_neq {A} (h : nat -> A) x y v : y <> x -> hupd h x v y = h y.
Proof. intro H. unfold hupd. destruct (Nat.eqb_spec y x); congruence. Qed.

Lemma hupd_same {A} (h : nat -> A) x y v :
  hupd h x v y = if Nat.eqb y x then v else h y.
Proof. reflexivity. Qed.

Lemma nth_error_replace_nth_eq l i v :
  i < length l -> nth_error (replace_nth l i v) i = Some v.
Proof.
  revert i; induction l as [|x l IH]; intros [|i] H; simpl in *; try lia; auto.
  apply IH; lia.
Qed.

Lemma nth_error_replace_nth_neq l i j v :
  i <> j -> nth_error (replace_nth l i v) j = nth_error l j.
Proof.
  revert i j; induction l as [|x l IH]; intros [|i] [|j] H; simpl; auto; try lia.
Qed.

Lemma length_replace_nth l i v : length (replace_nth l i v) = length l.
Proof. revert i; induction l; intros [|i]; simpl; auto. Qed.

Lemma swap_walk_total f h m ids b0 b1 :
  chain h m ids -> length ids < f -> exists h', swap_walk f h m b0 b1 = Some h'.
Proof.
  intros Hc; revert f; induction Hc as [|x l Hc IH]; intros [|f] Hf; simpl in *; try lia.
  - eauto.
  - destruct (opt_eqb (bnext (h x)) (Some b0)); eauto.
    apply IH; lia.
Qed.

Lemma compose_attach_swap_inv st first st' :
  compose_attach_swap st first = Some st' ->
  exists q0 q1 h1,
    nth_error (idx st) first = Some q0 /\
    nth_error (idx st) (S first) = Some q1 /\
    swap_walk (fuel st) (heap st) (ebody st) (ap_body (aps st q0)) (ap_body (aps st q1))
      = Some h1 /\
    st' = mkState h1
            (hupd (hupd (aps st) q1 (set_num (aps st q1) (ap_num (aps st q0)))) q0
               (set_num (hupd (aps st) q1 (set_num (aps st q1) (ap_num (aps st q0))) q0)
                  (ap_num (aps st q1))))
            (ebody st) (replace_nth (replace_nth (idx st) first q1) (S first) q0)
            (current st) (next_body st) (next_ap st).
Proof.
  unfold compose_attach_swap, obind.
  destruct (nth_error (idx st) first) as [q0|] eqn:E0; [|discriminate].
  destruct (nth_error (idx st) (S first)) as [q1|] eqn:E1; [|discriminate].
  destruct (swap_walk _ _ _ _ _) as [h1|] eqn:Ew; [|discriminate].
  intros H; injection H as <-. exists q0, q1, h1. auto.
Qed.

Lemma compose_attach_swap_total st first ids :
  chain (heap st) (ebody st) ids -> length ids <= next_body st ->
  S first < length (idx st) ->
  exists st', compose_attach_swap st first = Some st'.
Proof.
  intros Hc Hl Hf.
  destruct (nth_error (idx st) first) as [q0|] eqn:E0;
    [|apply nth_error_None in E0; lia].
  destruct (nth_error (idx st) (S first)) as [q1|] eqn:E1;
    [|apply nth_error_None in E1; lia].
  destruct (swap_walk_total (fuel st) (heap st) (ebody st) ids
              (ap_body (aps st q0)) (ap_body (aps st q1)) Hc) as [h1 Hw];
    [unfold fuel; lia|].
  unfold compose_attach_swap, obind. rewrite E0, E1, Hw. eauto.
Qed.

(** ** C7: the fundamental part is never moved *)

(** C7.  For every state: move-up at position 0 or 1 and move-down at
    position 0 are refused with an error, as is move-down at the last
    position (and move-up at the first); the state is left as it was.
    A move that succeeds leaves the first entry in place. *)
Theorem fundamental_part_never_swapped (st : State) :
  op_move_up (with_current st 0) = Err "Attachment is already at top" (with_current st 0) /\
  op_move_up (with_current st 1) = Err "The fundamental part can't be moved" (with_current st 1) /\
  (exists m, op_move_down (with_current st 0) = Err m (with_current st 0)) /\
  (exists m, op_move_down (with_current st (length (idx st) - 1))
             = Err m (with_current st (length (idx st) - 1))) /\
  (forall st', op_move_up st = Done st' \/ op_move_down st = Done st' ->
     nth_error (idx st') 0 = nth_error (idx st) 0).
Proof.
  split; [reflexivity|]. split; [reflexivity|].
  split.
  { unfold op_move_down; simpl.
    destruct (length (idx st)) as [|[|n]]; simpl; eauto. }
  split.
  { unfold op_move_down; simpl.
    destruct (length (idx st)) as [|n] eqn:E; simpl; eauto.
    rewrite Nat.sub_0_r, Nat.eqb_refl. eauto. }
  intros st' [H|H].
  - unfold op_move_up in H.
    destruct (current st) as [|[|c]]; simpl in H; try discriminate.
    destruct (compose_attach_swap st (S c)) as [s|] eqn:Es; [|discriminate].
    injection H as <-.
    apply compose_attach_swap_inv in Es as (q0 & q1 & h1 & _ & _ & _ & ->).
    unfold with_current; cbn [idx].
    rewrite !nth_error_replace_nth_neq by lia. reflexivity.
  - unfold op_move_down in H.
    destruct (S (current st) =? length (idx st)); [discriminate|].
    destruct (current st) as [|c]; simpl in H; try discriminate.
    destruct (compose_attach_swap st (S c)) as [s|] eqn:Es; [|discriminate].
    injection H as <-.
    apply compose_attach_swap_inv in Es as (q0 & q1 & h1 & _ & _ & _ & ->).
    unfold with_current; cbn [idx].
    rewrite !nth_error_replace_nth_neq by lia. reflexivity.
Qed.

Lemma chainb_chain f h m ids : chainb f h m ids = true -> chain h m ids.
Proof.
  revert f m; induction ids as [|y ids IH]; intros [|f] [x|]; simpl; try discriminate;
    try (intros; constructor).
  rewrite andb_true_iff, Nat.eqb_eq. intros [-> H]. constructor. eapply IH; eauto.
Qed.

Lemma replace_replace_swap (l : list nat) i q0 q1 :
  nth_error l i = Some q0 -> nth_error l (S i) = Some q1 ->
  replace_nth (replace_nth l i q1) (S i) q0 = swap_adj i l.
Proof.
  revert l; induction i as [|i IH]; intros [|x l] H0 H1; simpl in *; try discriminate.
  - destruct l as [|y l]; simpl in *; congruence.
  - f_equal. apply IH; auto.
Qed.

Lemma map_swap_adj {A B} (f : A -> B) i l : map f (swap_adj i l) = swap_adj i (map f l).
Proof.
  revert l; induction i as [|i IH]; intros l.
  - destruct l as [|x [|y l]]; reflexivity.
  - destruct l as [|x l]; simpl; [reflexivity|]. f_equal. apply IH.
Qed.

(** The (body, level) view of the entries after compose_attach_swap. *)
Lemma compose_attach_swap_entries st first st' :
  compose_attach_swap st first = Some st' -> entries st' = swap_adj first (entries st).
Proof.
  intros H. apply compose_attach_swap_inv in H as (q0 & q1 & h1 & E0 & E1 & _ & ->).
  unfold entries; cbn [idx aps].
  rewrite (replace_replace_swap _ _ _ _ E0 E1), map_swap_adj.
  f_equal. apply map_ext. intros p.
  unfold hupd.
  repeat match goal with |- context [?a =? ?b] => destruct (Nat.eqb_spec a b); subst end;
    reflexivity.
Qed.

(** ** C6: deleting the only attachment *)

(** C6.  When the flat array holds exactly one entry, deleting it is
    refused with "You may not delete the only attachment"; the state left
    behind is the same except that the entry's body is no longer tagged
    (the array still has its one entry, the tree is unchanged). *)
Theorem delete_sole_attachment_rejected (st : State) (q : nat) (Hone : idx st = [q]) :
  delete_attachment st 0 =
    Err "You may not delete the only attachment"
      (with_heap st (hupd (heap st) (ap_body (aps st q))
                      (set_tagged (heap st (ap_body (aps st q))) false))).
Proof. unfold delete_attachment. rewrite Hone. reflexivity. Qed.

Lemma delete_sole_attachment_rejected_witness :
  idx single_leaf = [0] /\
  delete_attachment single_leaf 0 =
    Err "You may not delete the only attachment"
      (with_heap single_leaf (hupd (heap single_leaf) 0 (set_tagged (heap single_leaf 0) false))).
Proof.
  split; [reflexivity|].
  exact (delete_sole_attachment_rejected single_leaf 0 eq_refl).
Defined.

(** ** C5: moves do not compare depths *)

(** C5, counterexample.  In scenario B after grouping b and c, entry 1 (the
    group, depth 0) and entry 2 (b, depth 1) are at different depths, and
    move-down at entry 1 exchanges them. *)
Lemma move_down_across_depths :
  level_at (aps scenario_b_grouped) (idx scenario_b_grouped) 1 = Some 0 /\
  level_at (aps scenario_b_grouped) (idx scenario_b_grouped) 2 = Some 1 /\
  exists st', op_move_down (with_current scenario_b_grouped 1) = Done st' /\
              entries st' = [(0, 0); (1, 1); (3, 0); (2, 1)].
Proof.
  split; [vm_compute; reflexivity|]. split; [vm_compute; reflexivity|].
  eexists. split; [vm_compute; reflexivity|]. vm_compute. reflexivity.
Qed.

(** C5, amended.  When the top-level chain from [e->body] is finite,
    move-up at a position [c >= 2] and move-down at a position [c >= 1]
    that is not the last exchange the two entries, whatever their depths:
    the (body, depth) view is the old one with the two positions swapped. *)
Theorem move_swaps_regardless_of_depth (st : State) (ids : list nat)
  (Hc : chain (heap st) (ebody st) ids) (Hl : length ids <= next_body st) :
  (2 <= current st -> current st < length (idx st) ->
     exists st', op_move_up st = Done st' /\
       entries st' = swap_adj (current st - 1) (entries st) /\ current st' = current st - 1) /\
  (1 <= current st -> S (current st) < length (idx st) ->
     exists st', op_move_down st = Done st' /\
       entries st' = swap_adj (current st) (entries st) /\ current st' = S (current st)).
Proof.
  split.
  - intros H2 Hlt.
    destruct (compose_attach_swap_total st (current st - 1) ids Hc Hl) as [s Hs]; [lia|].
    exists (with_current s (current st - 1)).
    unfold op_move_up.
    destruct (current st) as [|[|c]] eqn:Ec; try lia.
    cbn [Nat.eqb]. rewrite Hs.
    split; [reflexivity|]. split; [|reflexivity].
    apply compose_attach_swap_entries in Hs. exact Hs.
  - intros H1 Hlt.
    destruct (compose_attach_swap_total st (current st) ids Hc Hl) as [s Hs]; [lia|].
    exists (with_current s (S (current st))).
    unfold op_move_down.
    destruct (Nat.eqb_spec (S (current st)) (length (idx st))); [lia|].
    destruct (current st) as [|c] eqn:Ec; try lia.
    cbn [Nat.eqb]. rewrite Hs.
    split; [reflexivity|]. split; [|reflexivity].
    apply compose_attach_swap_entries in Hs. exact Hs.
Qed.

Lemma move_swaps_regardless_of_depth_witness :
  exists st', op_move_down (with_current scenario_b_grouped 1) = Done st' /\
    entries st' = swap_adj 1 (entries (with_current scenario_b_grouped 1)) /\
    current st' = 2.
Proof.
  destruct (move_swaps_regardless_of_depth (with_current scenario_b_grouped 1) [0; 3])
    as [_ H].
  - apply (chainb_chain 3). vm_compute. reflexivity.
  - vm_compute. repeat constructor.
  - apply H; vm_compute; repeat constructor.
Defined.

(** ** C4: the size estimate *)

(** C4, counterexample.  One base64 leaf whose classification counts one
    byte: the code estimates (4*1)/3 = 1 byte, the spec's ceil(4/3 * 1)
    is 2. *)
Lemma base64_estimate_rounds_down :
  fst (cum_attachs_size (fun _ => None) one_byte_base64) = 1%Z /\
  spec_encoded_size ENC_BASE64 (mkContent 0 0 1 0) = 2%Z.
Proof. split; vm_compute; reflexivity. Qed.

Lemma set_content_none b : bcontent b = None -> set_content b None = b.
Proof. destruct b; simpl; intros ->; reflexivity. Qed.

Section SizeProofs.

Variable gci : Body -> option Content.


Lemma cum_size_loop_sum h0 h a l s :
  cached gci h0 h -> (0 <= s < size_t_modulus)%Z ->
  fst (cum_size_loop gci h a l s)
  = ((s + sum_Z (map (fun q => entry_estimate gci (h0 (ap_body (a q)))) l)) mod size_t_modulus)%Z.
Proof.
  revert h s; induction l as [|q l IH]; intros h s Hc Hs; simpl.
  - rewrite Z.add_0_r, Z.mod_small; auto.
  - set (b := ap_body (a q)).
    assert (Hstep : exists h1, cached gci h0 h1 /\
      (match bcontent (h b) with
       | None => hupd h b (set_content (h b) (gci (h b)))
       | Some _ => h end) = h1 /\
      (match bcontent (h1 b) with
       | Some info => Some (encoded_size (bencoding (h1 b)) info)
       | None => None end)
      = match match bcontent (h0 b) with Some c => Some c | None => gci (h0 b) end with
        | Some info => Some (encoded_size (bencoding (h0 b)) info)
        | None => None end).
    { destruct (Hc b) as [Hb | [Hn Hb]].
      - destruct (bcontent (h b)) as [c|] eqn:Ec.
        + exists h. split; [exact Hc|]. split; [reflexivity|].
          rewrite Ec, <- Hb, Ec. reflexivity.
        + exists (hupd h b (set_content (h b) (gci (h b)))).
          split; [|split; [reflexivity|]].
          * intros y. rewrite hupd_same. destruct (Nat.eqb_spec y b) as [->|]; auto.
            right. rewrite <- Hb. auto.
          * rewrite hupd_eq. cbn [bcontent bencoding set_content].
            rewrite <- Hb, Ec. reflexivity.
      - destruct (gci (h0 b)) as [c|] eqn:Eg.
        + exists h. split; [exact Hc|].
          rewrite Hb. cbn [bcontent bencoding set_content]. rewrite ?Hn, ?Eg.
          split; reflexivity.
        + assert (Hb0 : h b = h0 b) by (rewrite Hb, ?Eg; apply set_content_none; exact Hn).
          exists (hupd h b (set_content (h b) (gci (h b)))).
          rewrite Hb0.
          split; [|split].
          * intros y. rewrite hupd_same. destruct (Nat.eqb_spec y b) as [->|]; auto.
          * rewrite Hn. reflexivity.
          * rewrite hupd_eq. cbn [bcontent bencoding set_content]. rewrite ?Hn, ?Eg.
            reflexivity. }
    destruct Hstep as (h1 & Hc1 & -> & He).
    unfold entry_estimate at 1.
    destruct (bcontent (h1 b)) as [info|] eqn:Ei;
      destruct (match bcontent (h0 b) with Some c => Some c | None => gci (h0 b) end)
        as [info'|]; try discriminate.
    + injection He as He. rewrite IH; auto.
      * rewrite He, Zplus_mod_idemp_l, Z.add_assoc. reflexivity.
      * apply Z.mod_pos_bound. reflexivity.
    + rewrite IH; auto.
Qed.

End SizeProofs.

(** C4, amended.  The estimate is the sum, kept modulo 2^64 as a size_t,
    over every entry of the flat array, of the estimate of the entry's
    body from its classification (cached, or computed and cached when
    missing): 3*(lobin+hibin)+ascii+crlf for quoted-printable, the integer
    quotient (4*total)/3 for base64 (rounded down), the total byte count
    lobin+hibin+ascii+crlf otherwise, and 0 for an entry with no
    classification. *)
Theorem cum_attachs_size_is_sum (gci : Body -> option Content) (st : State) :
  fst (cum_attachs_size gci st)
  = (sum_Z (map (fun q => entry_estimate gci (heap st (ap_body (aps st q)))) (idx st))
       mod size_t_modulus)%Z.
Proof.
  unfold cum_attachs_size. rewrite cum_size_loop_sum with (h0 := heap st).
  - reflexivity.
  - intros y. left. reflexivity.
  - split; [lia|]. unfold size_t_modulus. lia.
Qed.

(** ** C8: the pre-send check *)

Section CheckProofs.

Variable stat_mtime : string -> option Z.
Variable answer : nat -> QuadOption.
Variable gci : Body -> option Content.
Variable now : Z.



Lemma same_shape_refl h : same_shape h h.
Proof. intros y; auto. Qed.

Lemma same_shape_update h0 h b :
  same_shape h0 h -> same_shape h0 (hupd h b (mutt_update_encoding gci now (h b))).
Proof.
  intros H y. rewrite hupd_same. destruct (Nat.eqb_spec y b) as [->|]; auto.
  apply H.
Qed.

Lemma stat_body_shape stat h0 h y :
  same_shape h0 h -> stat_body stat (h y) = stat_body stat (h0 y).
Proof. intros H. unfold stat_body. destruct (H y) as [_ ->]. reflexivity. Qed.

Lemma type_shape h0 h y : same_shape h0 h -> btype (h y) = btype (h0 y).
Proof. intros H. apply H. Qed.

Variable a : ApHeap.
Variable h0 : BodyHeap.

Lemma check_loop_missing l : forall k i0 h q,
  same_shape h0 h -> nth_error l k = Some q -> leaf_missing stat_mtime (h0 (ap_body (a q))) ->
  exists j h', i0 <= j <= i0 + k /\
    (check_loop stat_mtime answer gci now h a l i0 = CheckMissing j h' \/
     check_loop stat_mtime answer gci now h a l i0 = CheckAborted j h').
Proof.
  induction l as [|q0 l IH]; intros k i0 h q Hs Hk [Hm Hst]; [destruct k; discriminate|].
  cbn [check_loop].
  rewrite (type_shape h0 h _ Hs), (stat_body_shape _ h0 h _ Hs).
  destruct k as [|k].
  - injection Hk as ->. rewrite Hm, Hst. exists i0, h. split; [lia|auto].
  - assert (IHk : forall i1 h1, same_shape h0 h1 -> exists j h',
              i1 <= j <= i1 + k /\
              (check_loop stat_mtime answer gci now h1 a l i1 = CheckMissing j h' \/
               check_loop stat_mtime answer gci now h1 a l i1 = CheckAborted j h'))
      by (intros; eapply IH; eauto; split; auto).
    destruct (is_multipart (btype (h0 (ap_body (a q0))))).
    + destruct (IHk (S i0) h Hs) as (j & h' & Hj & Hr). exists j, h'. split; [lia|exact Hr].
    + destruct (stat_body stat_mtime (h0 (ap_body (a q0)))) as [mt|].
      * destruct (bstamp (h (ap_body (a q0))) <? mt)%Z.
        -- destruct (answer i0).
           ++ exists i0, h. split; [lia|auto].
           ++ destruct (IHk (S i0) h Hs) as (j & h' & Hj & Hr). exists j, h'. split; [lia|exact Hr].
           ++ destruct (IHk (S i0) _ (same_shape_update h0 h (ap_body (a q0)) Hs))
                as (j & h' & Hj & Hr). exists j, h'. split; [lia|exact Hr].
           ++ destruct (IHk (S i0) h Hs) as (j & h' & Hj & Hr). exists j, h'. split; [lia|exact Hr].
           ++ destruct (IHk (S i0) h Hs) as (j & h' & Hj & Hr). exists j, h'. split; [lia|exact Hr].
        -- destruct (IHk (S i0) h Hs) as (j & h' & Hj & Hr). exists j, h'. split; [lia|exact Hr].
      * exists i0, h. split; [lia|auto].
Qed.

Lemma check_loop_missing_inv l : forall i0 h j h',
  same_shape h0 h ->
  check_loop stat_mtime answer gci now h a l i0 = CheckMissing j h' ->
  i0 <= j /\ exists q, nth_error l (j - i0) = Some q /\
                       leaf_missing stat_mtime (h0 (ap_body (a q))).
Proof.
  induction l as [|q0 l IH]; intros i0 h j h' Hs Hr; cbn [check_loop] in Hr; [discriminate|].
  rewrite (type_shape h0 h _ Hs), (stat_body_shape _ h0 h _ Hs) in Hr.
  assert (Hnext : forall h1, same_shape h0 h1 ->
            check_loop stat_mtime answer gci now h1 a l (S i0) = CheckMissing j h' ->
            i0 <= j /\ exists q, nth_error (q0 :: l) (j - i0) = Some q /\
                                 leaf_missing stat_mtime (h0 (ap_body (a q)))).
  { intros h1 Hs1 Hr1. destruct (IH _ _ _ _ Hs1 Hr1) as [Hj (q & Hq & Hmiss)].
    split; [lia|]. exists q. replace (j - i0) with (S (j - S i0)) by lia. auto. }
  destruct (is_multipart (btype (h0 (ap_body (a q0))))) eqn:Em; [exact (Hnext h Hs Hr)|].
  destruct (stat_body stat_mtime (h0 (ap_body (a q0)))) as [mt|] eqn:Est.
  - destruct (bstamp (h (ap_body (a q0))) <? mt)%Z; [|exact (Hnext h Hs Hr)].
    destruct (answer i0); try discriminate; try exact (Hnext h Hs Hr).
    eapply Hnext; [apply same_shape_update; exact Hs | exact Hr].
  - injection Hr as <- _. split; [lia|]. exists q0. rewrite Nat.sub_diag.
    split; [reflexivity|split; auto].
Qed.

Lemma check_loop_first_missing l : forall k i0 h q,
  same_shape h0 h -> nth_error l k = Some q -> leaf_missing stat_mtime (h0 (ap_body (a q))) ->
  (forall k' q', k' < k -> nth_error l k' = Some q' ->
     is_multipart (btype (h0 (ap_body (a q')))) = true \/
     (stat_body stat_mtime (h0 (ap_body (a q'))) <> None /\ answer (i0 + k') <> MUTT_ABORT)) ->
  exists h', check_loop stat_mtime answer gci now h a l i0 = CheckMissing (i0 + k) h'.
Proof.
  induction l as [|q0 l IH]; intros k i0 h q Hs Hk [Hm Hst] Hbefore;
    [destruct k; discriminate|].
  cbn [check_loop].
  rewrite (type_shape h0 h _ Hs), (stat_body_shape _ h0 h _ Hs).
  destruct k as [|k].
  - injection Hk as ->. rewrite Hm, Hst, Nat.add_0_r. eauto.
  - assert (IHk : forall h1, same_shape h0 h1 -> exists h',
              check_loop stat_mtime answer gci now h1 a l (S i0) = CheckMissing (i0 + S k) h').
    { intros h1 Hs1. rewrite <- Nat.add_succ_comm.
      eapply IH; eauto; [split; auto|].
      intros k' q' Hk' Hq'. rewrite Nat.add_succ_comm.
      apply (Hbefore (S k')); auto; lia. }
    destruct (Hbefore 0 q0 ltac:(lia) eq_refl) as [Hmp | [Hstat Hans]].
    + rewrite Hmp. apply IHk; exact Hs.
    + rewrite Nat.add_0_r in Hans.
      destruct (is_multipart (btype (h0 (ap_body (a q0))))); [apply IHk; exact Hs|].
      destruct (stat_body stat_mtime (h0 (ap_body (a q0)))) as [mt|]; [|congruence].
      destruct (bstamp (h (ap_body (a q0))) <? mt)%Z; [|apply IHk; exact Hs].
      destruct (answer i0); try congruence; apply IHk; try exact Hs.
      apply same_shape_update; exact Hs.
Qed.

Lemma check_loop_stat_indep (stat2 : string -> option Z) l : forall i0 h,
  same_shape h0 h ->
  (forall q, In q l -> is_multipart (btype (h0 (ap_body (a q)))) = false ->
     stat_body stat_mtime (h0 (ap_body (a q))) = stat_body stat2 (h0 (ap_body (a q)))) ->
  check_loop stat_mtime answer gci now h a l i0 = check_loop stat2 answer gci now h a l i0.
Proof.
  induction l as [|q0 l IH]; intros i0 h Hs Hagree; [reflexivity|].
  cbn [check_loop].
  rewrite !(type_shape h0 h _ Hs), !(stat_body_shape _ h0 h _ Hs).
  assert (Hl : forall q, In q l -> is_multipart (btype (h0 (ap_body (a q)))) = false ->
     stat_body stat_mtime (h0 (ap_body (a q))) = stat_body stat2 (h0 (ap_body (a q))))
    by (intros; apply Hagree; simpl; auto).
  destruct (is_multipart (btype (h0 (ap_body (a q0))))) eqn:Em; [now apply IH|].
  rewrite (Hagree q0 (or_introl eq_refl) Em).
  destruct (stat_body stat2 (h0 (ap_body (a q0)))) as [mt|]; [|reflexivity].
  destruct (bstamp (h (ap_body (a q0))) <? mt)%Z; [|now apply IH].
  destruct (answer i0); try reflexivity; try (now apply IH).
  apply IH; [apply same_shape_update; exact Hs | exact Hl].
Qed.

End CheckProofs.

(** C8.  If some non-multipart entry's file cannot be stat'ed, the check
    fails: it reports a missing file at or before that entry (or the user
    aborted at a "modified" prompt before it), and the message is neither
    sent nor postponed.  A reported missing entry is a non-multipart entry
    whose file cannot be stat'ed; when the entries before it are multipart
    or present and not aborted, the check names exactly that entry.
    Multipart entries are skipped: the result does not depend on whether
    their files can be stat'ed. *)
Theorem check_attachments_missing_file (stat : string -> option Z) (answer : nat -> QuadOption)
  (gci : Body -> option Content) (now : Z) (st : State) :
  (forall i q, nth_error (idx st) i = Some q ->
     leaf_missing stat (heap st (ap_body (aps st q))) ->
     (exists j h', j <= i /\
        (check_attachments stat answer gci now st = CheckMissing j h' \/
         check_attachments stat answer gci now st = CheckAborted j h')) /\
     exists st', op_finalize stat answer gci now st = StayInMenu st') /\
  (forall j h', check_attachments stat answer gci now st = CheckMissing j h' ->
     exists q, nth_error (idx st) j = Some q /\
               leaf_missing stat (heap st (ap_body (aps st q)))) /\
  (forall i q, nth_error (idx st) i = Some q ->
     leaf_missing stat (heap st (ap_body (aps st q))) ->
     (forall k q', k < i -> nth_error (idx st) k = Some q' ->
        is_multipart (btype (heap st (ap_body (aps st q')))) = true \/
        (stat_body stat (heap st (ap_body (aps st q'))) <> None /\ answer k <> MUTT_ABORT)) ->
     exists h', check_attachments stat answer gci now st = CheckMissing i h') /\
  (forall stat2 : string -> option Z,
     (forall q, In q (idx st) -> is_multipart (btype (heap st (ap_body (aps st q)))) = false ->
        stat_body stat (heap st (ap_body (aps st q))) = stat_body stat2 (heap st (ap_body (aps st q)))) ->
     check_attachments stat answer gci now st = check_attachments stat2 answer gci now st).
Proof.
  unfold check_attachments. split; [|split; [|split]].
  - intros i q Hq Hmiss.
    destruct (check_loop_missing stat answer gci now (aps st) (heap st) (idx st) i 0
                (heap st) q (same_shape_refl _) Hq Hmiss) as (j & h' & Hj & Hr).
    split; [exists j, h'; split; [lia|exact Hr]|].
    unfold op_finalize, check_attachments.
    destruct Hr as [-> | ->]; eauto.
  - intros j h' Hr.
    destruct (check_loop_missing_inv stat answer gci now (aps st) (heap st) (idx st) 0
                (heap st) j h' (same_shape_refl _) Hr) as [_ (q & Hq & Hmiss)].
    rewrite Nat.sub_0_r in Hq. eauto.
  - intros i q Hq Hmiss Hbefore.
    exact (check_loop_first_missing stat answer gci now (aps st) (heap st) (idx st) i 0
             (heap st) q (same_shape_refl _) Hq Hmiss Hbefore).
  - intros stat2 Hagree.
    exact (check_loop_stat_indep stat answer gci now (aps st) (heap st) stat2 (idx st) 0
             (heap st) (same_shape_refl _) Hagree).
Qed.

(** ** Grouping: the moved parts are untagged and inline *)


Lemma ui_wnext h p n x : untagged_inline h x -> untagged_inline (wnext h p n) x.
Proof.
  unfold untagged_inline, wnext, hupd. destruct (Nat.eqb_spec x p); subst; auto.
Qed.

Lemma ui_parts h g m x :
  untagged_inline h x -> untagged_inline (hupd h g (set_parts (h g) m)) x.
Proof.
  unfold untagged_inline, hupd. destruct (Nat.eqb_spec x g); subst; auto.
Qed.

Lemma ui_untag_self h b : untagged_inline (untag_inline h b) b.
Proof. unfold untagged_inline, untag_inline. rewrite hupd_eq. auto. Qed.

Lemma ui_untag h b x : untagged_inline h x -> untagged_inline (untag_inline h b) x.
Proof.
  intros H. destruct (Nat.eq_dec x b) as [->|Hne]; [apply ui_untag_self|].
  unfold untagged_inline, untag_inline. rewrite hupd_neq by exact Hne. exact H.
Qed.

Create HintDb ui.
#[local] Hint Resolve ui_wnext ui_parts ui_untag ui_untag_self : ui.

Ltac inv_bind :=
  repeat match goal with
  | H : obind (Some _) _ = Some _ |- _ => cbn [obind] in H
  | H : obind None _ = Some _ |- _ => discriminate H
  | H : obind ?o _ = Some _ |- _ =>
      let E := fresh "E" in destruct o eqn:E; cbn [obind] in H; try discriminate H
  | H : Some _ = Some _ |- _ => injection H as H
  end.

Lemma make_consecutive_ui i g a l h a' l' h' x :
  make_consecutive i g a l h = Some (a', l', h') ->
  untagged_inline h x -> untagged_inline h' x.
Proof.
  unfold make_consecutive. intros H Hx. inv_bind.
  destruct (_ <? _); inv_bind; subst; auto with ui.
Qed.

Lemma alts_step_ui G s b s' :
  alts_step G s b = Some s' ->
  (forall x, In x (g_moved s) -> untagged_inline (g_heap s) x) ->
  forall x, In x (g_moved s') -> untagged_inline (g_heap s') x.
Proof.
  unfold alts_step. intros H Hs.
  destruct (btagged (g_heap s b)); [|inv_bind; subst; exact Hs].
  match type of H with obind ?o _ = Some _ => destruct o as [s1|] eqn:E1 end;
    cbn [obind] in H; [|discriminate H].
  inv_bind. subst. cbn [g_heap g_moved].
  assert (Hs1 : forall x, In x (g_moved s1) -> untagged_inline (g_heap s1) x).
  { destruct (g_alts s) as [al|]; inv_bind; subst.
    - destruct p as [[a3 l3] h3]. inv_bind. subst. cbn [g_heap g_moved].
      intros x Hin; apply in_app_or in Hin.
      destruct (_ <? _); inv_bind; subst.
      + eapply make_consecutive_ui; [eassumption|].
        destruct Hin as [Hin|[<-|[]]]; auto with ui.
      + destruct Hin as [Hin|[<-|[]]]; auto with ui.
    - cbn [g_heap g_moved]. intros x Hin; apply in_app_or in Hin.
      destruct Hin as [Hin|[<-|[]]]; auto with ui. }
  exact Hs1.
Qed.

Lemma alts_loop_ui f G s s' :
  alts_loop f G s = Some s' ->
  (forall x, In x (g_moved s) -> untagged_inline (g_heap s) x) ->
  forall x, In x (g_moved s') -> untagged_inline (g_heap s') x.
Proof.
  revert s. induction f as [|f IH]; intros s H Hs; cbn in H; [discriminate|].
  destruct (g_bptr s) as [b|]; [|injection H as <-; exact Hs].
  inv_bind. eapply IH; [exact H|]. eapply alts_step_ui; eassumption.
Qed.

Lemma lingual_step_ui G s b s' :
  lingual_step G s b = Some s' ->
  (forall x, In x (m_moved s) -> untagged_inline (m_heap s) x) ->
  forall x, In x (m_moved s') -> untagged_inline (m_heap s') x.
Proof.
  unfold lingual_step. intros H Hs.
  destruct (btagged (m_heap s b)); [|inv_bind; subst; exact Hs].
  inv_bind. destruct p as [[h2 bptr'] al']. inv_bind. subst. cbn [m_heap m_moved].
  intros x Hin; apply in_app_or in Hin.
  destruct (m_alts s) as [al|]; inv_bind; subst;
    destruct Hin as [Hin|[<-|[]]]; auto with ui.
Qed.

Lemma lingual_loop_ui f G s s' :
  lingual_loop f G s = Some s' ->
  (forall x, In x (m_moved s) -> untagged_inline (m_heap s) x) ->
  forall x, In x (m_moved s') -> untagged_inline (m_heap s') x.
Proof.
  revert s. induction f as [|f IH]; intros s H Hs; cbn in H; [discriminate|].
  destruct (m_bptr s) as [b|]; [|injection H as <-; exact Hs].
  inv_bind. eapply IH; [exact H|]. eapply lingual_step_ui; eassumption.
Qed.

Lemma insert_idx_ui st p aidx st' x :
  insert_idx st p aidx = Some st' ->
  untagged_inline (heap st) x -> untagged_inline (heap st') x.
Proof.
  unfold insert_idx. intros H Hx. inv_bind. subst. cbn.
  assert (Hb : untagged_inline b x).
  { destruct (0 <? aidx); inv_bind; subst; auto.
    destruct (_ =? _); inv_bind; subst; auto with ui. }
  destruct (nth_error (idx st) aidx); auto.
  destruct (_ && _); auto with ui.
Qed.

Lemma update_idx_ui st p x :
  untagged_inline (heap st) x -> untagged_inline (heap (update_idx st p)) x.
Proof.
  unfold update_idx. cbn. destruct (last_opt (idx st)); auto with ui.
Qed.

(** C9.  Both grouping operations clear the tagged flag of every part
    they move into the new group and set its disposition to inline, even
    if it was an attachment before. *)
Theorem grouping_untags_moved_parts (st st' : State) (moved : list nat) (ans : QuadOption)
  (Hrun : group_alts_run st = (Done st', moved) \/
          group_lingual_run st ans = (Done st', moved)) :
  forall x, In x moved ->
    btagged (heap st' x) = false /\ bdisposition (heap st' x) = DISP_INLINE.
Proof.
  intros x Hin. change (untagged_inline (heap st') x).
  destruct Hrun as [H|H].
  - unfold group_alts_run in H. destruct (menu_tagged st <? 2); [discriminate H|].
    cbn [alloc_body fst snd] in H.
    match type of H with context [alts_loop ?f ?G ?s0] =>
      destruct (alts_loop f G s0) as [s|] eqn:El end; [|discriminate H].
    cbn [alloc_ap fst snd] in H. cbv zeta in H.
    match type of H with context [insert_idx ?a ?b ?c] =>
      destruct (insert_idx a b c) as [st5|] eqn:Ei end; [|discriminate H].
    destruct (body_at (aps st5) (idx st5) 0); [|discriminate H].
    injection H as <- <-. cbn [heap].
    eapply insert_idx_ui; [exact Ei|]. cbn.
    apply ui_wnext. eapply alts_loop_ui; [exact El| |exact Hin].
    cbn. intros ? [].
  - unfold group_lingual_run in H. destruct (menu_tagged st <? 2); [discriminate H|].
    destruct (count_tagged_lang _ _ _); [|discriminate H].
    destruct (_ && _); [discriminate H|].
    cbn [alloc_body fst snd] in H.
    match type of H with context [lingual_loop ?f ?G ?s0] =>
      destruct (lingual_loop f G s0) as [s|] eqn:El end; [|discriminate H].
    injection H as <- <-.
    apply update_idx_ui. cbn.
    apply ui_wnext. eapply lingual_loop_ui; [exact El| |exact Hin].
    cbn. intros ? [].
Qed.

Lemma grouping_untags_moved_parts_witness :
  group_alts_run scenario_b = (Done scenario_b_grouped, [1; 2]) /\
  (forall x, In x [1; 2] ->
     btagged (heap scenario_b_grouped x) = false /\
     bdisposition (heap scenario_b_grouped x) = DISP_INLINE).
Proof.
  assert (E : group_alts_run scenario_b = (Done scenario_b_grouped, [1; 2]))
    by (vm_compute; reflexivity).
  split; [exact E|].
  exact (grouping_untags_moved_parts scenario_b scenario_b_grouped [1; 2] MUTT_YES
           (or_introl E)).
Defined.

(** C10.  The grouping loops walk the top-level chain only: at [nested],
    the tagged part y (body 2), inside the earlier group, counts toward the
    three tagged entries but is neither moved into the new group nor
    untagged.  It is not left alone either.  Group-alternatives uses the
    count of top-level nodes as an index into the flat array, and the
    re-linking of "make grouped attachments consecutive" repoints x (body 1)
    from y to d, detaching y from the earlier group's chain of parts.
    Group-multilingual drops the entries of w and y (bodies 0 and 2) from
    the flat array, not those of d and f, which it moved. *)
Theorem grouping_nested_tagged_part :
  menu_tagged nested = 3 /\ btagged (heap nested 2) = true /\
  bnext (heap nested 1) = Some 2 /\
  (exists s, group_alts_run nested = (Done s, [3; 5]) /\
     btagged (heap s 2) = true /\ bnext (heap s 1) = Some 3) /\
  (exists s, group_lingual_run nested MUTT_YES = (Done s, [3; 5]) /\
     btagged (heap s 2) = true /\
     entries s = [(6, 0); (1, 1); (3, 0); (4, 0); (5, 0); (7, 0)]).
Proof.
  split; [vm_compute; reflexivity|].
  split; [vm_compute; reflexivity|].
  split; [vm_compute; reflexivity|].
  split.
  - exists (match fst (group_alts_run nested) with Done s => s | _ => nested end).
    vm_compute. repeat split; reflexivity.
  - exists (match fst (group_lingual_run nested MUTT_YES) with Done s => s | _ => nested end).
    vm_compute. repeat split; reflexivity.
Qed.

(** C2.  Group-alternatives on [nested] (tagged entries at positions 3, 4
    and 6): the new group (body 7) gets the entry at position 1, at depth 1,
    and its parts are d and f (bodies 3 and 5), but the entries after the
    group's are w and y (bodies 0 and 2) at depth 2; d and f stay at
    positions 5 and 7, at depth 0. *)
Theorem group_alts_nested_misplaced :
  entries nested = [(6, 0); (0, 1); (1, 1); (2, 1); (3, 0); (4, 0); (5, 0)] /\
  exists s, op_group_alts nested = Done s /\
    entries s = [(6, 0); (7, 1); (0, 2); (2, 2); (1, 1); (3, 0); (4, 0); (5, 0)] /\
    bparts (heap s 7) = Some 3 /\ bnext (heap s 3) = Some 5 /\ bnext (heap s 5) = None.
Proof.
  split; [vm_compute; reflexivity|].
  exists (match op_group_alts nested with Done s => s | _ => nested end).
  vm_compute. repeat split; reflexivity.
Qed.

(** ** Group-multilingual on a flat index *)

Lemma chain_app_inv h m l1 l2 : chain h m (l1 ++ l2) -> chain h (hd_error l2) l2.
Proof.
  revert m. induction l1 as [|x l1 IH]; intros m H; cbn in H.
  - destruct l2; inversion H; subst; cbn; [constructor|]. constructor. assumption.
  - inversion H; subst. eapply IH; eassumption.
Qed.

Lemma chain_det h m l1 l2 : chain h m l1 -> chain h m l2 -> l1 = l2.
Proof.
  intros H1. revert l2. induction H1; intros l2 H2; inversion H2; subst; auto.
  f_equal. auto.
Qed.

Lemma chain_nodup h m l : chain h m l -> NoDup l.
Proof.
  induction 1 as [|x l Hc IH]; constructor; auto.
  intros Hin. apply in_split in Hin as (l1 & l2 & ->).
  assert (H2 : chain h (Some x) (x :: l2)).
  { pose proof (chain_app_inv h _ l1 (x :: l2) Hc) as H. exact H. }
  inversion H2; subst.
  pose proof (chain_det h _ _ _ Hc H1) as E.
  apply (f_equal (@length nat)) in E. rewrite length_app in E. cbn in E. lia.
Qed.

Lemma chain_frame h h' m l :
  chain h m l -> (forall x, In x l -> bnext (h' x) = bnext (h x)) -> chain h' m l.
Proof.
  induction 1 as [|x l Hc IH]; intros Hs; constructor.
  rewrite Hs by (left; reflexivity). apply IH. intros y Hy. apply Hs. right. exact Hy.
Qed.

Lemma chain_snoc h h' m l al b :
  chain h m (l ++ [al]) ->
  (forall x, In x l -> bnext (h' x) = bnext (h x)) ->
  bnext (h' al) = Some b -> bnext (h' b) = None ->
  chain h' m (l ++ [al; b]).
Proof.
  revert m. induction l as [|x l IH]; intros m Hc Hs Hal Hb; cbn in *.
  - inversion Hc; subst. constructor. rewrite Hal. constructor. rewrite Hb. constructor.
  - inversion Hc; subst. constructor. rewrite Hs by (left; reflexivity).
    apply IH; auto.
Qed.

Lemma bnext_wnext_neq h p n x : x <> p -> bnext (wnext h p n x) = bnext (h x).
Proof. intros H. unfold wnext. rewrite hupd_neq by exact H. reflexivity. Qed.

Lemma bnext_wnext_eq h p n : bnext (wnext h p n p) = n.
Proof. unfold wnext. rewrite hupd_eq. reflexivity. Qed.

Lemma bnext_untag h b x : bnext (untag_inline h b x) = bnext (h x).
Proof.
  unfold untag_inline, hupd. destruct (Nat.eqb_spec x b); subst; reflexivity.
Qed.

Lemma bnext_parts h g m x : bnext (hupd h g (set_parts (h g) m) x) = bnext (h x).
Proof. unfold hupd. destruct (Nat.eqb_spec x g); subst; reflexivity. Qed.

Lemma map_remove_at {A} (f : nat -> A) l i :
  i < length l -> map f (remove_at i l) = firstn i (map f l) ++ skipn (S i) (map f l).
Proof.
  revert i. induction l as [|x l IH]; intros [|i] Hi; cbn in *; try lia; auto.
  rewrite IH by lia. reflexivity.
Qed.

Lemma count_tagged_lang_chain f h m ids :
  chain h m ids -> length ids < f ->
  count_tagged_lang f h m =
  Some (length (filter (fun x => btagged (h x) && has_language (h x)) ids)).
Proof.
  intros Hc. revert f. induction Hc as [|x l Hc IH]; intros [|f] Hf; cbn in *; try lia; auto.
  rewrite IH by lia. cbn.
  destruct (btagged (h x) && has_language (h x)); reflexivity.
Qed.

Lemma length_filter_map {A} (g : nat -> A) (p : A -> bool) l :
  length (filter (fun q => p (g q)) l) = length (filter p (map g l)).
Proof.
  induction l as [|x l IH]; cbn; auto. destruct (p (g x)); cbn; auto.
Qed.


Lemma nodup_app_disj (l1 l2 : list nat) x : NoDup (l1 ++ l2) -> In x l1 -> ~ In x l2.
Proof.
  induction l1 as [|y l1 IH]; intros Hnd Hin; [destruct Hin|].
  inversion Hnd as [|? ? Hy Hnd']; subst. destruct Hin as [->|Hin]; auto.
  intros Hx. apply Hy, in_or_app. right. exact Hx.
Qed.

Lemma firstn_mid {A} (p r : list A) y : firstn (length p) (p ++ y :: r) = p.
Proof. rewrite firstn_app, Nat.sub_diag, firstn_all. cbn. apply app_nil_r. Qed.

Lemma skipn_mid {A} (p r : list A) y : skipn (S (length p)) (p ++ y :: r) = r.
Proof. induction p as [|x p IH]; cbn; auto. Qed.

Lemma chain_head h m l : chain h m l -> m = hd_error l.
Proof. destruct 1; reflexivity. Qed.

Lemma bparts_wnext h p n x : bparts (wnext h p n x) = bparts (h x).
Proof. unfold wnext, hupd. destruct (Nat.eqb_spec x p); subst; reflexivity. Qed.

Lemma bparts_untag h b x : bparts (untag_inline h b x) = bparts (h x).
Proof. unfold untag_inline, hupd. destruct (Nat.eqb_spec x b); subst; reflexivity. Qed.

Lemma in_remove_at i l q : In q (remove_at i l) -> In q l.
Proof.
  revert i. induction l as [|x l IH]; intros [|i] H; cbn in *; auto.
  destruct H as [->|H]; [left; reflexivity|right; eapply IH; exact H].
Qed.

Lemma lingual_step_inv h0 a G na done b rest s :
  ling_inv h0 a G na done (b :: rest) s ->
  chain h0 (Some b) (b :: rest) ->
  NoDup (done ++ b :: rest) -> ~ In G (done ++ b :: rest) ->
  exists s', lingual_step G s b = Some s' /\ ling_inv h0 a G na (done ++ [b]) rest s'.
Proof.
  intros (Hna & Hb & Hr & Hm & Hi & Hmv & Ht & Hs & Halts) Hc Hnd HG.
  inversion Hc as [|? ? Hc']; subst.
  pose proof (chain_head _ _ _ Hc') as Hbn.
  assert (Hbd : ~ In b done).
  { intros Hin. apply NoDup_remove_2 in Hnd. apply Hnd, in_or_app. left. exact Hin. }
  assert (Hrd : forall x, In x rest -> ~ In x done /\ x <> b).
  { intros x Hx. apply NoDup_app_remove_l in Hnd as Hnd1.
    split.
    - intros Hd. apply (nodup_app_disj _ _ x Hnd Hd). right. exact Hx.
    - intros ->. inversion Hnd1; auto. }
  assert (HGb : G <> b) by (intros ->; apply HG, in_or_app; right; left; reflexivity).
  assert (HGd : ~ In G done) by (intros Hd; apply HG, in_or_app; left; exact Hd).
  assert (Hb0 : m_heap s b = h0 b) by (apply Hr; left; reflexivity).
  assert (Hlen : length (m_idx s) =
                 length (filter (fun x => negb (btagged (h0 x))) done) + S (length rest)).
  { apply (f_equal (@length _)) in Hm. rewrite !length_map, length_app in Hm.
    cbn in Hm. lia. }
  unfold lingual_step. rewrite Hb0.
  destruct (btagged (h0 b)) eqn:Htag.
  - assert (Hd : drop_entry (m_i s) (m_idx s) = Some (remove_at (m_i s) (m_idx s))).
    { unfold drop_entry. destruct (m_idx s); cbn in Hlen; [lia|].
      rewrite Hi. replace (_ <? _) with true by (symmetry; apply Nat.ltb_lt; cbn; lia).
      reflexivity. }
    assert (Hidx : map (fun q => (ap_body (a q), ap_level (a q))) (remove_at (m_i s) (m_idx s)) =
                   map (fun x => (x, 0))
                     (filter (fun x => negb (btagged (h0 x))) (done ++ [b]) ++ rest)).
    { rewrite map_remove_at by lia. rewrite Hm, Hi, map_app. cbn [map].
      rewrite <- (length_map (fun x => (x, 0))), firstn_mid, skipn_mid.
      rewrite filter_app. cbn [filter]. rewrite Htag. cbn [negb].
      rewrite app_nil_r, map_app. reflexivity. }
    assert (Hmv' : m_moved s ++ [b] = filter (fun x => btagged (h0 x)) (done ++ [b])).
    { rewrite Hmv, filter_app. cbn. rewrite Htag. reflexivity. }
    destruct (m_alts s) as [al|] eqn:Ea.
    + destruct Halts as (l & Hl & Hch).
      assert (Hal : In al done).
      { assert (Hin : In al (m_moved s)) by (rewrite Hl; apply in_or_app; right; left; reflexivity).
        rewrite Hmv in Hin. apply filter_In in Hin. tauto. }
      assert (Hab : al <> b) by (intros ->; contradiction).
      assert (HGa : G <> al) by (intros ->; contradiction).
      cbn [obind]. rewrite bnext_wnext_eq. cbn [obind]. rewrite Hd. cbn [obind].
      eexists; split; [reflexivity|].
      unfold ling_inv; cbn [m_bptr m_heap m_idx m_i m_moved m_alts].
      split; [intros q Hq; apply Hna; eapply in_remove_at; exact Hq|].
      split; [|split; [|split; [|split; [|split; [|split; [|split]]]]]].
      * rewrite bnext_wnext_neq by auto. rewrite bnext_untag, Hb0. exact Hbn.
      * intros x Hx. destruct (Hrd x Hx) as [Hxd Hxb].
        assert (x <> al) by (intros ->; contradiction).
        unfold wnext, untag_inline. rewrite !hupd_neq by auto. apply Hr. right. exact Hx.
      * exact Hidx.
      * rewrite Hi, filter_app. cbn. rewrite Htag. cbn. rewrite app_nil_r. reflexivity.
      * exact Hmv'.
      * unfold wnext, untag_inline. rewrite !hupd_neq by auto. exact Ht.
      * unfold wnext, untag_inline. rewrite !hupd_neq by auto. exact Hs.
      * exists (m_moved s). split; [reflexivity|].
        rewrite bparts_wnext, bparts_wnext, bparts_untag.
        rewrite Hl, <- app_assoc. cbn.
        rewrite Hl in Hch.
        assert (Hnl : ~ In al l).
        { apply chain_nodup in Hch. intros Hin. apply NoDup_remove_2 in Hch.
          apply Hch. rewrite app_nil_r. exact Hin. }
        apply (chain_snoc (m_heap s)); auto.
        -- intros x Hx. assert (x <> al) by (intros ->; contradiction).
           assert (x <> b).
           { intros ->. apply Hbd. rewrite Hmv in Hl.
             assert (Hin : In b (filter (fun x => btagged (h0 x)) done))
               by (rewrite Hl; apply in_or_app; left; exact Hx).
             apply filter_In in Hin. tauto. }
           rewrite !bnext_wnext_neq by auto. apply bnext_untag.
        -- rewrite bnext_wnext_neq by auto. apply bnext_wnext_eq.
        -- apply bnext_wnext_eq.
    + cbn [obind]. rewrite Hd. cbn [obind].
      eexists; split; [reflexivity|].
      unfold ling_inv; cbn [m_bptr m_heap m_idx m_i m_moved m_alts].
      split; [intros q Hq; apply Hna; eapply in_remove_at; exact Hq|].
      split; [|split; [|split; [|split; [|split; [|split; [|split]]]]]].
      * rewrite bnext_parts by auto. rewrite bnext_untag, Hb0. exact Hbn.
      * intros x Hx. destruct (Hrd x Hx) as [Hxd Hxb].
        assert (x <> G) by (intros ->; apply HG, in_or_app; right; right; exact Hx).
        unfold wnext, untag_inline. rewrite !hupd_neq by auto. apply Hr. right. exact Hx.
      * exact Hidx.
      * rewrite Hi, filter_app. cbn. rewrite Htag. cbn. rewrite app_nil_r. reflexivity.
      * exact Hmv'.
      * unfold wnext, untag_inline. rewrite hupd_neq, hupd_eq, hupd_neq by auto. exact Ht.
      * unfold wnext, untag_inline. rewrite hupd_neq, hupd_eq, hupd_neq by auto. exact Hs.
      * exists []. rewrite Halts. split; [reflexivity|].
        rewrite bparts_wnext, hupd_eq. cbn.
        constructor. rewrite bnext_wnext_eq. constructor.
  - eexists; split; [reflexivity|].
    unfold ling_inv; cbn [m_bptr m_heap m_idx m_i m_moved m_alts].
    split; [exact Hna|].
    split; [|split; [|split; [|split; [|split; [|split; [|split]]]]]].
    + exact Hbn.
    + intros x Hx. apply Hr. right. exact Hx.
    + rewrite Hm, filter_app. cbn. rewrite Htag. cbn. rewrite <- app_assoc. reflexivity.
    + rewrite Hi, filter_app, length_app. cbn. rewrite Htag. cbn. lia.
    + rewrite Hmv, filter_app. cbn. rewrite Htag. rewrite app_nil_r. reflexivity.
    + exact Ht.
    + exact Hs.
    + exact Halts.
Qed.

Lemma lingual_loop_inv h0 a G na f : forall done rest s,
  ling_inv h0 a G na done rest s -> chain h0 (hd_error rest) rest ->
  NoDup (done ++ rest) -> ~ In G (done ++ rest) -> length rest < f ->
  exists s', lingual_loop f G s = Some s' /\ ling_inv h0 a G na (done ++ rest) [] s'.
Proof.
  induction f as [|f IH]; intros done rest s Hinv Hc Hnd HG Hf; [lia|].
  destruct rest as [|b rest].
  - exists s. rewrite app_nil_r. split; [|exact Hinv].
    cbn [lingual_loop]. destruct Hinv as (_ & -> & _). reflexivity.
  - destruct (lingual_step_inv h0 a G na done b rest s Hinv Hc Hnd HG) as (s1 & Hs1 & Hinv1).
    cbn [lingual_loop]. destruct Hinv as (_ & -> & _). cbn [hd_error obind]. rewrite Hs1. cbn [obind].
    inversion Hc as [|? ? Hc']; subst.
    rewrite (chain_head _ _ _ Hc') in Hc'.
    replace (done ++ b :: rest) with ((done ++ [b]) ++ rest) in *
      by (rewrite <- app_assoc; reflexivity).
    apply IH; auto. cbn in Hf. lia.
Qed.

Lemma last_opt_map (g : nat -> nat) l : last_opt (map g l) = option_map g (last_opt l).
Proof.
  induction l as [|x l IH]; [reflexivity|].
  destruct l as [|y l]; [reflexivity|].
  change (last_opt (map g (x :: y :: l))) with (last_opt (map g (y :: l))).
  rewrite IH. reflexivity.
Qed.

Lemma last_opt_none l : last_opt l = None -> l = [].
Proof.
  induction l as [|x l IH]; [reflexivity|].
  destruct l as [|y l]; cbn; intros H; [discriminate|].
  specialize (IH H). discriminate.
Qed.

Lemma last_opt_in l q : last_opt l = Some q -> In q l.
Proof.
  induction l as [|x l IH]; [discriminate|].
  destruct l as [|y l]; cbn; intros H.
  - injection H as ->. left. reflexivity.
  - right. apply IH. exact H.
Qed.

Lemma btype_wnext h p n x : btype (wnext h p n x) = btype (h x).
Proof. unfold wnext, hupd. destruct (Nat.eqb_spec x p); subst; reflexivity. Qed.

Lemma bsubtype_wnext h p n x : bsubtype (wnext h p n x) = bsubtype (h x).
Proof. unfold wnext, hupd. destruct (Nat.eqb_spec x p); subst; reflexivity. Qed.

Lemma map_pairs_body (a : ApHeap) l ids :
  map (fun q => (ap_body (a q), ap_level (a q))) l = map (fun x => (x, 0)) ids ->
  map (fun q => ap_body (a q)) l = ids.
Proof.
  revert ids. induction l as [|q l IH]; intros [|y ids] H; cbn in H; try discriminate; auto.
  injection H as H1 _ H2. cbn. rewrite H1, (IH ids H2). reflexivity.
Qed.

Lemma map_pairs_level (a : ApHeap) l ids q :
  map (fun q => (ap_body (a q), ap_level (a q))) l = map (fun x => (x, 0)) ids ->
  In q l -> ap_level (a q) = 0.
Proof.
  intros H Hq. apply (in_map (fun q => (ap_body (a q), ap_level (a q)))) in Hq.
  rewrite H in Hq. apply in_map_iff in Hq as (x & Hx & _). injection Hx as _ <-. reflexivity.
Qed.

(** C3, amended.  On a flat index (the top-level chain [ids] from
    [e->body], each part listed once at depth 0), with at least two tagged
    entries and either every tagged part having a Content-Language or the
    user answering yes: group-multilingual makes the tagged top-level parts,
    in chain order, the chain of parts of a new multipart/multilingual group
    and untags them and sets them inline.  The flat index keeps the
    untagged entries in order, drops the tagged ones (the group's parts get
    no entries, unlike group-alternatives), and ends with one entry for the
    group at the depth of the last remaining entry (0).  The group has no
    next, and the last remaining entry's body is linked to it. *)
Theorem group_lingual_flat (st : State) (ids : list nat) (ans : QuadOption)
  (Hc : chain (heap st) (ebody st) ids)
  (He : entries st = map (fun x => (x, 0)) ids)
  (Hlt : forall x, In x ids -> x < next_body st)
  (Hap : forall q, In q (idx st) -> q < next_ap st)
  (Ht : 2 <= menu_tagged st)
  (Hans : ans = MUTT_YES \/
          forall x, In x ids -> btagged (heap st x) = true -> has_language (heap st x) = true) :
  let G := next_body st in
  let moved := filter (fun x => btagged (heap st x)) ids in
  let kept := filter (fun x => negb (btagged (heap st x))) ids in
  exists st', group_lingual_run st ans = (Done st', moved) /\
    btype (heap st' G) = TYPE_MULTIPART /\ bsubtype (heap st' G) = "multilingual" /\
    chain (heap st') (bparts (heap st' G)) moved /\
    (forall x, In x moved ->
       btagged (heap st' x) = false /\ bdisposition (heap st' x) = DISP_INLINE) /\
    entries st' = map (fun x => (x, 0)) kept ++ [(G, 0)] /\
    bnext (heap st' G) = None /\
    match last_opt kept with Some y => bnext (heap st' y) = Some G | None => True end.
Proof.
  intros G moved kept.
  set (h1 := hupd (heap st) G (group_body "multilingual")).
  assert (Hmapb : map (fun q => ap_body (aps st q)) (idx st) = ids).
  { unfold entries in He. clear -He. revert ids He.
    induction (idx st) as [|q l IH]; intros [|y ids] H; cbn in H; try discriminate; auto.
    injection H as H1 _ H2. cbn. rewrite H1, (IH ids H2). reflexivity. }
  pose proof (chain_nodup _ _ _ Hc) as Hnd.
  assert (HGn : ~ In G ids) by (intros HG; specialize (Hlt G HG); unfold G in Hlt; lia).
  assert (Hlen : length ids <= G).
  { rewrite <- (length_seq G 0). apply NoDup_incl_length; [exact Hnd|].
    intros x Hx. apply in_seq. specialize (Hlt x Hx). unfold G. lia. }
  assert (Hh1 : forall x, In x ids -> h1 x = heap st x).
  { intros x Hx. unfold h1. apply hupd_neq. intros ->. contradiction. }
  assert (Hmt : menu_tagged st = length moved).
  { unfold menu_tagged, moved.
    rewrite (length_filter_map (fun q => ap_body (aps st q)) (fun x => btagged (heap st x))).
    rewrite Hmapb. reflexivity. }
  assert (Hf1 : forall (p : bool -> bool),
             filter (fun x => p (btagged (h1 x))) ids = filter (fun x => p (btagged (heap st x))) ids).
  { intros p. apply filter_ext_in. intros x Hx. rewrite Hh1 by exact Hx. reflexivity. }
  unfold group_lingual_run.
  replace (menu_tagged st <? 2) with false by (symmetry; apply Nat.ltb_ge; lia).
  rewrite (count_tagged_lang_chain _ _ _ _ Hc) by (unfold fuel; fold G; lia).
  replace (negb (menu_tagged st =? _) && negb (is_yes ans)) with false.
  2:{ destruct Hans as [->|Hl]; [cbn; rewrite andb_false_r; reflexivity|].
      rewrite Hmt. unfold moved.
      rewrite (filter_ext_in (fun x => btagged (heap st x))
                 (fun x => btagged (heap st x) && has_language (heap st x))).
      - rewrite Nat.eqb_refl. reflexivity.
      - intros x Hx. destruct (btagged (heap st x)) eqn:E; [|reflexivity].
        rewrite Hl; auto. }
  cbn [alloc_body fst snd heap aps ebody idx current next_body next_ap fuel].
  fold G. fold h1.
  destruct (lingual_loop_inv h1 (aps st) G (next_ap st) (S (S G)) [] ids
              (mkLingSt h1 (idx st) (ebody st) 0 None [])) as (s & El & Hinv).
  { unfold ling_inv; cbn [m_bptr m_heap m_idx m_i m_moved m_alts].
    split; [exact Hap|]. split; [exact (chain_head _ _ _ Hc)|].
    split; [reflexivity|]. split; [exact He|]. repeat split. }
  { rewrite <- (chain_head _ _ _ Hc). apply (chain_frame (heap st)); [exact Hc|].
    intros x Hx. rewrite Hh1 by exact Hx. reflexivity. }
  { exact Hnd. }
  { exact HGn. }
  { cbn. lia. }
  unfold fuel; cbn [next_body].
  rewrite El. cbn [app] in Hinv.
  cbn [alloc_ap heap aps ebody idx current next_body next_ap].
  destruct Hinv as (Hna & _ & _ & Hm & _ & Hmv & HtG & HsG & Halts).
  rewrite app_nil_r, (Hf1 negb) in Hm. fold kept in Hm.
  rewrite (Hf1 (fun b => b)) in Hmv. fold moved in Hmv.
  assert (Hui : forall x, In x moved -> untagged_inline (m_heap s) x).
  { rewrite <- Hmv. eapply lingual_loop_ui; [exact El|]. intros x Hx. destruct Hx. }
  pose proof (map_pairs_body _ _ _ Hm) as Hmb.
  destruct (m_alts s) as [al|];
    [destruct Halts as (l & _ & Hch)
    |rewrite Hmv in Halts; rewrite Hmt, Halts in Ht; cbn in Ht; lia].
  rewrite Hmv in Hch.
  eexists; split; [rewrite Hmv; reflexivity|].
  assert (Hkept : forall x, In x kept -> In x ids /\ ~ In x moved).
  { intros x Hx. unfold kept in Hx. apply filter_In in Hx as [Hx Hn].
    split; [exact Hx|]. intros Hm'. unfold moved in Hm'. apply filter_In in Hm' as [_ Ht'].
    rewrite Ht' in Hn. discriminate. }
  assert (HmG : forall x, In x moved -> x <> G).
  { intros x Hx ->. unfold moved in Hx. apply filter_In in Hx. tauto. }
  assert (HGh : btype (m_heap s G) = TYPE_MULTIPART /\ bsubtype (m_heap s G) = "multilingual").
  { rewrite HtG, HsG. unfold h1. rewrite hupd_eq. split; reflexivity. }
  assert (Hidx : forall v w : AttachPtr,
             map (fun q => (ap_body (hupd (hupd (aps st) (next_ap st) v) (next_ap st) w q),
                            ap_level (hupd (hupd (aps st) (next_ap st) v) (next_ap st) w q)))
               (m_idx s) = map (fun x => (x, 0)) kept).
  { intros v w. rewrite <- Hm. apply map_ext_in. intros q Hq.
    rewrite !hupd_neq by (specialize (Hna q Hq); lia). reflexivity. }
  unfold update_idx; cbn [heap aps idx ebody current next_body next_ap with_current
                          update_compose_menu mutt_actx_add_attach].
  destruct (last_opt (m_idx s)) as [q|] eqn:Eq.
  - assert (Hq : In q (m_idx s)) by (apply last_opt_in; exact Eq).
    assert (Hqn : q <> next_ap st) by (specialize (Hna q Hq); lia).
    repeat rewrite (hupd_neq _ (next_ap st) q _ Hqn). rewrite !hupd_eq.
    cbn [ap_body ap_level set_level].
    rewrite (map_pairs_level _ _ _ q Hm Hq).
    assert (Hky : last_opt kept = Some (ap_body (aps st q)))
      by (rewrite <- Hmb, last_opt_map, Eq; reflexivity).
    destruct (Hkept _ (last_opt_in _ _ Hky)) as [Hyi Hym].
    assert (HyG : ap_body (aps st q) <> G) by (intros E; rewrite E in Hyi; contradiction).
    split; [|split; [|split; [|split; [|split; [|split]]]]].
    + rewrite btype_wnext, btype_wnext. apply HGh.
    + rewrite bsubtype_wnext, bsubtype_wnext. apply HGh.
    + rewrite !bparts_wnext. apply (chain_frame (m_heap s)); [exact Hch|].
      intros x Hx. rewrite !bnext_wnext_neq; auto. intros ->. contradiction.
    + intros x Hx. apply ui_wnext, ui_wnext, Hui. exact Hx.
    + unfold entries, update_compose_menu, with_current, mutt_actx_add_attach.
      cbn [aps idx]. rewrite map_app. cbn [map]. rewrite Hidx, !hupd_eq. reflexivity.
    + rewrite bnext_wnext_neq by auto. apply bnext_wnext_eq.
    + rewrite Hky. apply bnext_wnext_eq.
  - assert (Hk0 : kept = []).
    { rewrite <- Hmb, (last_opt_none _ Eq). reflexivity. }
    rewrite Hk0 in Hidx, Hkept |- *.
    split; [|split; [|split; [|split; [|split; [|split]]]]].
    + rewrite btype_wnext. apply HGh.
    + rewrite bsubtype_wnext. apply HGh.
    + rewrite !bparts_wnext. apply (chain_frame (m_heap s)); [exact Hch|].
      intros x Hx. rewrite !bnext_wnext_neq; auto.
    + intros x Hx. apply ui_wnext, Hui. exact Hx.
    + unfold entries, update_compose_menu, with_current, mutt_actx_add_attach.
      cbn [aps idx]. rewrite map_app. cbn [map]. rewrite Hidx, !hupd_eq. reflexivity.
    + apply bnext_wnext_eq.
    + exact I.
Qed.

(** C3.  Group-multilingual on scenario B (a, b, c with b and c tagged)
    leaves [a@0, group@0]: the parts b and c are the group's parts but get
    no entries at depth 1, where group-alternatives lists them as
    [a@0, group@0, b@1, c@1]. *)
Lemma group_lingual_drops_part_entries :
  entries scenario_b = [(0, 0); (1, 0); (2, 0)] /\
  entries scenario_b_grouped = [(0, 0); (3, 0); (1, 1); (2, 1)] /\
  exists s, op_group_lingual scenario_b MUTT_YES = Done s /\
    entries s = [(0, 0); (3, 0)] /\ bparts (heap s 3) = Some 1 /\
    bnext (heap s 1) = Some 2.
Proof.
  split; [vm_compute; reflexivity|].
  split; [vm_compute; reflexivity|].
  exists (match op_group_lingual scenario_b MUTT_YES with Done s => s | _ => scenario_b end).
  vm_compute. repeat split; reflexivity.
Qed.

Lemma group_lingual_flat_witness :
  exists st', group_lingual_run scenario_b MUTT_YES = (Done st', [1; 2]) /\
    entries st' = [(0, 0); (3, 0)] /\ bparts (heap st' 3) = Some 1.
Proof.
  assert (Hc : chain (heap scenario_b) (ebody scenario_b) [0; 1; 2])
    by (apply (chainb_chain 4); vm_compute; reflexivity).
  assert (He : entries scenario_b = map (fun x => (x, 0)) [0; 1; 2])
    by (vm_compute; reflexivity).
  assert (Hlt : forall x, In x [0; 1; 2] -> x < next_body scenario_b)
    by (cbn; intros x Hx; lia).
  assert (Hap : forall q, In q (idx scenario_b) -> q < next_ap scenario_b)
    by (cbn; intros x Hx; lia).
  assert (Ht : 2 <= menu_tagged scenario_b) by (vm_compute; lia).
  destruct (group_lingual_flat scenario_b [0; 1; 2] MUTT_YES Hc He Hlt Hap Ht (or_introl eq_refl))
    as (st' & E & _ & _ & Hch & _ & Hent & _).
  exists st'. split; [exact E|]. split; [exact Hent|].
  change (chain (heap st') (bparts (heap st' 3)) [1; 2]) in Hch.
  exact (chain_head _ _ _ Hch).
Defined.

(** ** Re-flattening and the flat index *)

Lemma gen_flat h m ids :
  chain h m ids -> (forall x, In x ids -> expands (h x) = false) ->
  forall f, length ids < f -> gen_attach_list f h m 0 = map (fun x => (x, 0)) ids.
Proof.
  induction 1 as [|x l Hc IH]; intros He [|f] Hf; cbn in *; try lia; auto.
  rewrite He by (left; reflexivity). cbn. f_equal.
  apply IH; [intros y Hy; apply He; right; exact Hy | lia].
Qed.

Lemma flat_consistent st ids : flat st ids -> consistent st.
Proof.
  intros (Hc & He & Hx). exists (S (length ids)). intros f Hf.
  rewrite He. apply gen_flat; auto.
Qed.

Lemma gen_no_expand f h m lv x l :
  In (x, l) (gen_attach_list f h m lv) -> expands (h x) = false.
Proof.
  revert m. induction f as [|f IH]; intros m Hin; cbn in Hin; [destruct Hin|].
  destruct m as [y|]; [|destruct Hin].
  apply in_app_or in Hin as [Hin|Hin]; [|eapply IH; exact Hin].
  destruct (expands (h y)) eqn:E; [eapply IH; exact Hin|].
  destruct Hin as [Hin|[]]. injection Hin as -> _. exact E.
Qed.

Lemma consistent_no_expand st x l :
  consistent st -> In (x, l) (entries st) -> expands (heap st x) = false.
Proof.
  intros (n & Hn) Hin. rewrite <- (Hn n (le_n n)) in Hin.
  eapply gen_no_expand. exact Hin.
Qed.

Lemma expands_shape b b' : shape_of b = shape_of b' -> expands b = expands b'.
Proof.
  unfold shape_of, expands, mutt_is_multipart_encrypted. intros H.
  injection H as H1 H2 H3 H4. rewrite H1, H2, H3, H4. reflexivity.
Qed.

Lemma shape_wnext h p n x : shape_of (wnext h p n x) = shape_of (h x).
Proof. unfold wnext, hupd. destruct (Nat.eqb_spec x p); subst; reflexivity. Qed.

Lemma shape_untag h b x : shape_of (untag_inline h b x) = shape_of (h x).
Proof. unfold untag_inline, hupd. destruct (Nat.eqb_spec x b); subst; reflexivity. Qed.

Lemma shape_make_consecutive i g a l h a' l' h' x :
  make_consecutive i g a l h = Some (a', l', h') -> shape_of (h' x) = shape_of (h x).
Proof.
  unfold make_consecutive. intros H. inv_bind.
  destruct (_ <? _); inv_bind; subst; apply shape_wnext.
Qed.

Lemma shape_insert_idx st p aidx st' x :
  insert_idx st p aidx = Some st' -> shape_of (heap st' x) = shape_of (heap st x).
Proof.
  unfold insert_idx. intros H. inv_bind. subst. cbn.
  assert (Hb : shape_of (b x) = shape_of (heap st x)).
  { destruct (0 <? aidx); inv_bind; subst; auto.
    destruct (_ =? _); inv_bind; subst; auto. apply shape_wnext. }
  destruct (nth_error (idx st) aidx); auto.
  destruct (_ && _); auto. rewrite shape_wnext. exact Hb.
Qed.

Lemma insert_idx_entry st p aidx st' :
  insert_idx st p aidx = Some st' -> aps st' = aps st /\ In p (idx st').
Proof.
  unfold insert_idx, mutt_actx_ins_attach. intros H. inv_bind.
  destruct (aidx <=? length (idx st)); [|discriminate].
  inv_bind. subst. cbn. split; [reflexivity|].
  apply in_or_app. right. left. reflexivity.
Qed.


Lemma group_shape_keep h h' G sub :
  shape_of (h' G) = shape_of (h G) -> group_shape h G sub -> group_shape h' G sub.
Proof.
  unfold shape_of, group_shape. intros H (H1 & H2 & H3).
  injection H as E1 E2 E3 _. rewrite E1, E2, E3. auto.
Qed.

Lemma group_shape_expands h G sub p :
  group_shape h G sub -> bparts (h G) = Some p -> expands (h G) = true.
Proof.
  unfold group_shape, expands, mutt_is_multipart_encrypted. intros (H1 & H2 & H3) Hp.
  rewrite H1, Hp, H3. cbn. rewrite andb_false_r. reflexivity.
Qed.


Lemma alts_step_group G s b s' :
  alts_step G s b = Some s' -> alts_group_inv G s -> alts_group_inv G s'.
Proof.
  unfold alts_step. intros H (Hg & Hp & Hm).
  destruct (btagged (g_heap s b)); [|inv_bind; subst; unfold alts_group_inv; auto].
  match type of H with obind ?o _ = Some _ => destruct o as [s1|] eqn:E1 end;
    cbn [obind] in H; [|discriminate H].
  inv_bind. subst. unfold alts_group_inv. cbn [g_heap g_moved g_alts].
  destruct (g_alts s) as [al|]; inv_bind; subst.
  - destruct p as [[a3 l3] h3]. inv_bind. subst. cbn [g_heap g_moved g_alts].
    assert (Hsh : shape_of (h3 G) = shape_of (g_heap s G)).
    { destruct (_ <? _); inv_bind; subst.
      - erewrite shape_make_consecutive by eassumption.
        rewrite !shape_wnext. apply shape_untag.
      - rewrite !shape_wnext. apply shape_untag. }
    split; [exact (group_shape_keep _ _ _ _ Hsh Hg)|].
    split; [|intros _; discriminate].
    intros _. destruct (Hp ltac:(discriminate)) as (p & Ep).
    exists p. unfold shape_of in Hsh. injection Hsh as _ _ _ Eparts. rewrite Eparts. exact Ep.
  - cbn [g_heap g_moved g_alts].
    assert (HsG : shape_of (hupd (untag_inline (g_heap s) b) G
                     (set_parts (untag_inline (g_heap s) b G) (Some b)) G) =
                  (btype (g_heap s G), bsubtype (g_heap s G), bprotocol (g_heap s G), Some b)).
    { rewrite hupd_eq. unfold untag_inline, hupd.
      destruct (Nat.eqb_spec G b); subst; reflexivity. }
    pose proof (shape_wnext (hupd (untag_inline (g_heap s) b) G
        (set_parts (untag_inline (g_heap s) b G) (Some b))) b None G) as Eb.
    rewrite HsG in Eb. unfold shape_of in Eb. injection Eb as E1 E2 E3 Eparts.
    split; [|split; [|intros _; discriminate]].
    + destruct Hg as (H1 & H2 & H3). unfold group_shape. rewrite E1, E2, E3. auto.
    + intros _. exists b. exact Eparts.
Qed.

Lemma alts_loop_group f G s s' :
  alts_loop f G s = Some s' -> alts_group_inv G s -> alts_group_inv G s'.
Proof.
  revert s. induction f as [|f IH]; intros s H Hs; cbn in H; [discriminate|].
  destruct (g_bptr s) as [b|]; [|injection H as <-; exact Hs].
  inv_bind. eapply IH; [exact H|]. eapply alts_step_group; eassumption.
Qed.


Lemma bfields_untag h b x :
  btype (untag_inline h b x) = btype (h x) /\ bsubtype (untag_inline h b x) = bsubtype (h x) /\
  bprotocol (untag_inline h b x) = bprotocol (h x).
Proof. unfold untag_inline, hupd. destruct (Nat.eqb_spec x b); subst; auto. Qed.

Lemma lingual_step_group G s b s' :
  lingual_step G s b = Some s' -> ling_group_inv G s -> ling_group_inv G s'.
Proof.
  unfold lingual_step. intros H (Hg & Hp & Hm).
  destruct (btagged (m_heap s b)); [|inv_bind; subst; unfold ling_group_inv; auto].
  destruct (m_alts s) as [al|] eqn:Ea; cbn [obind] in H; inv_bind; subst;
    unfold ling_group_inv; cbn [m_heap m_moved m_alts].
  all: try (match goal with H : obind ?o _ = Some _ |- _ =>
    destruct o eqn:Ed; cbn [obind] in H; [injection H as <- | discriminate H] end).
  all: cbn [m_heap m_moved m_alts].
  all: (split; [|split; [|intros _; discriminate]]).
  - apply (group_shape_keep (m_heap s)); [|exact Hg].
    rewrite !shape_wnext. apply shape_untag.
  - intros _. destruct (Hp ltac:(discriminate)) as (p & Ep). exists p.
    rewrite !bparts_wnext, bparts_untag. exact Ep.
  - pose proof (shape_wnext (hupd (untag_inline (m_heap s) b) G
      (set_parts (untag_inline (m_heap s) b G) (Some b))) b None G) as Eb.
    rewrite hupd_eq in Eb. unfold shape_of in Eb. cbn in Eb.
    injection Eb as E1' E2 E3 _.
    destruct Hg as (H1 & H2 & H3). destruct (bfields_untag (m_heap s) b G) as (U1 & U2 & U3).
    unfold group_shape. rewrite E1', E2, E3, U1, U2, U3. auto.
  - intros _. exists b. rewrite bparts_wnext, hupd_eq. reflexivity.
Qed.

Lemma lingual_loop_group f G s s' :
  lingual_loop f G s = Some s' -> ling_group_inv G s -> ling_group_inv G s'.
Proof.
  revert s. induction f as [|f IH]; intros s H Hs; cbn in H; [discriminate|].
  destruct (m_bptr s) as [b|]; [|injection H as <-; exact Hs].
  inv_bind. eapply IH; [exact H|]. eapply lingual_step_group; eassumption.
Qed.

Lemma group_alts_inconsistent st st' moved :
  group_alts_run st = (Done st', moved) -> moved <> [] -> ~ consistent st'.
Proof.
  intros H Hne Hcons.
  unfold group_alts_run in H. destruct (menu_tagged st <? 2); [discriminate H|].
  cbn [alloc_body fst snd] in H.
  match type of H with context [alts_loop ?f ?G ?s0] =>
    destruct (alts_loop f G s0) as [s|] eqn:El end; [|discriminate H].
  cbn [alloc_ap fst snd] in H. cbv zeta in H.
  match type of H with context [insert_idx ?a ?b ?c] =>
    destruct (insert_idx a b c) as [st5|] eqn:Ei end; [|discriminate H].
  destruct (body_at (aps st5) (idx st5) 0); [|discriminate H].
  injection H as <- <-.
  apply alts_loop_group in El as (Hg & Hp & Hm).
  2:{ unfold alts_group_inv, group_shape; cbn [g_heap g_alts g_moved heap alloc_body fst snd].
      rewrite hupd_eq. cbn.
      split; [repeat split|split; intros X; exfalso; apply X; reflexivity]. }
  destruct (Hp (Hm Hne)) as (p & Ep).
  pose proof (shape_insert_idx _ _ _ _ (next_body st) Ei) as Esh. cbn [heap] in Esh.
  rewrite shape_wnext in Esh.
  destruct (insert_idx_entry _ _ _ _ Ei) as [Ea Hin]. cbn [aps] in Ea.
  assert (Hexp : expands (heap st5 (next_body st)) = true).
  { apply (group_shape_expands _ _ "alternative" p).
    - exact (group_shape_keep _ _ _ _ Esh Hg).
    - unfold shape_of in Esh. injection Esh as _ _ _ E4. rewrite E4. exact Ep. }
  pose proof (in_map (fun q => (ap_body (aps st5 q), ap_level (aps st5 q))) _ _ Hin) as Hin2.
  cbv beta in Hin2.
  match type of Hin with In ?g _ => assert (Hb : ap_body (aps st5 g) = next_body st) end.
  { rewrite Ea. cbn. rewrite !hupd_eq. reflexivity. }
  rewrite Hb in Hin2.
  pose proof (consistent_no_expand _ _ _ Hcons Hin2) as Hf. cbn [heap] in Hf.
  rewrite Hexp in Hf. discriminate Hf.
Qed.

Lemma group_lingual_inconsistent st ans st' moved :
  group_lingual_run st ans = (Done st', moved) -> moved <> [] -> ~ consistent st'.
Proof.
  intros H Hne Hcons.
  unfold group_lingual_run in H. destruct (menu_tagged st <? 2); [discriminate H|].
  destruct (count_tagged_lang _ _ _); [|discriminate H].
  destruct (_ && _); [discriminate H|].
  cbn [alloc_body fst snd] in H.
  match type of H with context [lingual_loop ?f ?G ?s0] =>
    destruct (lingual_loop f G s0) as [s|] eqn:El end; [|discriminate H].
  injection H as <- <-.
  apply lingual_loop_group in El as (Hg & Hp & Hm).
  2:{ unfold ling_group_inv, group_shape; cbn [m_heap m_alts m_moved heap].
      rewrite hupd_eq. cbn.
      split; [repeat split|split; intros X; exfalso; apply X; reflexivity]. }
  destruct (Hp (Hm Hne)) as (p & Ep).
  assert (Hexp : expands (heap (update_idx (fst (alloc_ap (mkState (wnext (m_heap s)
             (next_body st) None) (aps st) (ebody st) (m_idx s) (current st)
             (S (next_body st)) (next_ap st)) (next_body st))) (next_ap st)) (next_body st))
           = true).
  { apply (group_shape_expands _ _ "multilingual" p).
    - apply (group_shape_keep (m_heap s)); [|exact Hg].
      unfold update_idx; cbn. destruct (last_opt (m_idx s)); rewrite !shape_wnext; reflexivity.
    - unfold update_idx; cbn. destruct (last_opt (m_idx s)); rewrite !bparts_wnext; exact Ep. }
  assert (Hin : exists l, In (next_body st, l)
            (entries (update_idx (fst (alloc_ap (mkState (wnext (m_heap s)
             (next_body st) None) (aps st) (ebody st) (m_idx s) (current st)
             (S (next_body st)) (next_ap st)) (next_body st))) (next_ap st)))).
  { unfold entries, update_idx, update_compose_menu, with_current, mutt_actx_add_attach.
    cbv zeta. cbn [alloc_ap fst aps idx]. rewrite map_app. eexists.
    apply in_or_app. right. left.
    rewrite !hupd_eq. cbn [set_level ap_body]. reflexivity. }
  destruct Hin as (l & Hin).
  pose proof (consistent_no_expand _ _ _ Hcons Hin) as Hf.
  pose proof (eq_trans (eq_sym Hexp) Hf) as Hc. discriminate Hc.
Qed.

(** ** Edits that keep a flat index flat *)

Lemma opt_eqb_true a b : opt_eqb a b = true <-> a = b.
Proof.
  destruct a as [x|], b as [y|]; cbn; split; intros H; try discriminate; auto.
  - apply Nat.eqb_eq in H. subst. reflexivity.
  - injection H as ->. apply Nat.eqb_refl.
Qed.

Lemma in_swap_adj {A} i (l : list A) x : In x (swap_adj i l) -> In x l.
Proof.
  revert l; induction i as [|i IH]; intros l H.
  - destruct l as [|a [|b l]]; cbn in *; tauto.
  - destruct l as [|a l]; cbn in *; [exact H|]. destruct H as [H|H]; auto.
Qed.

Lemma swap_adj_mid {A} (l1 : list A) p b0 b1 l2 :
  swap_adj (S (length l1)) (l1 ++ p :: b0 :: b1 :: l2) = l1 ++ p :: b1 :: b0 :: l2.
Proof. induction l1 as [|x l1 IH]; cbn; [reflexivity|]. f_equal. exact IH. Qed.

Lemma split_mid {A} i (l : list A) :
  S (S i) < length l ->
  exists l1 p b0 b1 l2, l = l1 ++ p :: b0 :: b1 :: l2 /\ length l1 = i.
Proof.
  revert l; induction i as [|i IH]; intros l H.
  - destruct l as [|p [|b0 [|b1 l2]]]; cbn in H; try lia.
    exists [], p, b0, b1, l2. auto.
  - destruct l as [|x l]; cbn in H; [lia|].
    destruct (IH l ltac:(lia)) as (l1 & p & b0 & b1 & l2 & -> & E).
    exists (x :: l1), p, b0, b1, l2. cbn. auto.
Qed.


Lemma swap_walk_chain h m l1 p b0 b1 l2 f :
  chain h m (l1 ++ p :: b0 :: b1 :: l2) -> length l1 < f ->
  swap_walk f h m b0 b1 = Some (swapped h p b0 b1).
Proof.
  intros Hc. pose proof (chain_nodup _ _ _ Hc) as Hnd. revert m f Hc Hnd.
  induction l1 as [|x l1 IH]; intros m [|f] Hc Hnd Hf; cbn in *; try lia.
  - inversion Hc as [|? ? Hc']; subst. pose proof (chain_head _ _ _ Hc') as Eb.
    cbn in Eb. rewrite Eb. cbn. rewrite Nat.eqb_refl. reflexivity.
  - inversion Hc as [|? ? Hc']; subst. cbn.
    assert (Hne : opt_eqb (bnext (h x)) (Some b0) = false).
    { apply Bool.not_true_iff_false. rewrite opt_eqb_true. intros E.
      pose proof (chain_head _ _ _ Hc') as Ehd. rewrite E in Ehd.
      inversion Hnd as [|? ? _ Hnd']; subst.
      destruct l1 as [|y l1]; cbn in Ehd; injection Ehd as Ey.
      - subst. inversion Hnd' as [|? ? Hp _]. apply Hp. left. reflexivity.
      - subst. apply (nodup_app_disj (y :: l1) (p :: y :: b1 :: l2) y); cbn; auto. }
    rewrite Hne. apply IH; auto. inversion Hnd; assumption. lia.
Qed.

Lemma swapped_chain h m l1 p b0 b1 l2 :
  chain h m (l1 ++ p :: b0 :: b1 :: l2) ->
  chain (swapped h p b0 b1) m (l1 ++ p :: b1 :: b0 :: l2).
Proof.
  intros Hc. pose proof (chain_nodup _ _ _ Hc) as Hnd. revert m Hc Hnd.
  unfold swapped.
  induction l1 as [|x l1 IH]; intros m Hc Hnd; cbn in *.
  - inversion Hc as [|? ? Hc0]; subst.
    inversion Hc0 as [|? ? Hc1 E0]; subst.
    inversion Hc1 as [|? ? Hc2 E1]; subst.
    inversion Hnd as [|? ? Np Hnd0]; subst. inversion Hnd0 as [|? ? N0 Hnd1]; subst.
    inversion Hnd1 as [|? ? N1 _]; subst.
    assert (p <> b0) by (intros ->; apply Np; left; reflexivity).
    assert (p <> b1) by (intros ->; apply Np; right; left; reflexivity).
    assert (b0 <> b1) by (intros ->; apply N0; left; reflexivity).
    constructor. rewrite bnext_wnext_eq.
    constructor. rewrite bnext_wnext_neq by auto. rewrite bnext_wnext_eq.
    constructor. rewrite !bnext_wnext_neq by auto. rewrite bnext_wnext_eq.
    apply (chain_frame h); [exact Hc2|].
    intros y Hy. rewrite !bnext_wnext_neq; auto.
    + intros ->. apply N0. right. exact Hy.
    + intros ->. apply N1. exact Hy.
    + intros ->. apply Np. right. right. exact Hy.
  - inversion Hc as [|? ? Hc']; subst. inversion Hnd as [|? ? Nx Hnd']; subst.
    constructor. rewrite !bnext_wnext_neq;
      [apply IH; assumption|intros ->; apply Nx; apply in_or_app; right; cbn; tauto ..].
Qed.

Lemma expands_swapped h p b0 b1 x : expands (swapped h p b0 b1 x) = expands (h x).
Proof. apply expands_shape. unfold swapped. rewrite !shape_wnext. reflexivity. Qed.

Lemma swap_keeps_flat st ids first s :
  flat st ids -> length ids <= next_body st -> 1 <= first ->
  compose_attach_swap st first = Some s -> flat s (swap_adj first ids).
Proof.
  intros (Hc & He & Hx) Hl H1 Hs.
  pose proof (compose_attach_swap_entries _ _ _ Hs) as Hent.
  apply compose_attach_swap_inv in Hs as (q0 & q1 & h1 & E0 & E1 & Hw & ->).
  pose proof (map_pairs_body _ _ _ He) as Hb.
  assert (Hlen : length (idx st) = length ids) by (rewrite <- Hb; symmetry; apply length_map).
  assert (Hsf : S first < length ids).
  { rewrite <- Hlen. apply nth_error_Some. rewrite E1. discriminate. }
  destruct first as [|i]; [lia|].
  destruct (split_mid i ids ltac:(lia)) as (l1 & p & b0 & b1 & l2 & Eids & El1).
  assert (B0 : ap_body (aps st q0) = b0).
  { assert (H := f_equal (fun l => nth_error l (S i)) Hb). cbn beta in H.
    rewrite nth_error_map, E0, Eids, <- El1 in H.
    rewrite nth_error_app2 in H by lia.
    replace (S (length l1) - length l1) with 1 in H by lia. cbn in H. injection H as ->. reflexivity. }
  assert (B1 : ap_body (aps st q1) = b1).
  { assert (H := f_equal (fun l => nth_error l (S (S i))) Hb). cbn beta in H.
    rewrite nth_error_map, E1, Eids, <- El1 in H.
    rewrite nth_error_app2 in H by lia.
    replace (S (S (length l1)) - length l1) with 2 in H by lia.
    cbn in H. injection H as ->. reflexivity. }
  rewrite B0, B1 in Hw. rewrite Eids in Hc.
  rewrite (swap_walk_chain _ _ _ _ _ _ _ _ Hc) in Hw by (unfold fuel; rewrite Eids in Hl;
    rewrite length_app in Hl; cbn in Hl; lia).
  injection Hw as <-.
  split; [|split].
  - cbn [heap ebody]. rewrite Eids, <- El1, swap_adj_mid. apply swapped_chain. exact Hc.
  - rewrite Hent, He, map_swap_adj. reflexivity.
  - intros x Hin. cbn [heap]. rewrite expands_swapped. apply Hx.
    exact (in_swap_adj _ _ _ Hin).
Qed.

Lemma flat_with_current s c l : flat (with_current s c) l <-> flat s l.
Proof. reflexivity. Qed.

Lemma move_keeps_flat st ids st' :
  flat st ids -> length ids <= next_body st ->
  (op_move_up st = Done st' -> flat st' (swap_adj (current st - 1) ids)) /\
  (op_move_down st = Done st' -> flat st' (swap_adj (current st) ids)).
Proof.
  intros Hf Hl. split; intros H.
  - unfold op_move_up in H.
    destruct (current st) as [|[|c]] eqn:Ec; cbn in H; try discriminate.
    destruct (compose_attach_swap st (S c)) as [s|] eqn:Es; [|discriminate].
    injection H as <-. apply flat_with_current.
    eapply swap_keeps_flat; eauto. lia.
  - unfold op_move_down in H.
    destruct (S (current st) =? length (idx st)); [discriminate|].
    destruct (current st) as [|c] eqn:Ec; cbn in H; try discriminate.
    destruct (compose_attach_swap st (S c)) as [s|] eqn:Es; [|discriminate].
    injection H as <-. apply flat_with_current.
    eapply swap_keeps_flat; eauto. lia.
Qed.

Lemma chain_next_tail h m l x z :
  chain h m l -> In x l -> bnext (h x) = Some z -> In z (tl l).
Proof.
  induction 1 as [|a l Hc IH]; intros Hx Hn; [destruct Hx|].
  cbn. destruct Hx as [<-|Hx].
  - rewrite Hn in Hc. inversion Hc; subst. left. reflexivity.
  - apply IH in Hx; [|exact Hn]. destruct l; [destruct Hx|]. right. exact Hx.
Qed.

Lemma chain_in_app h m l y r x :
  chain h m (l ++ y :: r) -> In x l -> exists z, bnext (h x) = Some z /\ In z (l ++ [y]).
Proof.
  revert m. induction l as [|a l IH]; intros m Hc Hx; [destruct Hx|].
  inversion Hc as [|? ? Hc']; subst. destruct Hx as [<-|Hx].
  - pose proof (chain_head _ _ _ Hc') as E.
    destruct l as [|b l]; cbn in E; eexists; (split; [exact E|]); cbn; auto.
  - destruct (IH _ Hc' Hx) as (z & Ez & Hz). exists z. split; [exact Ez|]. right. exact Hz.
Qed.

Lemma chain_unlink h m l p t r :
  chain h m (l ++ p :: t :: r) -> chain (wnext h p (bnext (h t))) m (l ++ p :: r).
Proof.
  intros Hc. pose proof (chain_nodup _ _ _ Hc) as Hnd. revert m Hc Hnd.
  induction l as [|x l IH]; intros m Hc Hnd; cbn in *.
  - inversion Hc as [|? ? Hc0]; subst. inversion Hc0 as [|? ? Hc1]; subst.
    inversion Hnd as [|? ? Np Hnd0]; subst. inversion Hnd0 as [|? ? Nt _]; subst.
    constructor. rewrite bnext_wnext_eq. apply (chain_frame h); [exact Hc1|].
    intros y Hy. apply bnext_wnext_neq. intros ->. apply Np. right. exact Hy.
  - inversion Hc as [|? ? Hc']; subst. inversion Hnd as [|? ? Nx Hnd']; subst.
    constructor. rewrite bnext_wnext_neq; [apply IH; assumption|].
    intros ->. apply Nx. apply in_or_app. right. left. reflexivity.
Qed.

Lemma unlink_pred_hit h a k t l1 p l2 :
  map (fun q => ap_body (a q)) k = l1 ++ p :: l2 ->
  (forall x, In x l1 -> bnext (h x) <> Some t) -> bnext (h p) = Some t ->
  unlink_pred h a k t = wnext h p (bnext (h t)).
Proof.
  revert k. induction l1 as [|x l1 IH]; intros [|q k] Hm Hs Hp; cbn in Hm; try discriminate;
    injection Hm as Eq Hm; cbn; rewrite Eq.
  - rewrite Hp. cbn. rewrite Nat.eqb_refl. reflexivity.
  - destruct (opt_eqb (bnext (h x)) (Some t)) eqn:E.
    + apply opt_eqb_true in E. exfalso. apply (Hs x); [left; reflexivity|exact E].
    + apply IH; auto. intros y Hy. apply Hs. right. exact Hy.
Qed.

Lemma unlink_pred_miss h a k t :
  (forall x, In x (map (fun q => ap_body (a q)) k) -> bnext (h x) <> Some t) ->
  unlink_pred h a k t = h.
Proof.
  induction k as [|q k IH]; intros Hs; cbn; [reflexivity|].
  destruct (opt_eqb (bnext (h (ap_body (a q)))) (Some t)) eqn:E.
  - apply opt_eqb_true in E. exfalso. apply (Hs (ap_body (a q))); [left; reflexivity|exact E].
  - apply IH. intros y Hy. apply Hs. right. exact Hy.
Qed.

Lemma map_remove_at_nat (g : nat -> nat) i l : map g (remove_at i l) = remove_at i (map g l).
Proof. revert i; induction l as [|x l IH]; intros [|i]; cbn; f_equal; auto. Qed.

Lemma remove_at_mid (l r : list nat) t : remove_at (length l) (l ++ t :: r) = l ++ r.
Proof. induction l as [|x l IH]; cbn; f_equal; auto. Qed.

Lemma shape_unlink_pred h a k t x : shape_of (unlink_pred h a k t x) = shape_of (h x).
Proof.
  induction k as [|q k IH]; cbn; [reflexivity|].
  destruct (opt_eqb _ _); [apply shape_wnext|exact IH].
Qed.

(** delete_attachment on a flat index: the entry at [c] leaves the chain
    and the array; the rest stays a chain of leaves in array order. *)
Lemma delete_attachment_flat st ids c s :
  flat st ids -> delete_attachment st c = Done s ->
  chain (heap s) (hd_error (remove_at c ids)) (remove_at c ids) /\
  entries s = map (fun x => (x, 0)) (remove_at c ids) /\
  (forall x, In x (remove_at c ids) -> expands (heap s x) = false) /\
  ebody s = ebody st /\ idx s = remove_at c (idx st) /\ aps s = aps st /\
  current s = current st /\ (c <> 0 -> hd_error (remove_at c ids) = ebody st).
Proof.
  intros (Hc & He & Hx) H. unfold delete_attachment in H.
  destruct (nth_error (idx st) c) as [q|] eqn:Eq; [|discriminate].
  destruct ((c =? 0) && (length (idx st) =? 1)); [discriminate|].
  injection H as <-.
  pose proof (map_pairs_body _ _ _ He) as Hb.
  assert (Ht : nth_error ids c = Some (ap_body (aps st q))).
  { rewrite <- Hb, nth_error_map, Eq. reflexivity. }
  remember (ap_body (aps st q)) as t eqn:Et.
  destruct (nth_error_split _ _ Ht) as (l & r & Eids & El).
  pose proof (chain_nodup _ _ _ Hc) as Hnd.
  assert (Hrm : remove_at c ids = l ++ r) by (rewrite Eids, <- El; apply remove_at_mid).
  assert (Hnt : forall x, In x (remove_at c ids) -> x <> t).
  { intros x Hin ->. rewrite Hrm in Hin. rewrite Eids in Hnd.
    exact (NoDup_remove_2 _ _ _ Hnd Hin). }
  set (h1 := unlink_pred (heap st) (aps st) (idx st) t).
  assert (Hh1 : chain h1 (hd_error (remove_at c ids)) (remove_at c ids) /\
                (c <> 0 -> hd_error (remove_at c ids) = ebody st)).
  { rewrite Hrm. destruct l as [|x0 l0] using rev_ind.
    - cbn in El. subst c. cbn [app] in Eids |- *. rewrite Eids in Hb, Hc, Hnd.
      assert (E : h1 = heap st).
      { apply unlink_pred_miss. rewrite Hb. intros x Hin Hn.
        apply (chain_next_tail _ _ _ _ _ Hc Hin) in Hn. cbn in Hn.
        inversion Hnd as [|? ? Nt _]. exact (Nt Hn). }
      rewrite E. inversion Hc as [|? ? Hc']; subst.
      rewrite (chain_head _ _ _ Hc') in Hc'. split; [exact Hc'|]. intros F; exfalso; apply F; reflexivity.
      (* the next goal *)
    - rewrite <- app_assoc in Eids. cbn [app] in Eids. rewrite Eids in Hc, Hnd.
      assert (Hp : bnext (heap st x0) = Some t).
      { pose proof (chain_app_inv _ _ _ _ Hc) as H1. cbn in H1.
        inversion H1 as [|? ? H2]; subst. exact (chain_head _ _ _ H2). }
      assert (E : h1 = wnext (heap st) x0 (bnext (heap st t))).
      { apply (unlink_pred_hit _ _ _ _ l0 x0 (t :: r)); [rewrite Hb; exact Eids| |exact Hp].
        intros x Hin Hn.
        destruct (chain_in_app _ _ _ _ _ _ Hc Hin) as (z & Ez & Hz).
        rewrite Hn in Ez. injection Ez as <-.
        apply (nodup_app_disj (l0 ++ [x0]) (t :: r) t); [rewrite <- app_assoc; exact Hnd|exact Hz|left; reflexivity]. }
      rewrite E, <- app_assoc. cbn [app].
      pose proof (chain_unlink _ _ _ _ _ _ Hc) as Hc2.
      rewrite (chain_head _ _ _ Hc) in Hc2 |- *.
      destruct l0; cbn in *; split; auto. }
  destruct Hh1 as [Hch Hhd].
  assert (Hh3 : forall x, x <> t ->
    (if bemail (wnext h1 t None t) then wnext h1 t None
     else hupd (wnext h1 t None) t (set_parts (wnext h1 t None t) None)) x = h1 x).
  { intros x Hxt. destruct (bemail _); unfold wnext; rewrite ?hupd_neq by exact Hxt; reflexivity. }
  cbn [heap entries ebody idx aps current].
  split; [|split; [|split]]; try (split; [reflexivity|]); auto.
  - apply (chain_frame h1); [exact Hch|]. intros x Hin. rewrite Hh3 by exact (Hnt x Hin). reflexivity.
  - unfold entries. cbn [aps idx].
    assert (Hci : c < length (idx st)) by (apply nth_error_Some; rewrite Eq; discriminate).
    assert (Hcl : c < length ids) by (rewrite <- Hb, length_map; exact Hci).
    rewrite map_remove_at by exact Hci. rewrite (map_remove_at _ ids c Hcl).
    fold (entries st). rewrite He. reflexivity.
  - intros x Hin. rewrite Hh3 by exact (Hnt x Hin). unfold h1.
    rewrite (expands_shape _ (heap st x)) by apply shape_unlink_pred.
    apply Hx. rewrite Hrm in Hin. rewrite Eids. apply in_app_or in Hin as [Hin|Hin];
      apply in_or_app; [left|right; right]; exact Hin.
Qed.

Lemma hd_error_map_nth (g : nat -> nat) l : hd_error (map g l) = option_map g (nth_error l 0).
Proof. destruct l; reflexivity. Qed.

Lemma flat_unowned st ids b :
  flat st ids -> flat (with_heap st (hupd (heap st) b (set_unlink (heap st b) false))) ids.
Proof.
  intros (Hc & He & Hx). split; [|split]; [|exact He|].
  - apply (chain_frame (heap st)); [exact Hc|]. intros x _. cbn [heap with_heap].
    unfold hupd. destruct (Nat.eqb_spec x b); subst; reflexivity.
  - intros x Hin. cbn [heap with_heap]. rewrite <- (Hx x Hin). apply expands_shape.
    unfold hupd. destruct (Nat.eqb_spec x b); subst; reflexivity.
Qed.

Lemma delete_keeps_flat st ids st' :
  flat st ids -> op_delete st = Done st' -> flat st' (remove_at (current st) ids).
Proof.
  intros Hf H. unfold op_delete in H.
  destruct (length (idx st) =? 0); [discriminate|].
  destruct (nth_error (idx st) (current st)) as [q|] eqn:Eq; [|discriminate].
  match type of H with context [delete_attachment ?s1 (current ?s1)] =>
    assert (Hf1 : flat s1 ids /\ current s1 = current st /\ ebody s1 = ebody st);
    [|destruct (delete_attachment s1 (current s1)) as [s| |] eqn:Ed; try discriminate;
      destruct Hf1 as (Hf1 & Ec1 & Eb1);
      destruct (delete_attachment_flat _ _ _ _ Hf1 Ed)
        as (Hch & Hent & Hx & Eb & Ei & Ea & Ec & Hhd)] end.
  { destruct (ap_unowned (aps st q)); [|auto]. split; [apply flat_unowned; exact Hf|auto]. }
  rewrite Ec1 in *. cbv zeta in H.
  destruct (current (update_compose_menu s) =? 0) eqn:Ecm.
  - destruct (body_at _ _ 0) as [b0|] eqn:Eb0; [|discriminate]. injection H as <-.
    assert (Hh : hd_error (remove_at (current st) ids) = Some b0).
    { rewrite <- Eb0. unfold update_compose_menu, with_current, body_at. cbn [aps idx].
      destruct Hf1 as (_ & He1 & _). pose proof (map_pairs_body _ _ _ He1) as Hb.
      rewrite Ei, Ea, <- Hb, <- map_remove_at_nat.
      rewrite hd_error_map_nth. reflexivity. }
    split; [|split]; cbn [heap ebody]; [rewrite <- Hh; exact Hch| |exact Hx].
    exact Hent.
  - injection H as <-. split; [|split]; [|exact Hent|exact Hx].
    change (chain (heap s) (ebody s) (remove_at (current st) ids)).
    rewrite Eb, <- Hhd; [exact Hch|].
    intros E. rewrite E in Ec. unfold update_compose_menu, with_current in Ecm.
    cbn [current] in Ecm. rewrite Ec in Ecm.
    destruct (length (idx s)) as [|m]; discriminate Ecm.
Qed.

Lemma last_opt_snoc (l : list nat) a : last_opt (l ++ [a]) = Some a.
Proof.
  induction l as [|x l IH]; [reflexivity|].
  cbn [app]. destruct (l ++ [a]) as [|y l'] eqn:E; [destruct l; discriminate|].
  exact IH.
Qed.

Lemma attach_keeps_flat st ids b :
  flat st ids -> ids <> [] ->
  (forall x, In x ids -> x < next_body st) -> (forall q, In q (idx st) -> q < next_ap st) ->
  bnext b = None -> expands b = false ->
  flat (op_attach st b) (ids ++ [next_body st]).
Proof.
  intros (Hc & He & Hx) Hne Hlt Hap Hbn Hbx.
  pose proof (map_pairs_body _ _ _ He) as Hb.
  destruct (exists_last Hne) as (l & al & Eids).
  destruct (last_opt (idx st)) as [q|] eqn:Eq.
  2:{ apply last_opt_none in Eq. rewrite Eq in Hb. cbn in Hb. subst ids. destruct l; discriminate. }
  assert (Hqa : ap_body (aps st q) = al).
  { pose proof (last_opt_map (fun q => ap_body (aps st q)) (idx st)) as E.
    rewrite Hb, Eq, Eids, last_opt_snoc in E. injection E as ->. reflexivity. }
  assert (Hq : q < next_ap st) by (apply Hap, last_opt_in; exact Eq).
  assert (Hal : al < next_body st) by (apply Hlt; rewrite Eids; apply in_or_app; right; left; reflexivity).
  assert (Hlv : ap_level (aps st q) = 0) by (eapply map_pairs_level; [exact He|apply last_opt_in; exact Eq]).
  pose proof (chain_nodup _ _ _ Hc) as Hnd.
  unfold op_attach, update_idx. cbn [alloc_body alloc_ap fst snd idx aps heap ebody next_ap next_body]. cbv zeta.
  rewrite Eq, !(hupd_neq _ (next_ap st) q) by lia. rewrite Hlv, !hupd_eq. cbn [set_level ap_body]. rewrite Hqa.
  split; [|split].
  - cbn. rewrite Eids in Hc |- *. rewrite <- app_assoc. cbn [app].
    apply (chain_snoc (heap st)); [exact Hc| | |].
    + intros x Hin. assert (x <> al).
      { intros ->. rewrite Eids in Hnd. apply (NoDup_remove_2 l [] al Hnd).
        rewrite app_nil_r. exact Hin. }
      rewrite bnext_wnext_neq by exact H. rewrite hupd_neq; [reflexivity|].
      assert (x < next_body st) by (apply Hlt; rewrite Eids; apply in_or_app; left; exact Hin). lia.
    + apply bnext_wnext_eq.
    + rewrite bnext_wnext_neq by lia. rewrite hupd_eq. exact Hbn.
  - unfold entries, mutt_actx_add_attach. cbn. rewrite !map_app. f_equal.
    + rewrite <- He. apply map_ext_in. intros q' Hin.
      assert (q' < next_ap st) by (apply Hap; exact Hin).
      rewrite !hupd_neq by lia. reflexivity.
    + cbn. rewrite !hupd_eq. reflexivity.
  - intros x Hin. cbn. apply in_app_or in Hin as [Hin|[<-|[]]].
    + assert (x < next_body st) by (apply Hlt; exact Hin).
      rewrite (expands_shape _ (heap st x)); [apply Hx; exact Hin|].
      rewrite shape_wnext, hupd_neq by lia. reflexivity.
    + rewrite (expands_shape _ b); [exact Hbx|]. rewrite shape_wnext, hupd_eq. reflexivity.
Qed.

Lemma chain_insert h h' m l a nb r :
  chain h m (l ++ a :: r) ->
  (forall x, In x l -> bnext (h' x) = bnext (h x)) ->
  bnext (h' a) = Some nb -> bnext (h' nb) = hd_error r ->
  (forall x, In x r -> bnext (h' x) = bnext (h x)) ->
  chain h' m (l ++ a :: nb :: r).
Proof.
  revert m. induction l as [|x l IH]; intros m Hc Hl Ha Hnb Hr; cbn in *.
  - inversion Hc as [|? ? Hc']; subst. constructor. rewrite Ha. constructor. rewrite Hnb.
    rewrite (chain_head _ _ _ Hc') in Hc'. apply (chain_frame h); [exact Hc'|exact Hr].
  - inversion Hc as [|? ? Hc']; subst. constructor. rewrite Hl by (left; reflexivity).
    apply IH; auto.
Qed.

Lemma insert_keeps_flat st ids p aidx st' :
  flat st ids -> ap_level (aps st p) = 0 -> ~ In (ap_body (aps st p)) ids ->
  bnext (heap st (ap_body (aps st p))) = None ->
  expands (heap st (ap_body (aps st p))) = false ->
  1 <= aidx -> insert_idx st p aidx = Some st' ->
  flat st' (firstn aidx ids ++ ap_body (aps st p) :: skipn aidx ids).
Proof.
  intros (Hc & He & Hx) Hlp Hni Hnn Hnx H1 H.
  set (nb := ap_body (aps st p)) in *.
  pose proof (map_pairs_body _ _ _ He) as Hb.
  pose proof (chain_nodup _ _ _ Hc) as Hnd.
  assert (Hlen : length (idx st) = length ids) by (rewrite <- Hb; symmetry; apply length_map).
  unfold insert_idx, mutt_actx_ins_attach in H. rewrite Hlp in H.
  destruct aidx as [|i]; [lia|].
  replace (0 <? S i) with true in H by (symmetry; apply Nat.ltb_lt; lia).
  replace (S i - 1) with i in H by lia.
  destruct (nth_error (idx st) i) as [q|] eqn:Eq; cbn [obind] in H; [|discriminate].
  assert (Hlq : ap_level (aps st q) = 0) by
    (eapply map_pairs_level; [exact He|eapply nth_error_In; exact Eq]).
  rewrite Hlq, Nat.eqb_refl in H. cbn [obind] in H.
  destruct (S i <=? length (idx st)) eqn:Ele; cbn [obind] in H; [|discriminate].
  apply Nat.leb_le in Ele. injection H as <-.
  change (match idx st with [] => None | _ :: l' => nth_error l' i end)
    with (nth_error (idx st) (S i)).
  change (match idx st with [] => [] | x :: l => x :: firstn i l end)
    with (firstn (S i) (idx st)).
  change (match idx st with [] => [] | _ :: l => skipn i l end)
    with (skipn (S i) (idx st)).
  assert (Ea : nth_error ids i = Some (ap_body (aps st q))) by (rewrite <- Hb, nth_error_map, Eq; reflexivity).
  set (a := ap_body (aps st q)) in *.
  assert (Hsplit : firstn (S i) ids = firstn i ids ++ [a]).
  { rewrite <- (firstn_skipn i ids) at 1. rewrite firstn_app.
    rewrite firstn_firstn, Nat.min_r by lia.
    assert (Hfl : length (firstn i ids) = i) by (rewrite length_firstn; lia).
    rewrite Hfl. replace (S i - i) with 1 by lia. f_equal.
    pose proof (nth_error_split _ _ Ea) as (l1 & l2 & E1 & E2).
    rewrite E1, skipn_app, <- E2, Nat.sub_diag, skipn_all. reflexivity. }
  set (L := firstn i ids) in *. set (R := skipn (S i) ids).
  assert (Eids : ids = L ++ a :: R).
  { rewrite <- (firstn_skipn (S i) ids) at 1. rewrite Hsplit, <- app_assoc. reflexivity. }
  assert (Hna : ~ In a L /\ ~ In a R).
  { rewrite Eids in Hnd. split; intros Hin; apply (NoDup_remove_2 _ _ _ Hnd);
      apply in_or_app; auto. }
  assert (Hnb : nb <> a) by (intros E; apply Hni; rewrite Eids, E; apply in_or_app; right; left; reflexivity).
  assert (HnL : forall x, In x L -> x <> a /\ x <> nb).
  { intros x Hin. split; intros ->; [exact (proj1 Hna Hin)|apply Hni; rewrite Eids; apply in_or_app; left; exact Hin]. }
  assert (HnR : forall x, In x R -> x <> a /\ x <> nb).
  { intros x Hin. split; intros ->; [exact (proj2 Hna Hin)|apply Hni; rewrite Eids; apply in_or_app; right; right; exact Hin]. }
  rewrite Hsplit, <- app_assoc. cbn [app]. fold R.
  set (h1 := wnext (heap st) a (Some nb)).
  match goal with |- flat (with_current (update_compose_menu (mkState ?h2 _ _ _ _ _ _)) _) _ =>
    assert (Hh2 : forall x, x <> nb -> bnext (h2 x) = bnext (h1 x) /\ shape_of (h2 x) = shape_of (h1 x));
    [|assert (Hh2n : bnext (h2 nb) = hd_error R /\ shape_of (h2 nb) = shape_of (h1 nb))] end.
  { intros x Hx0. destruct (nth_error (idx st) (S i));
      [match goal with |- context [if ?c then _ else _] => destruct c end|]; auto.
    rewrite bnext_wnext_neq by exact Hx0. split; [reflexivity|apply shape_wnext]. }
  { assert (ER : nth_error ids (S i) = hd_error R).
    { unfold R. rewrite <- (firstn_skipn (S i) ids) at 1. rewrite nth_error_app2.
      - rewrite length_firstn, Nat.min_l by lia. rewrite Nat.sub_diag. destruct (skipn _ _); reflexivity.
      - rewrite length_firstn. lia. }
    rewrite <- Hb, nth_error_map in ER.
    destruct (nth_error (idx st) (S i)) as [q'|] eqn:Eq'.
    - assert (S i < length (idx st)) by (apply nth_error_Some; rewrite Eq'; discriminate).
      assert (Hl' : ap_level (aps st q') = 0) by
        (eapply map_pairs_level; [exact He|eapply nth_error_In; exact Eq']).
      rewrite Hl'. replace (S i <? length (idx st)) with true by (symmetry; apply Nat.ltb_lt; lia).
      cbn. rewrite bnext_wnext_eq, shape_wnext. split; [exact ER|reflexivity].
    - cbn in ER. unfold h1. rewrite bnext_wnext_neq by exact Hnb. rewrite Hnn. auto. }
  split; [|split].
  - cbn [heap ebody update_compose_menu with_current]. rewrite Eids in Hc.
    apply (chain_insert (heap st) _ _ L a nb R Hc).
    + intros x Hin. destruct (HnL x Hin) as [N1 N2]. rewrite (proj1 (Hh2 x N2)).
      apply bnext_wnext_neq. exact N1.
    + rewrite (proj1 (Hh2 a (not_eq_sym Hnb))). apply bnext_wnext_eq.
    + exact (proj1 Hh2n).
    + intros x Hin. destruct (HnR x Hin) as [N1 N2]. rewrite (proj1 (Hh2 x N2)).
      apply bnext_wnext_neq. exact N1.
  - unfold entries. cbn [aps idx update_compose_menu with_current].
    rewrite map_app. cbn [map]. rewrite Hlp.
    rewrite <- firstn_map, <- skipn_map. fold (entries st).
    rewrite He, firstn_map, skipn_map, Hsplit. fold R.
    rewrite !map_app, <- app_assoc. reflexivity.
  - intros x Hin. cbn [heap update_compose_menu with_current].
    destruct (Nat.eq_dec x nb) as [->|Hx0].
    + rewrite (expands_shape _ (heap st nb)); [exact Hnx|].
      rewrite (proj2 Hh2n). apply shape_wnext.
    + rewrite (expands_shape _ (heap st x)).
      * apply Hx. rewrite Eids. apply in_app_or in Hin as [Hin|[E|[E|Hin]]].
        -- apply in_or_app. left. exact Hin.
        -- apply in_or_app. right. left. exact E.
        -- congruence.
        -- apply in_or_app. right. right. exact Hin.
      * rewrite (proj2 (Hh2 x Hx0)). apply shape_wnext.
Qed.

(** ** C1: re-flattening after the edits *)

(** C1, counterexample.  Scenario B is a flat index; grouping b and c as
    alternatives succeeds, and the array then lists the group (body 3) at
    depth 0 and b, c at depth 1, while re-flattening the tree lists a, b,
    c at depth 0 and never the group: the two disagree however much fuel
    the walk gets. *)
Lemma group_alts_breaks_reflattening :
  flat scenario_b [0; 1; 2] /\
  op_group_alts scenario_b = Done scenario_b_grouped /\
  entries scenario_b_grouped = [(0, 0); (3, 0); (1, 1); (2, 1)] /\
  (forall f, 5 <= f ->
     gen_attach_list f (heap scenario_b_grouped) (ebody scenario_b_grouped) 0
     = [(0, 0); (1, 0); (2, 0)]) /\
  ~ consistent scenario_b_grouped.
Proof.
  assert (Hg : forall f, 5 <= f ->
     gen_attach_list f (heap scenario_b_grouped) (ebody scenario_b_grouped) 0
     = [(0, 0); (1, 0); (2, 0)]).
  { intros f Hf. destruct f as [|[|[|[|[|f]]]]]; try lia. vm_compute. reflexivity. }
  split; [|split; [|split; [|split]]].
  - split; [|split].
    + apply (chainb_chain 4). vm_compute. reflexivity.
    + vm_compute. reflexivity.
    + intros x [<-|[<-|[<-|[]]]]; vm_compute; reflexivity.
  - vm_compute. reflexivity.
  - vm_compute. reflexivity.
  - exact Hg.
  - intros (n & H). specialize (H (n + 5) ltac:(lia)).
    rewrite Hg in H by lia. vm_compute in H. discriminate H.
Qed.

Lemma attach_empty_inconsistent st b :
  flat st [] -> ~ consistent (op_attach st b).
Proof.
  intros (Hc & He & _) (n & Hn). specialize (Hn (S n) ltac:(lia)).
  inversion Hc as [Eb|]. unfold entries in He.
  destruct (idx st) as [|q l] eqn:Ei; [|discriminate].
  unfold op_attach, update_idx, entries in Hn.
  cbn [alloc_body alloc_ap fst snd idx aps heap ebody next_ap next_body update_compose_menu
       with_current last_opt mutt_actx_add_attach] in Hn.
  rewrite Ei, <- Eb in Hn. cbn in Hn. discriminate.
Qed.

(** C1, amended.  Re-flattening agrees with the array on a flat index (a
    finite top-level chain of non-expanding bodies listed in chain order
    at depth 0), and the following edits keep an index flat: append of a
    fresh body with no next that does not expand (after the last entry)
    to a non-empty index, insert of such a body at a position [aidx >= 1]
    with its entry at depth 0, delete, and move-up / move-down (the chain
    and the array are permuted alike).  Append to the empty index does
    not: the array lists the new body but [e->body] stays NULL, so tree
    and array disagree.  A grouping (alternatives or multilingual) that
    moves at least one part always leaves the tree and the array in
    disagreement: the array lists the new multipart group, which
    re-flattening never lists. *)
Theorem flat_edits_keep_reflattening :
  (forall st ids, flat st ids -> consistent st) /\
  (forall st ids b, flat st ids -> ids <> [] ->
     (forall x, In x ids -> x < next_body st) -> (forall q, In q (idx st) -> q < next_ap st) ->
     bnext b = None -> expands b = false ->
     flat (op_attach st b) (ids ++ [next_body st])) /\
  (forall st b, flat st [] -> ~ consistent (op_attach st b)) /\
  (forall st ids p aidx st', flat st ids -> ap_level (aps st p) = 0 ->
     ~ In (ap_body (aps st p)) ids -> bnext (heap st (ap_body (aps st p))) = None ->
     expands (heap st (ap_body (aps st p))) = false -> 1 <= aidx ->
     insert_idx st p aidx = Some st' ->
     flat st' (firstn aidx ids ++ ap_body (aps st p) :: skipn aidx ids)) /\
  (forall st ids st', flat st ids -> op_delete st = Done st' ->
     flat st' (remove_at (current st) ids)) /\
  (forall st ids st', flat st ids -> length ids <= next_body st ->
     (op_move_up st = Done st' -> flat st' (swap_adj (current st - 1) ids)) /\
     (op_move_down st = Done st' -> flat st' (swap_adj (current st) ids))) /\
  (forall st ans st' moved,
     group_alts_run st = (Done st', moved) \/ group_lingual_run st ans = (Done st', moved) ->
     moved <> [] -> ~ consistent st').
Proof.
  split; [exact flat_consistent|].
  split; [exact attach_keeps_flat|].
  split; [exact attach_empty_inconsistent|].
  split; [exact insert_keeps_flat|].
  split; [exact delete_keeps_flat|].
  split; [exact move_keeps_flat|].
  intros st ans st' moved [H|H] Hne.
  - exact (group_alts_inconsistent _ _ _ H Hne).
  - exact (group_lingual_inconsistent _ _ _ _ H Hne).
Qed.

(** * Properties of the envelope, the header padding and the menu *)

Section P.
Variable w : string -> Z.
Variable fm : Z -> string.

Lemma calc_try_ge k cols a r wl :
  match calc_try k cols a r wl with inl (r', _) => (r <= r')%Z | inr r' => (r <= r')%Z end.
Proof.
  revert r wl; induction k as [|k IH]; intros r wl; cbn [calc_try]; [lia|].
  destruct (a >=? wl)%Z; [destruct (wl =? cols)%Z|]; try lia.
  specialize (IH (r + 1)%Z cols). destruct (calc_try k cols a (r + 1) cols) as [[? ?]|?]; lia.
Qed.

Lemma calc_loop_ge cols l r wl : (r <= calc_address_loop w cols l r wl)%Z.
Proof.
  revert r wl; induction l as [|s l IH]; intros r wl; cbn [calc_address_loop]; [lia|].
  pose proof (calc_try_ge 2 cols (w s + (if has_next l then 2 else 0))%Z r wl) as H.
  destruct (calc_try 2 cols _ r wl) as [[r' w']|r']; [specialize (IH r' w')|]; lia.
Qed.

Lemma addr_try_keep_max k full mhw m a s sep st :
  a_lines st = m ->
  match addr_try fm k full mhw m a s sep st with inl s' | inr s' => a_lines s' = m end.
Proof.
  revert st; induction k as [|k IH]; intros st Hm; cbn [addr_try]; [exact Hm|].
  unfold a_emit, a_set_try; cbn [a_lines a_width a_count a_more a_more_len a_row a_ev].
  rewrite Hm, Z.eqb_refl.
  destruct (a >=? _)%Z; [reflexivity|]. destruct (a <? _)%Z; reflexivity.
Qed.

Lemma addr_loop_keep_max full mhw m l st :
  a_lines st = m -> a_lines (addr_loop w fm full mhw m l st) = m.
Proof.
  revert st; induction l as [|s l IH]; intros st Hm; cbn [addr_loop]; [exact Hm|].
  match goal with |- context [addr_try fm 2 ?f ?h ?mm ?aa ?ss ?sp ?st1] =>
    pose proof (addr_try_keep_max 2 f h mm aa ss sp st1 Hm) as H;
    destruct (addr_try fm 2 f h mm aa ss sp st1) end; [apply IH|]; exact H.
Qed.

Lemma addr_loop_lines full mhw m l st :
  (1 <= a_lines st <= m)%Z ->
  a_lines (addr_loop w fm full mhw m l st)
  = Z.min m (calc_address_loop w full l (a_lines st) (a_width st)).
Proof.
  revert st; induction l as [|s l IH]; intros st Hr; cbn [addr_loop calc_address_loop].
  { lia. }
  set (a := (w s + (if has_next l then 2 else 0))%Z).
  set (sep := if has_next l then ", " else "").
  destruct (Z.eq_dec (a_lines st) m) as [Em|Nm].
  { (* already on the last line *)
    match goal with |- context [addr_try fm 2 ?f ?h ?mm ?aa ?ss ?sp ?st1] =>
      pose proof (addr_try_keep_max 2 f h mm aa ss sp st1 Em) as H;
      destruct (addr_try fm 2 f h mm aa ss sp st1) end;
    [rewrite (addr_loop_keep_max _ _ _ _ _ H)|rewrite H];
    pose proof (calc_try_ge 2 full a (a_lines st) (a_width st)) as G;
    destruct (calc_try 2 full a (a_lines st) (a_width st)) as [[r' w']|r'];
    try (pose proof (calc_loop_ge full l r' w')); lia. }
  cbn [addr_try calc_try]; unfold a_emit, a_set_try;
  cbn [a_lines a_width a_count a_more a_more_len a_row a_ev].
  replace (a_lines st =? m)%Z with false by (symmetry; apply Z.eqb_neq; exact Nm).
  rewrite andb_false_r, Z.sub_0_r.
  destruct (Z.geb_spec a (a_width st)) as [Ge|Lt].
  - destruct (Z.eqb_spec (a_width st) full) as [Ef|Nf]; [cbn; lia|].
    destruct (Z.eq_dec (a_lines st + 1) m) as [Em1|Nm1].
    + rewrite Em1, Z.eqb_refl.
      repeat match goal with
      | |- context [if (?x <? ?y)%Z then _ else _] => destruct (Z.ltb_spec x y)
      | |- context [if (?x >=? ?y)%Z then _ else _] => destruct (Z.geb_spec x y)
      | |- context [if (?x =? ?y)%Z then _ else _] => destruct (Z.eqb_spec x y)
      end; cbn -[addr_loop calc_address_loop]; try lia;
      first [ rewrite (addr_loop_keep_max _ _ _ _ _ (eq_refl : a_lines (mkAddrSt m _ _ _ _ _ _) = m))
            | idtac ];
      try (pose proof (calc_loop_ge full l m (full - a))); lia.
    + replace (a_lines st + 1 =? m)%Z with false by (symmetry; apply Z.eqb_neq; exact Nm1).
      rewrite andb_false_r, Z.sub_0_r, Z.eqb_refl.
      destruct (Z.geb_spec a full) as [Ge2|Lt2].
      * cbn. lia.
      * destruct (Z.ltb_spec a full); [|lia].
        rewrite IH; cbn [a_lines a_width]; [reflexivity|lia].
  - destruct (Z.ltb_spec a (a_width st)); [|lia].
    rewrite IH; cbn [a_lines a_width]; [reflexivity|lia].
Qed.

Lemma draw_lines_count f al cols mhw row m :
  (1 <= m)%Z ->
  fst (draw_envelope_addr w fm f al cols mhw row m)
  = Z.min m (calc_address_loop w (cols - mhw) al 1 (cols - mhw)).
Proof.
  intro Hm. unfold draw_envelope_addr. cbn [fst].
  rewrite addr_loop_lines; cbn [a_lines a_width]; [reflexivity|lia].
Qed.

(** X2.  draw_envelope_addr uses min(max_lines, n) rows, where n is the row count of the greedy layout that calc_address computes on the same addresses and width. *)
Lemma draw_lines f al cols mhw row m :
  (1 <= m)%Z ->
  fst (draw_envelope_addr w fm f al cols mhw row m)
  = Z.min m (calc_address_loop w (cols - mhw) al 1 (cols - mhw)).
Proof. apply draw_lines_count. Qed.




Lemma padd_texts_app a b : padd_texts (a ++ b) = padd_texts a ++ padd_texts b.
Proof. unfold padd_texts. apply flat_map_app. Qed.

Lemma calc_user_hdrs_loop_min hdrs n :
  n <= 5 -> calc_user_hdrs_loop hdrs (Z.of_nat n) = Z.min (Z.of_nat (n + length hdrs)) 5%Z.
Proof.
  revert n; induction hdrs as [|s l IH]; intros n Hn; cbn [calc_user_hdrs_loop length].
  - rewrite Nat.add_0_r. lia.
  - unfold MAX_USER_HDR_ROWS. destruct (Z.eqb_spec (Z.of_nat n) 5).
    + lia.
    + replace (Z.of_nat n + 1)%Z with (Z.of_nat (S n)) by lia.
      rewrite IH by lia. f_equal. lia.
Qed.

Lemma calc_user_hdrs_min hdrs : calc_user_hdrs hdrs = Z.min (Z.of_nat (length hdrs)) 5%Z.
Proof. apply (calc_user_hdrs_loop_min hdrs 0). lia. Qed.

Lemma user_hdrs_loop_spec cols pad row l n ev :
  1 <= n <= 4 ->
  exists e, user_hdrs_loop cols pad row l (Z.of_nat n) ev
            = (Z.min (Z.of_nat (n + length l)) 5%Z, ev ++ e) /\
          padd_texts e = if n + length l <=? 5 then l else firstn (4 - n) l ++ ["..."].
Proof.
  revert n ev; induction l as [|s l IH]; intros n ev Hn; cbn [user_hdrs_loop length].
  - exists []. rewrite app_nil_r, Nat.add_0_r. split; [f_equal; lia|].
    destruct (Nat.leb_spec n 5); [reflexivity|lia].
  - unfold MAX_USER_HDR_ROWS.
    destruct (Z.eqb_spec (Z.of_nat n) (5 - 1)) as [E4|N4]; destruct l as [|t l'] eqn:El;
      cbn [has_next andb].
    + (* last header on the fifth row *)
      cbn [user_hdrs_loop]. exists (draw_header_content cols pad (row + Z.of_nat n) s).
      split; [f_equal; cbn [length]; lia|]. cbn. destruct (Nat.leb_spec (n + 1) 5); [reflexivity|lia].
    + exists (draw_header_content cols pad (row + Z.of_nat n) "...").
      split; [f_equal; cbn [length]; lia|].
      cbn [length]. destruct (Nat.leb_spec (n + S (S (length l'))) 5); [lia|].
      replace (4 - n) with 0 by lia. reflexivity.
    + cbn [user_hdrs_loop]. exists (draw_header_content cols pad (row + Z.of_nat n) s).
      split; [f_equal; cbn [length]; lia|]. cbn. destruct (Nat.leb_spec (n + 1) 5); [reflexivity|lia].
    + replace (Z.of_nat n + 1)%Z with (Z.of_nat (S n)) by lia.
      destruct (IH (S n) (ev ++ draw_header_content cols pad (row + Z.of_nat n) s)) as [e [He Ht]];
        [lia|].
      rewrite He, <- app_assoc.
      exists (draw_header_content cols pad (row + Z.of_nat n) s ++ e).
      split; [f_equal; cbn [length] in *; lia|].
      rewrite padd_texts_app, Ht. cbn [length] in *.
      replace (S n + S (length l')) with (n + S (S (length l'))) by lia.
      destruct (n + S (S (length l')) <=? 5); [reflexivity|].
      replace (4 - n) with (S (4 - S n)) by lia. reflexivity.
Qed.

Lemma user_hdrs_rows_texts_eq hdrs cols pad prompt row :
  fst (draw_envelope_user_hdrs w hdrs cols pad prompt row) = calc_user_hdrs hdrs /\
  padd_texts (snd (draw_envelope_user_hdrs w hdrs cols pad prompt row))
  = if length hdrs <=? 5 then hdrs else firstn 4 hdrs ++ ["..."].
Proof.
  rewrite calc_user_hdrs_min.
  destruct hdrs as [|x [|y rest]]; [split; reflexivity|split; reflexivity|].
  unfold draw_envelope_user_hdrs.
  destruct (user_hdrs_loop_spec cols pad row (y :: rest) 1 
              [EvHeader row HDR_CUSTOM_HEADERS; EvPaddstr (cols - (pad + w prompt)) x])
    as [e [He Ht]]; [lia|].
  simpl Z.of_nat in He. rewrite He. cbn [fst snd]. split; [cbn [length] in *; f_equal; lia|].
  rewrite padd_texts_app, Ht. cbn [length].
  replace (1 + S (length rest)) with (S (S (length rest))) by lia.
  destruct (S (S (length rest)) <=? 5); reflexivity.
Qed.

(** X3.  draw_envelope_user_hdrs uses the rows calc_user_hdrs reserves. It writes all custom headers when there are at most five; otherwise it writes the first four and then "...". *)
Lemma user_hdrs_rows_texts hdrs cols pad prompt row :
  fst (draw_envelope_user_hdrs w hdrs cols pad prompt row) = calc_user_hdrs hdrs /\
  padd_texts (snd (draw_envelope_user_hdrs w hdrs cols pad prompt row))
  = if length hdrs <=? 5 then hdrs else firstn 4 hdrs ++ ["..."].
Proof. apply user_hdrs_rows_texts_eq. Qed.
End P.

Ltac split_goal_ifs :=
  repeat match goal with
  | |- context [if ?c then _ else _] => destruct c; cbn [andb orb negb]
  | |- context [match ?c with Some _ => _ | None => _ end] => destruct c
  end.

Ltac fin_rows H :=
  cbn [app];
  repeat (apply Forall_cons || (apply Forall_app; split) || apply Forall_nil);
  try (eapply Forall_impl; [|exact H]; intros ? He; rewrite He; exact I);
  cbn; try exact I; lia.

Ltac split_ifs :=
  repeat match goal with
  | |- context [if ?c then _ else _] =>
      destruct c eqn:?; cbn [andb orb negb fst snd] in *; try discriminate
  | |- context [match ?c with Some _ => _ | None => _ end] => destruct c eqn:?
  end.

Lemma sec_has_lor s a b : sec_has s (Z.lor a b) = sec_has s a || sec_has s b.
Proof.
  unfold sec_has. rewrite Z.land_lor_distr_r.
  destruct (Z.lor (Z.land s a) (Z.land s b) =? 0)%Z eqn:E;
  destruct (Z.land s a =? 0)%Z eqn:Ea, (Z.land s b =? 0)%Z eqn:Eb; cbn; auto;
    rewrite ?Z.eqb_eq, ?Z.eqb_neq, ?Z.lor_eq_0_iff in *; tauto.
Qed.

Lemma sec_all_has s f :
  f <> 0%Z -> (Z.land s f =? f)%Z = true -> sec_has s f = true.
Proof.
  intros Hf H. apply Z.eqb_eq in H. unfold sec_has. rewrite H.
  apply Z.eqb_neq in Hf. rewrite Hf. reflexivity.
Qed.

Section P2.
Variable cb : string -> bool.
Variable cs : string -> option string.

Lemma crypt_used_rows b sec rec row :
  Z.land (WithCrypto b) (Z.lor APPLICATION_PGP APPLICATION_SMIME) <> 0%Z ->
  fst (redraw_crypt_lines cb cs b sec rec row) = calc_security cb b sec.
Proof.
  intros Hw. unfold redraw_crypt_lines, calc_security.
  apply Z.eqb_neq in Hw. rewrite Hw.
  destruct (Z.land sec (Z.lor SEC_ENCRYPT SEC_SIGN) =? Z.lor SEC_ENCRYPT SEC_SIGN)%Z eqn:Eb.
  - apply sec_all_has in Eb; [|discriminate]. rewrite Eb.
    destruct (USE_AUTOCRYPT b && cb "autocrypt"); split_ifs; reflexivity.
  - rewrite sec_has_lor.
    destruct (sec_has sec SEC_ENCRYPT), (sec_has sec SEC_SIGN);
      destruct (USE_AUTOCRYPT b && cb "autocrypt"); split_ifs; reflexivity.
Qed.

(** X4.  When PGP or S/MIME is built in, redraw_crypt_lines reports the row count calc_security reserves. *)
Lemma crypt_used b sec rec row :
  Z.land (WithCrypto b) (Z.lor APPLICATION_PGP APPLICATION_SMIME) <> 0%Z ->
  fst (redraw_crypt_lines cb cs b sec rec row) = calc_security cb b sec.
Proof. apply crypt_used_rows. Qed.


(** X5.  When PGP or S/MIME is built in and not both of them are active with signing, every row redraw_crypt_lines draws on lies within the rows it reports. *)
Lemma crypt_rows b sec rec row :
  Z.land (WithCrypto b) (Z.lor APPLICATION_PGP APPLICATION_SMIME) <> 0%Z ->
  negb ((sec_has (WithCrypto b) APPLICATION_PGP && sec_has sec APPLICATION_PGP)
        && (sec_has (WithCrypto b) APPLICATION_SMIME && sec_has sec APPLICATION_SMIME)
        && sec_has sec SEC_SIGN) = true ->
  rows_within row (row + fst (redraw_crypt_lines cb cs b sec rec row))
    (snd (redraw_crypt_lines cb cs b sec rec row)).
Proof.
  intros Hw Hn. unfold redraw_crypt_lines, rows_within.
  apply Z.eqb_neq in Hw. rewrite Hw.
  generalize (match cs "pgp_sign_as" with Some s => s | None => "<default>" end) as t1.
  generalize (if sec_has sec SEC_INLINE then " (inline PGP)" else " (PGP/MIME)") as t2.
  generalize (if sec_has sec SEC_AUTOCRYPT then "Encrypt" else "Off") as t3.
  intros t3 t2 t1.
  remember (if cb "crypt_opportunistic_encrypt" && sec_has sec SEC_OPPENCRYPT
            then [EvAddstr " (OppEnc mode)"] else []) as l4 eqn:E4.
  assert (H4 : Forall (fun e => ev_row e = None) l4).
  { subst l4. destruct (cb "crypt_opportunistic_encrypt" && sec_has sec SEC_OPPENCRYPT); repeat constructor. }
  clear E4.
  destruct (Z.land sec (Z.lor SEC_ENCRYPT SEC_SIGN) =? Z.lor SEC_ENCRYPT SEC_SIGN)%Z eqn:Eb.
  - pose proof (sec_all_has sec (Z.lor SEC_ENCRYPT SEC_SIGN) ltac:(discriminate) Eb) as Eh.
    rewrite sec_has_lor in Eh. rewrite sec_has_lor.
    destruct (sec_has (WithCrypto b) APPLICATION_PGP && sec_has sec APPLICATION_PGP),
      (sec_has (WithCrypto b) APPLICATION_SMIME && sec_has sec APPLICATION_SMIME),
      (sec_has sec SEC_SIGN), (sec_has sec SEC_ENCRYPT); cbn in Hn, Eh; try discriminate;
    cbn [andb orb negb]; split_goal_ifs; cbn [fst snd]; fin_rows H4.
  - rewrite sec_has_lor.
    destruct (sec_has (WithCrypto b) APPLICATION_PGP && sec_has sec APPLICATION_PGP),
      (sec_has (WithCrypto b) APPLICATION_SMIME && sec_has sec APPLICATION_SMIME),
      (sec_has sec SEC_SIGN), (sec_has sec SEC_ENCRYPT); cbn in Hn; try discriminate;
    cbn [andb orb negb]; split_goal_ifs; cbn [fst snd]; fin_rows H4.
Qed.

(** X6.  With both PGP and S/MIME built in and selected, signing on and no autocrypt, redraw_crypt_lines reports 2 rows but draws the S/MIME sign-as line on row + 2, outside them. *)
Lemma crypt_both_sign_overflows b sec rec row :
  sec_has (WithCrypto b) APPLICATION_PGP = true -> sec_has sec APPLICATION_PGP = true ->
  sec_has (WithCrypto b) APPLICATION_SMIME = true -> sec_has sec APPLICATION_SMIME = true ->
  sec_has sec SEC_SIGN = true -> (USE_AUTOCRYPT b && cb "autocrypt") = false ->
  fst (redraw_crypt_lines cb cs b sec rec row) = 2%Z /\
  In (EvHeader (row + 2) HDR_CRYPTINFO) (snd (redraw_crypt_lines cb cs b sec rec row)).
Proof.
  intros H1 H2 H3 H4 H5 H6. unfold redraw_crypt_lines.
  assert (Hw : (Z.land (WithCrypto b) (Z.lor APPLICATION_PGP APPLICATION_SMIME) =? 0)%Z = false).
  { pose proof (sec_has_lor (WithCrypto b) APPLICATION_PGP APPLICATION_SMIME) as E.
    rewrite H1 in E. unfold sec_has in E. destruct (_ =? 0)%Z; [discriminate|reflexivity]. }
  rewrite Hw, H1, H2, H3, H4, H5, H6. cbn [andb].
  assert (Hs : sec_has sec (Z.lor SEC_ENCRYPT SEC_SIGN) = true)
    by (rewrite sec_has_lor, H5; apply orb_true_r).
  rewrite Hs.
  destruct (Z.land sec (Z.lor SEC_ENCRYPT SEC_SIGN) =? Z.lor SEC_ENCRYPT SEC_SIGN)%Z;
    [|destruct (sec_has sec SEC_ENCRYPT)]; cbn [fst snd]; (split; [reflexivity|]);
    do 6 (apply in_or_app; right); apply in_or_app; left; left;
    f_equal; lia.
Qed.

End P2.

Lemma adjacent_here x y l : adjacent x y (x :: y :: l).
Proof. exists [], l. reflexivity. Qed.

Lemma adjacent_app_l x y l1 l2 : adjacent x y l2 -> adjacent x y (l1 ++ l2).
Proof. intros (pre & post & ->). exists (l1 ++ pre), post. rewrite app_assoc. reflexivity. Qed.

Lemma adjacent_app_r x y l1 l2 : adjacent x y l1 -> adjacent x y (l1 ++ l2).
Proof. intros (pre & post & ->). exists pre, (post ++ l2). rewrite <- app_assoc. reflexivity. Qed.

(** X7.  When S/MIME is built in and selected with signing, the S/MIME
    sign-as line that redraw_crypt_lines draws (on the row after the PGP
    one when PGP signing is also shown) displays the value of pgp_sign_as
    (or "<default>"); smime_sign_as is never read: the drawing depends on
    no setting but pgp_sign_as and smime_encrypt_with. *)
Lemma smime_sign_as_shows_pgp cb cs b sec rec row :
  sec_has (WithCrypto b) APPLICATION_SMIME = true -> sec_has sec APPLICATION_SMIME = true ->
  sec_has sec SEC_SIGN = true ->
  adjacent
    (EvHeader (row + 1 + (if sec_has (WithCrypto b) APPLICATION_PGP && sec_has sec APPLICATION_PGP
                          then 1 else 0))%Z HDR_CRYPTINFO)
    (EvAddstr (match cs "pgp_sign_as" with Some s => s | None => "<default>" end))
    (snd (redraw_crypt_lines cb cs b sec rec row)) /\
  forall cs2, cs2 "pgp_sign_as" = cs "pgp_sign_as" ->
    cs2 "smime_encrypt_with" = cs "smime_encrypt_with" ->
    redraw_crypt_lines cb cs2 b sec rec row = redraw_crypt_lines cb cs b sec rec row.
Proof.
  intros Hw Hs Hg. split.
  2:{ intros cs2 H1 H2. unfold redraw_crypt_lines. rewrite H1, H2. reflexivity. }
  assert (Hl : (Z.land (WithCrypto b) (Z.lor APPLICATION_PGP APPLICATION_SMIME) =? 0)%Z = false).
  { pose proof (sec_has_lor (WithCrypto b) APPLICATION_PGP APPLICATION_SMIME) as E.
    rewrite Hw, orb_true_r in E. unfold sec_has in E.
    destruct (_ =? 0)%Z; [discriminate|reflexivity]. }
  unfold redraw_crypt_lines. cbv beta zeta. rewrite Hl. cbv beta iota.
  match goal with |- context [match ?c with (txt, used) => _ end] => destruct c as [txt used] end.
  cbv beta iota.
  rewrite Hg, !andb_true_r.
  destruct (sec_has (WithCrypto b) APPLICATION_PGP && sec_has sec APPLICATION_PGP);
    rewrite Hw, Hs; cbv beta iota;
    destruct (USE_AUTOCRYPT b && cb "autocrypt"); cbv beta iota delta [snd];
    do 6 apply adjacent_app_l; apply adjacent_app_r;
    replace (row + 1 + 1)%Z with (row + 1 + 1)%Z by reflexivity;
    first [apply adjacent_here | rewrite Z.add_0_r; apply adjacent_here].
Qed.

Lemma to_short_small z : (- 2 ^ 15 <= z < 2 ^ 15)%Z -> to_short z = z.
Proof.
  intros H. unfold to_short. rewrite Z.mod_small by lia. lia.
Qed.

Lemma calc_address_bounds w sl cols : (1 <= calc_address w sl cols <= MAX_ADDR_ROWS)%Z.
Proof.
  unfold calc_address, MAX_ADDR_ROWS. pose proof (calc_loop_ge w cols sl 1 cols). lia.
Qed.

(** X1.  calc_address reserves between 1 and MAX_ADDR_ROWS rows for an address field, whatever the addresses and the width. *)
Lemma calc_address_range w sl cols : (1 <= calc_address w sl cols <= MAX_ADDR_ROWS)%Z.
Proof. apply calc_address_bounds. Qed.

Lemma draw_lines_eq w fm f al cols mhw row m n e :
  draw_envelope_addr w fm f al cols mhw row m = (n, e) -> (1 <= m)%Z ->
  n = Z.min m (calc_address_loop w (cols - mhw) al 1 (cols - mhw)).
Proof.
  intros H Hm. rewrite <- (draw_lines_count w fm f al cols mhw row m Hm), H. reflexivity.
Qed.

Lemma crypt_rows_drawn cb cs b sec rec row :
  (Z.land (WithCrypto b) (Z.lor APPLICATION_PGP APPLICATION_SMIME) <> 0%Z
   \/ (USE_AUTOCRYPT b && cb "autocrypt") = false) ->
  (if negb (WithCrypto b =? 0)%Z then fst (redraw_crypt_lines cb cs b sec rec row) else 0%Z)
  = calc_security cb b sec.
Proof.
  intros H.
  destruct (Z.eq_dec (Z.land (WithCrypto b) (Z.lor APPLICATION_PGP APPLICATION_SMIME)) 0) as [E|E].
  - destruct H as [H|H]; [contradiction|].
    unfold calc_security. rewrite E, H. cbn.
    destruct (WithCrypto b =? 0)%Z eqn:E0; cbn; [reflexivity|].
    unfold redraw_crypt_lines. rewrite E. reflexivity.
  - destruct (WithCrypto b =? 0)%Z eqn:E0.
    + apply Z.eqb_eq in E0. rewrite E0 in E. contradiction.
    + apply crypt_used_rows. exact E.
Qed.

Lemma crypt_rows_drawn_on cb cs b sec rec row :
  negb (WithCrypto b =? 0)%Z = true ->
  (Z.land (WithCrypto b) (Z.lor APPLICATION_PGP APPLICATION_SMIME) <> 0%Z
   \/ (USE_AUTOCRYPT b && cb "autocrypt") = false) ->
  fst (redraw_crypt_lines cb cs b sec rec row) = calc_security cb b sec.
Proof.
  intros E H. rewrite <- (crypt_rows_drawn cb cs b sec rec row H), E. reflexivity.
Qed.

Ltac open_draws :=
  repeat match goal with
  | |- context [draw_envelope_addr ?w ?fm ?f ?al ?c ?m ?r ?x] =>
      let E := fresh "Ed" in
      destruct (draw_envelope_addr w fm f al c m r x) eqn:E;
      apply draw_lines_eq in E; [|try lia; try apply calc_address_bounds]
  | |- context [redraw_crypt_lines ?cb ?cs ?b ?s ?rc ?r] =>
      let E := fresh "Ec" in
      pose proof (crypt_rows_drawn_on cb cs b s rc r) as E;
      destruct (redraw_crypt_lines cb cs b s rc r); cbn [fst] in E
  | |- context [draw_envelope_user_hdrs ?w ?h ?c ?p ?pr ?r] =>
      let E := fresh "Eu" in
      pose proof (proj1 (user_hdrs_rows_texts_eq w h c p pr r)) as E;
      destruct (draw_envelope_user_hdrs w h c p pr r); cbn [fst] in E
  end.

(** X8.  When the width fits a short and autocrypt is off or PGP/S-MIME is built in, draw_envelope uses exactly the rows calc_envelope computed for the same window. *)
Lemma envelope_rows cb cs w fm b news env sec chain rd fcc wc mhw pc pr :
  (- 2 ^ 15 <= wc - mhw < 2 ^ 15)%Z ->
  (Z.land (WithCrypto b) (Z.lor APPLICATION_PGP APPLICATION_SMIME) <> 0%Z
   \/ (USE_AUTOCRYPT b && cb "autocrypt") = false) ->
  fst (draw_envelope cb cs w fm b news env sec chain
         (snd (calc_envelope cb w b news env sec rd wc mhw)) fcc wc mhw pc pr)
  = fst (calc_envelope cb w b news env sec rd wc mhw).
Proof.
  intros Hc Hs. pose proof (crypt_rows_drawn cb cs b sec (autocrypt_rec rd) 0 Hs) as Hcr.
  unfold calc_envelope, draw_envelope. rewrite (to_short_small _ Hc).
  destruct (USE_NNTP b && news); cbn [fst snd autocrypt_rec to_rows cc_rows bcc_rows].
  all: destruct (negb (WithCrypto b =? 0)%Z) eqn:Ew; try rewrite Ew in Hcr.
  all: repeat (open_draws; try match goal with |- context [if ?c then _ else _] => destruct c end).
  all: repeat match goal with H : ?A -> _, H' : ?A |- _ => specialize (H H') end.
  all: cbn [fst]; unfold calc_address, MAX_ADDR_ROWS in *.
  all: repeat match goal with
       | H : ?z = Z.min _ (calc_address_loop ?w ?c ?l 1 ?x) |- _ =>
           pose proof (calc_loop_ge w c l 1 x); revert H
       end; intros; lia.
Qed.

Lemma HeaderField_beq_iff f g : HeaderField_beq f g = true <-> f = g.
Proof. split; [destruct f, g; cbn; congruence | intros ->; destruct g; reflexivity]. Qed.

Lemma HeaderField_beq_refl f : HeaderField_beq f f = true.
Proof. apply HeaderField_beq_iff. reflexivity. Qed.

Lemma header_fields_NoDup b : NoDup (header_fields b).
Proof.
  destruct b as [wc [] [] []]; cbn; repeat constructor; cbn; intuition discriminate.
Qed.

Lemma header_fields_cryptinfo b : In HDR_CRYPTINFO (header_fields b).
Proof. destruct b as [wc [] [] []]; cbn; tauto. Qed.

Section Pad.
Variable w : string -> Z.
Variable g : string -> string.

Lemma chwp_spec i s cm st :
  pad_done (calc_header_width_padding w i s cm st) = pad_done st /\
  MaxHeaderWidth (calc_header_width_padding w i s cm st)
  = (if cm && (MaxHeaderWidth st <? w s) then w s else MaxHeaderWidth st)%Z /\
  forall f, HeaderPadding (calc_header_width_padding w i s cm st) f
            = if HeaderField_beq f i then (mutt_str_len s - w s)%Z else HeaderPadding st f.
Proof.
  unfold calc_header_width_padding, set_padding, fupd; cbn.
  destruct (cm && (MaxHeaderWidth st <? w s)%Z); cbn; (split; [reflexivity|split; [reflexivity|]]);
    intros f; rewrite ?HeaderField_beq_refl; destruct (HeaderField_beq f i); reflexivity.
Qed.


Lemma phase1_spec l st :
  let st' := fold_left (phase1 w g) l st in
  pad_done st' = pad_done st /\ (MaxHeaderWidth st <= MaxHeaderWidth st')%Z /\
  (forall f, In f l -> f <> HDR_CRYPTINFO -> (w (g (Prompts f)) <= MaxHeaderWidth st')%Z) /\
  (forall f, HeaderPadding st' f
             = if existsb (HeaderField_beq f) l && negb (HeaderField_beq f HDR_CRYPTINFO)
               then (mutt_str_len (g (Prompts f)) - w (g (Prompts f)))%Z
               else HeaderPadding st f).
Proof.
  revert st; induction l as [|i l IH]; intros st; cbn [fold_left].
  - cbn. repeat split; try lia; try tauto.
  - destruct (IH (phase1 w g st i)) as (D & M & W & P). unfold phase1 in *.
    destruct (HeaderField_beq i HDR_CRYPTINFO) eqn:Ei.
    + apply HeaderField_beq_iff in Ei. subst i.
      split; [exact D|]. split; [exact M|]. split.
      * intros f [<-|Hf] Hn; [congruence|]. apply W; assumption.
      * intros f. rewrite P. cbn [existsb].
        destruct (HeaderField_beq f HDR_CRYPTINFO) eqn:Ef; cbn; rewrite ?andb_false_r; [reflexivity|].
        rewrite andb_true_r. reflexivity.
    + destruct (chwp_spec i (g (Prompts i)) true st) as (D' & M' & P').
      split; [congruence|]. split.
      * rewrite M' in M. cbn in M. destruct (MaxHeaderWidth st <? w (g (Prompts i)))%Z eqn:E; lia.
      * split.
        -- intros f [<-|Hf] Hn; [|apply W; assumption].
           rewrite M' in M. cbn in M. destruct (MaxHeaderWidth st <? w (g (Prompts i)))%Z eqn:E;
             apply Z.ltb_ge in E || apply Z.ltb_lt in E; lia.
        -- intros f. rewrite P, P'. cbn [existsb].
           destruct (HeaderField_beq f i) eqn:Efi; cbn [orb].
           ++ apply HeaderField_beq_iff in Efi. subst f. rewrite Ei. cbn.
              destruct (existsb _ _); reflexivity.
           ++ destruct (existsb (HeaderField_beq f) l && negb (HeaderField_beq f HDR_CRYPTINFO)); reflexivity.
Qed.


Lemma phase3_step st i :
  pad_done (phase3 st i) = pad_done st /\ MaxHeaderWidth (phase3 st i) = MaxHeaderWidth st /\
  forall f, HeaderPadding (phase3 st i) f
            = if HeaderField_beq f i then Z.max 0 (HeaderPadding st i + MaxHeaderWidth st)
              else HeaderPadding st f.
Proof.
  unfold phase3, set_padding, fupd; cbn.
  rewrite HeaderField_beq_refl.
  destruct (HeaderPadding st i + MaxHeaderWidth st <? 0)%Z eqn:E; cbn;
    (split; [reflexivity|split; [reflexivity|]]); intros f;
    destruct (HeaderField_beq f i); try reflexivity;
    [apply Z.ltb_lt in E | apply Z.ltb_ge in E]; lia.
Qed.

Lemma phase3_spec l st :
  NoDup l ->
  let st' := fold_left phase3 l st in
  pad_done st' = pad_done st /\ MaxHeaderWidth st' = MaxHeaderWidth st /\
  forall f, HeaderPadding st' f
            = if existsb (HeaderField_beq f) l then Z.max 0 (HeaderPadding st f + MaxHeaderWidth st)
              else HeaderPadding st f.
Proof.
  intros Hnd. revert st; induction Hnd as [|i l Hi Hnd IH]; intros st; cbn [fold_left].
  - cbn. repeat split.
  - destruct (IH (phase3 st i)) as (D & M & P).
    destruct (phase3_step st i) as (D' & M' & P').
    split; [congruence|]. split; [congruence|].
    intros f. rewrite P. cbn [existsb]. rewrite M', !P'.
    destruct (HeaderField_beq f i) eqn:E; cbn [orb].
    + apply HeaderField_beq_iff in E. subst f.
      assert (Hx : existsb (HeaderField_beq i) l = false).
      { apply not_true_is_false. intros Hx. apply existsb_exists in Hx.
        destruct Hx as (y & Hy & Hb). apply HeaderField_beq_iff in Hb. subst y. contradiction. }
      rewrite Hx. reflexivity.
    + reflexivity.
Qed.

End Pad.

Lemma init_header_padding_eq w g b st :
  init_header_padding w g b st
  = if pad_done st then st else
    fold_left phase3 (header_fields b)
      (calc_header_width_padding w HDR_CRYPTINFO (g (Prompts HDR_CRYPTINFO)) false
         (fold_left (phase1 w g) (header_fields b)
            (mkPadSt true (HeaderPadding st) (MaxHeaderWidth st)))).
Proof. reflexivity. Qed.

Lemma init_header_padding_result w g b st :
  pad_done st = false ->
  let st' := init_header_padding w g b st in
  (forall f, In f (header_fields b) -> f <> HDR_CRYPTINFO ->
     (label_spaces g st' f + w (g (Prompts f)))%Z = MaxHeaderWidth st') /\
  HeaderPadding st' HDR_CRYPTINFO
  = Z.max 0 (mutt_str_len (g (Prompts HDR_CRYPTINFO)) - w (g (Prompts HDR_CRYPTINFO))
             + MaxHeaderWidth st') /\
  pad_done st' = true.
Proof.
  intros Hd. cbv zeta. rewrite init_header_padding_eq, Hd.
  set (st1 := mkPadSt true (HeaderPadding st) (MaxHeaderWidth st)).
  destruct (phase1_spec w g (header_fields b) st1) as (D1 & M1 & W1 & P1).
  set (st2 := fold_left (phase1 w g) (header_fields b) st1) in *.
  destruct (chwp_spec w HDR_CRYPTINFO (g (Prompts HDR_CRYPTINFO)) false st2) as (D2 & M2 & P2).
  set (st3 := calc_header_width_padding w HDR_CRYPTINFO (g (Prompts HDR_CRYPTINFO)) false st2) in *.
  destruct (phase3_spec (header_fields b) st3 (header_fields_NoDup b)) as (D3 & M3 & P3).
  cbn [andb] in M2.
  assert (Hin : forall f, In f (header_fields b) -> existsb (HeaderField_beq f) (header_fields b) = true).
  { intros f Hf. apply existsb_exists. exists f. split; [exact Hf|apply HeaderField_beq_refl]. }
  split; [|split].
  - intros f Hf Hn. unfold label_spaces. rewrite P3, (Hin f Hf), M3, M2, P2, P1.
    assert (Hfc : HeaderField_beq f HDR_CRYPTINFO = false)
      by (apply not_true_is_false; rewrite HeaderField_beq_iff; exact Hn).
    rewrite Hfc, (Hin f Hf). cbn [andb negb].
    pose proof (W1 f Hf Hn). unfold mutt_str_len in *. lia.
  - rewrite P3, (Hin _ (header_fields_cryptinfo b)), M3, M2, P2, HeaderField_beq_refl. reflexivity.
  - rewrite D3, D2, D1. reflexivity.
Qed.

(** X9.  After init_header_padding, every label except the crypt-info one, padded by HeaderPadding, ends at MaxHeaderWidth; the crypt-info padding is its own length difference plus MaxHeaderWidth, clamped at 0; and the done flag is set. *)
Lemma init_header_padding_aligns w g b st :
  pad_done st = false ->
  let st' := init_header_padding w g b st in
  (forall f, In f (header_fields b) -> f <> HDR_CRYPTINFO ->
     (label_spaces g st' f + w (g (Prompts f)))%Z = MaxHeaderWidth st') /\
  HeaderPadding st' HDR_CRYPTINFO
  = Z.max 0 (mutt_str_len (g (Prompts HDR_CRYPTINFO)) - w (g (Prompts HDR_CRYPTINFO))
             + MaxHeaderWidth st') /\
  pad_done st' = true.
Proof. apply init_header_padding_result. Qed.

(** X10.  init_header_padding is idempotent: a second call changes nothing. *)
Lemma init_header_padding_once w g b st :
  init_header_padding w g b (init_header_padding w g b st) = init_header_padding w g b st.
Proof.
  destruct (pad_done st) eqn:Hd.
  - assert (E : init_header_padding w g b st = st)
      by (rewrite init_header_padding_eq, Hd; reflexivity).
    rewrite !E. reflexivity.
  - destruct (init_header_padding_result w g b st Hd) as (_ & _ & D).
    rewrite (init_header_padding_eq w g b (init_header_padding w g b st)), D. reflexivity.
Qed.

Lemma sec_has_one s n : (0 <= n)%Z -> sec_has s (Z.shiftl 1 n) = Z.testbit s n.
Proof.
  intros Hn. unfold sec_has. rewrite Z.shiftl_1_l.
  destruct (Z.testbit s n) eqn:E.
  - apply negb_true_iff, Z.eqb_neq. intros H0.
    assert (Z.testbit (Z.land s (2 ^ n)) n = false) by (rewrite H0; apply Z.testbit_0_l).
    rewrite Z.land_spec, E, Z.pow2_bits_true in H by exact Hn. discriminate.
  - apply negb_false_iff, Z.eqb_eq. apply Z.bits_inj'. intros m Hm.
    rewrite Z.land_spec, Z.testbit_0_l, Z.pow2_bits_eqb by exact Hn.
    destruct (Z.eqb_spec n m); [subst; rewrite E; reflexivity|apply andb_false_r].
Qed.

Lemma testbit_shiftl_one n k : (0 <= n)%Z -> Z.testbit (Z.shiftl 1 n) k = (n =? k)%Z.
Proof. intros Hn. rewrite Z.shiftl_1_l. apply Z.pow2_bits_eqb. exact Hn. Qed.

Ltac bits :=
  unfold sec_clear, sec_set in *;
  rewrite ?sec_has_lor in *;
  unfold SEC_ENCRYPT, SEC_SIGN, SEC_INLINE, SEC_OPPENCRYPT, SEC_AUTOCRYPT,
    SEC_AUTOCRYPT_OVERRIDE, APPLICATION_PGP, APPLICATION_SMIME in *;
  rewrite ?sec_has_one in * by lia;
  repeat (rewrite ?Z.lor_spec, ?Z.land_spec in *; rewrite ?Z.lnot_spec in * by lia);
  rewrite ?testbit_shiftl_one in * by lia;
  cbn [Z.eqb Pos.eqb negb andb orb] in *.

Ltac bfin :=
  repeat match goal with |- context [Z.testbit ?x ?k] => destruct (Z.testbit x k) end;
  cbn; first [reflexivity | split; reflexivity].

Section Sec.
Variable cb : string -> bool.
Variable opp : Z -> Z.
Variable rec : Z -> AutocryptRec.

(** X11.  When autocrypt is built in and enabled, update_crypt_info never leaves autocrypt set together with encrypt, sign or S/MIME. *)
Lemma update_crypt_info_exclusive b sec rd :
  (USE_AUTOCRYPT b && cb "autocrypt") = true ->
  let s := fst (update_crypt_info cb opp rec b sec rd) in
  sec_has s SEC_AUTOCRYPT && sec_has s (Z.lor (Z.lor SEC_ENCRYPT SEC_SIGN) APPLICATION_SMIME) = false.
Proof.
  intros Ha. cbv zeta. unfold update_crypt_info. rewrite Ha.
  generalize (if cb "crypt_opportunistic_encrypt" then opp sec else sec) as t. intros t.
  destruct (sec_has t (Z.lor (Z.lor SEC_ENCRYPT SEC_SIGN) APPLICATION_SMIME)) eqn:E1;
    [|destruct (negb (sec_has t SEC_AUTOCRYPT_OVERRIDE)) eqn:E2;
      [destruct (rec_is_yes (rec t))|]]; cbn [fst]; rewrite ?E1; bits;
    repeat match goal with |- context [Z.testbit t ?k] => destruct (Z.testbit t k) end;
    cbn in *; congruence.
Qed.


(** crypt_opportunistic_encrypt only touches SEC_ENCRYPT, and does nothing
    unless SEC_OPPENCRYPT is set. *)
Hypothesis opp_bits : forall s k, (0 < k)%Z -> Z.testbit (opp s) k = Z.testbit s k.
Hypothesis opp_off : forall s, Z.testbit s 8 = false -> opp s = s.

Lemma uci_keeps_bit b x rd k :
  (0 < k)%Z -> k <> 9%Z -> k <> 10%Z -> k <> 11%Z -> k <> 7%Z -> k <> 12%Z ->
  Z.testbit (fst (update_crypt_info cb opp rec b x rd)) k = Z.testbit x k.
Proof.
  intros H0 H9 H10 H11 H7 H12. unfold update_crypt_info.
  assert (Ht : Z.testbit (if cb "crypt_opportunistic_encrypt" then opp x else x) k = Z.testbit x k)
    by (destruct (cb _); [apply opp_bits; exact H0|reflexivity]).
  generalize dependent (if cb "crypt_opportunistic_encrypt" then opp x else x). intros t Ht.
  destruct (USE_AUTOCRYPT b && cb "autocrypt"); [|exact Ht].
  destruct (sec_has t _); [|destruct (negb _); [destruct (rec_is_yes _)|]]; cbn [fst];
    try exact Ht; unfold sec_clear, sec_set, SEC_AUTOCRYPT, SEC_AUTOCRYPT_OVERRIDE, SEC_INLINE,
      APPLICATION_PGP, APPLICATION_SMIME;
    repeat (rewrite ?Z.lor_spec, ?Z.land_spec; rewrite ?Z.lnot_spec by lia);
    rewrite ?testbit_shiftl_one by lia; rewrite Ht;
    repeat match goal with |- context [(?a =? ?b)%Z] =>
      let E := fresh in destruct (Z.eqb_spec a b) as [E|E]; [lia|] end;
    cbn [orb negb andb]; rewrite ?andb_true_r, ?orb_false_r; reflexivity.
Qed.

Lemma uci_no_smime b x rd :
  Z.testbit x 12 = false -> Z.testbit (fst (update_crypt_info cb opp rec b x rd)) 12 = false.
Proof.
  intros Hx. unfold update_crypt_info.
  assert (Ht : Z.testbit (if cb "crypt_opportunistic_encrypt" then opp x else x) 12 = false)
    by (destruct (cb _); [rewrite opp_bits by lia|]; exact Hx).
  generalize dependent (if cb "crypt_opportunistic_encrypt" then opp x else x). intros t Ht.
  destruct (USE_AUTOCRYPT b && cb "autocrypt"); [|exact Ht].
  destruct (sec_has t _); [|destruct (negb _); [destruct (rec_is_yes _)|]]; cbn [fst];
    bits; rewrite ?Ht; cbn [andb orb negb]; rewrite ?andb_false_r; reflexivity.
Qed.

Lemma uci_fixed b x rd :
  Z.testbit x 0 = false -> Z.testbit x 1 = false -> Z.testbit x 8 = false ->
  Z.testbit x 10 = true -> Z.testbit x 12 = false ->
  fst (update_crypt_info cb opp rec b x rd) = x.
Proof.
  intros H0 H1 H8 H10 H12. unfold update_crypt_info.
  replace (if cb "crypt_opportunistic_encrypt" then opp x else x) with x
    by (destruct (cb _); [symmetry; apply opp_off; exact H8|reflexivity]).
  destruct (USE_AUTOCRYPT b && cb "autocrypt"); [|reflexivity].
  assert (E1 : sec_has x (Z.lor (Z.lor SEC_ENCRYPT SEC_SIGN) APPLICATION_SMIME) = false)
    by (bits; rewrite H0, H1, H12; reflexivity).
  assert (E2 : sec_has x SEC_AUTOCRYPT_OVERRIDE = true) by (bits; exact H10).
  rewrite E1, E2. reflexivity.
Qed.

(** X12.  Choosing encrypt in the autocrypt menu (with S/MIME built in whenever it is selected, and the S/MIME question answered yes when it is asked) leaves autocrypt, override and PGP set, and encrypt, sign, S/MIME, opportunistic encryption and inline clear. *)
Lemma autocrypt_menu_encrypt b sec rd yes :
  cb "autocrypt" = true ->
  (sec_has sec APPLICATION_SMIME = true -> sec_has (WithCrypto b) APPLICATION_SMIME = true) ->
  (yes = MUTT_YES \/ sec_has sec (Z.lor SEC_ENCRYPT SEC_SIGN) = false) ->
  let s := fst (fst (op_autocrypt_menu cb opp rec b sec rd yes 1)) in
  sec_has s SEC_AUTOCRYPT && sec_has s SEC_AUTOCRYPT_OVERRIDE && sec_has s APPLICATION_PGP = true /\
  sec_has s (Z.lor (Z.lor (Z.lor (Z.lor SEC_ENCRYPT SEC_SIGN) APPLICATION_SMIME) SEC_OPPENCRYPT)
               SEC_INLINE) = false.
Proof.
  intros Ha Hw Hy. cbv zeta. unfold op_autocrypt_menu. rewrite Ha. cbn [negb].
  assert (Hs : exists s1 rd1,
             (if sec_has (WithCrypto b) APPLICATION_SMIME && sec_has sec APPLICATION_SMIME then
                match (if sec_has sec (Z.lor SEC_ENCRYPT SEC_SIGN) then
                         match yes with
                         | MUTT_YES => Some (sec_clear sec (Z.lor SEC_ENCRYPT SEC_SIGN))
                         | _ => None
                         end
                       else Some sec) with
                | Some s => Some (update_crypt_info cb opp rec b
                                    (sec_set (sec_clear s APPLICATION_SMIME) APPLICATION_PGP) rd)
                | None => None
                end
              else Some (sec, rd)) = Some (s1, rd1) /\ Z.testbit s1 12 = false).
  { destruct (sec_has (WithCrypto b) APPLICATION_SMIME) eqn:Ew,
             (sec_has sec APPLICATION_SMIME) eqn:Es; cbn [andb].
    - assert (Hc : exists c, (if sec_has sec (Z.lor SEC_ENCRYPT SEC_SIGN) then
                         match yes with
                         | MUTT_YES => Some (sec_clear sec (Z.lor SEC_ENCRYPT SEC_SIGN))
                         | _ => None
                         end
                       else Some sec) = Some c)
        by (destruct (sec_has sec (Z.lor SEC_ENCRYPT SEC_SIGN)) eqn:Ee; [destruct Hy as [->|Hy]; [eexists; reflexivity|congruence]|
                                              eexists; reflexivity]).
      destruct Hc as [c ->].
      eexists; eexists; split; [rewrite <- surjective_pairing; reflexivity|].
      apply uci_no_smime. bits. destruct (Z.testbit c 12); reflexivity.
    - exists sec, rd. split; [reflexivity|]. unfold APPLICATION_SMIME in Es. rewrite sec_has_one in Es by lia. exact Es.
    - discriminate (Hw eq_refl).
    - exists sec, rd. split; [reflexivity|]. unfold APPLICATION_SMIME in Es. rewrite sec_has_one in Es by lia. exact Es. }
  destruct Hs as (s1 & rd1 & -> & H12).
  set (s2 := autocrypt_compose_menu cb s1 1).
  assert (Hf : fst (update_crypt_info cb opp rec b s2 rd1) = s2).
  { apply uci_fixed; unfold s2, autocrypt_compose_menu; cbn [Z.eqb Pos.eqb]; bits;
      rewrite ?H12; bfin. }
  destruct (update_crypt_info cb opp rec b s2 rd1) as [s3 rd3] eqn:E3. cbn [fst] in Hf. subst s3.
  cbn [fst]. unfold s2, autocrypt_compose_menu. cbn [Z.eqb Pos.eqb]. bits.
  rewrite H12. bfin.
Qed.

Lemma uci_override_off b x rd :
  Z.testbit x 9 = false -> Z.testbit x 10 = true ->
  Z.testbit (fst (update_crypt_info cb opp rec b x rd)) 9 = false.
Proof.
  intros H9 H10. unfold update_crypt_info.
  assert (Ht9 : Z.testbit (if cb "crypt_opportunistic_encrypt" then opp x else x) 9 = false)
    by (destruct (cb _); [rewrite opp_bits by lia|]; exact H9).
  assert (Ht10 : Z.testbit (if cb "crypt_opportunistic_encrypt" then opp x else x) 10 = true)
    by (destruct (cb _); [rewrite opp_bits by lia|]; exact H10).
  generalize dependent (if cb "crypt_opportunistic_encrypt" then opp x else x). intros t Ht9 Ht10.
  destruct (USE_AUTOCRYPT b && cb "autocrypt"); [|exact Ht9].
  assert (Ho : sec_has t SEC_AUTOCRYPT_OVERRIDE = true) by (bits; exact Ht10).
  rewrite Ho. cbn [negb].
  destruct (sec_has t (Z.lor (Z.lor SEC_ENCRYPT SEC_SIGN) APPLICATION_SMIME)); cbn [fst]; [|exact Ht9].
  bits. rewrite Ht9. bfin.
Qed.

(** X13.  Choosing clear in the autocrypt menu (when the S/MIME question, if asked, is answered yes) leaves the autocrypt flag clear. *)
Lemma autocrypt_menu_clear b sec rd yes :
  cb "autocrypt" = true ->
  (yes = MUTT_YES \/ sec_has sec (Z.lor SEC_ENCRYPT SEC_SIGN) = false) ->
  sec_has (fst (fst (op_autocrypt_menu cb opp rec b sec rd yes 2))) SEC_AUTOCRYPT = false.
Proof.
  intros Ha Hy. unfold op_autocrypt_menu. rewrite Ha. cbn [negb].
  assert (Hs : exists s1 rd1,
             (if sec_has (WithCrypto b) APPLICATION_SMIME && sec_has sec APPLICATION_SMIME then
                match (if sec_has sec (Z.lor SEC_ENCRYPT SEC_SIGN) then
                         match yes with
                         | MUTT_YES => Some (sec_clear sec (Z.lor SEC_ENCRYPT SEC_SIGN))
                         | _ => None
                         end
                       else Some sec) with
                | Some s => Some (update_crypt_info cb opp rec b
                                    (sec_set (sec_clear s APPLICATION_SMIME) APPLICATION_PGP) rd)
                | None => None
                end
              else Some (sec, rd)) = Some (s1, rd1)).
  { destruct (sec_has (WithCrypto b) APPLICATION_SMIME && sec_has sec APPLICATION_SMIME).
    - destruct (sec_has sec (Z.lor SEC_ENCRYPT SEC_SIGN)) eqn:Ee;
        [destruct Hy as [->|Hy]; [|congruence]|];
        eexists; eexists; rewrite <- surjective_pairing; reflexivity.
    - exists sec, rd. reflexivity. }
  destruct Hs as (s1 & rd1 & ->).
  destruct (update_crypt_info cb opp rec b (autocrypt_compose_menu cb s1 2) rd1) as [s3 rd3] eqn:E3.
  cbn [fst].
  pose proof (uci_override_off b (autocrypt_compose_menu cb s1 2) rd1) as H.
  rewrite E3 in H. cbn [fst] in H.
  unfold APPLICATION_PGP, SEC_AUTOCRYPT in *. rewrite sec_has_one by lia.
  apply H; unfold autocrypt_compose_menu; cbn [Z.eqb Pos.eqb]; bits; bfin.
Qed.

End Sec.

Section Fmt.
Variable fmt_d : string -> Z -> string.
Variable fmt_s : string -> string -> string.
Variable fmt_other : string -> Ascii.ascii -> string.
Variable pretty_size : Z -> string.
Variable host : option string.
Variable ver : string.
Variable gci : Body -> option Content.
Variable sl : State -> string -> string.

(** X14.  The result of compose_format_str never depends on else_str: the branch that would use it cannot be reached. *)
Lemma format_never_else op prec if_str e1 e2 st flags :
  compose_format_str fmt_d fmt_s fmt_other pretty_size host ver gci sl op prec if_str e1 st flags
  = compose_format_str fmt_d fmt_s fmt_other pretty_size host ver gci sl op prec if_str e2 st flags.
Proof.
  unfold compose_format_str.
  destruct (match op with None => _ | Some c => _ end) as [buf h].
  destruct op; [|reflexivity].
  destruct (sec_has flags MUTT_FORMAT_OPTIONAL); reflexivity.
Qed.

End Fmt.

(** X16.  A status_on_top config event on the compose dialog, laid out by mutt_compose_menu, moves the bar to the start of the child list when the option is set and to its end otherwise, giving the layout mutt_compose_menu builds for the new value. The observer returns 0. *)
Lemma observer_moves_bar v v' envelope abar attach ebar :
  NoDup (map win_id [envelope; abar; attach; ebar]) ->
  win_type ebar = WT_INDEX_BAR ->
  Forall (fun w => win_type w <> WT_INDEX_BAR) [envelope; abar; attach] ->
  compose_config_observer
    (mkNotifyCallback NT_CONFIG (Some (mkEventConfig "status_on_top" v'))
       (Some (compose_layout v envelope abar attach ebar)))
  = (0%Z, Some (compose_layout v' envelope abar attach ebar)).
Proof.
  intros Hnd Hb Hf. rewrite Forall_forall in Hf.
  pose proof (Hf envelope ltac:(cbn; tauto)) as H1.
  pose proof (Hf abar ltac:(cbn; tauto)) as H2.
  pose proof (Hf attach ltac:(cbn; tauto)) as H3.
  assert (Hne : forall w, win_type w <> WT_INDEX_BAR -> wt_eqb (win_type w) WT_INDEX_BAR = false)
    by (intros w; destruct (win_type w); cbn; congruence).
  assert (Heb : wt_eqb (win_type ebar) WT_INDEX_BAR = true) by (rewrite Hb; reflexivity).
  cbn in Hnd.
  apply NoDup_cons_iff in Hnd as [N1 Hnd]. apply NoDup_cons_iff in Hnd as [N2 Hnd].
  apply NoDup_cons_iff in Hnd as [N3 _]. cbn in N1, N2, N3.
  assert (D1 : Nat.eqb (win_id envelope) (win_id ebar) = false) by (apply Nat.eqb_neq; intro E; rewrite E in *; cbn in *; tauto).
  assert (D2 : Nat.eqb (win_id abar) (win_id ebar) = false) by (apply Nat.eqb_neq; intro E; rewrite E in *; cbn in *; tauto).
  assert (D3 : Nat.eqb (win_id attach) (win_id ebar) = false) by (apply Nat.eqb_neq; intro E; rewrite E in *; cbn in *; tauto).
  unfold compose_config_observer, compose_layout. cbn [event_data global_data event_type ec_name].
  rewrite String.eqb_refl. cbn [negb ec_status_on_top].
  destruct v; cbn [mutt_window_find]; rewrite ?Heb, ?(Hne envelope), ?(Hne abar), ?(Hne attach) by assumption;
    cbn [tailq_remove]; rewrite ?Nat.eqb_refl, ?D1, ?D2, ?D3; destruct v'; reflexivity.
Qed.

Lemma has_next_split {A} k (l : list A) :
  has_next l = has_next (firstn k l) || has_next (skipn k l).
Proof.
  destruct l as [|x l]; [destruct k; reflexivity|]. destruct k; reflexivity.
Qed.

Lemma mix_shown_len t :
  (Z.of_nat (String.length t) < 2 ^ 62)%Z -> (Z.of_nat (String.length (mix_shown t)) < 2 ^ 62)%Z.
Proof.
  intros H. unfold mix_shown. destruct (String.eqb t "0"); [cbn; lia|exact H].
Qed.

Lemma mix_width_nonneg l : (0 <= mix_width l)%Z.
Proof. induction l as [|t l IH]; cbn [mix_width]; lia. Qed.

Lemma mix_loop_prefix cols l c :
  (0 <= c < 2 ^ 62)%Z -> (0 <= cols < 2 ^ 62)%Z ->
  Forall (fun t => Z.of_nat (String.length t) < 2 ^ 62)%Z l ->
  exists k, k <= length l /\
    mix_loop cols l c = mix_render (firstn k l) (has_next (skipn k l)) /\
    (k = 0 \/ (c + mix_width (firstn k l) < cols)%Z) /\
    (k < length l -> (cols <= c + mix_width (firstn (S k) l))%Z).
Proof.
  intros Hc Hcols Hl. revert c Hc. induction Hl as [|t l Ht Hl IH]; intros c Hc.
  - exists 0. cbn. repeat split; auto; lia.
  - pose proof (mix_shown_len t Ht) as Hs.
    cbn [mix_loop]. fold (mix_shown t).
    unfold size_t_of.
    rewrite (Z.mod_small (c + _ + 2)) by lia. rewrite (Z.mod_small cols) by lia.
    destruct (c + Z.of_nat (String.length (mix_shown t)) + 2 >=? cols)%Z eqn:E.
    + apply Z.geb_le in E. exists 0. cbn [firstn skipn mix_render mix_width length].
      split; [lia|]. split; [reflexivity|]. split; [left; reflexivity|]. intros _. cbn. lia.
    + rewrite Z.geb_leb in E. apply Z.leb_gt in E.
      destruct (IH (c + Z.of_nat (String.length (mix_shown t)) + 2)%Z) as (k & Hk & Eq & H1 & H2);
        [lia|].
      exists (S k). cbn [firstn skipn mix_render mix_width length].
      split; [lia|]. split.
      * rewrite Eq, (has_next_split k l). reflexivity.
      * split.
        -- right. destruct H1 as [->|H1]; [cbn; lia|lia].
        -- intros Hlt. specialize (H2 ltac:(lia)). cbn [firstn mix_width] in H2 |- *. lia.
Qed.

(** X18.  For a non-empty chain, redraw_mix_line shows the longest prefix
    of the chain that fits: each name is drawn while 12 plus the widths of
    the names so far and of this one, each with 2 columns for its
    separator, stays below the window width; the first name that does not
    fit ends the line, so even the first name is left out when it does
    not fit. *)
Lemma redraw_mix_line_prefix chain cols row :
  chain <> [] -> (0 <= cols < 2 ^ 62)%Z ->
  Forall (fun t => Z.of_nat (String.length t) < 2 ^ 62)%Z chain ->
  exists k, k <= length chain /\
    redraw_mix_line chain cols row
    = EvHeader row HDR_MIX :: mix_render (firstn k chain) (has_next (skipn k chain)) /\
    (k = 0 \/ (12 + mix_width (firstn k chain) < cols)%Z) /\
    (k < length chain -> (cols <= 12 + mix_width (firstn (S k) chain))%Z).
Proof.
  intros Hne Hcols Hl.
  destruct (mix_loop_prefix cols chain 12 ltac:(lia) Hcols Hl) as (k & Hk & Eq & H1 & H2).
  exists k. split; [exact Hk|]. split; [|split; assumption].
  unfold redraw_mix_line. destruct chain; [congruence|]. rewrite Eq. reflexivity.
Qed.

(** X20.  Toggling the disposition of an inline or attachment part twice restores every body. *)
Lemma toggle_disposition_twice st s1 b :
  cur_body st = Some b ->
  (bdisposition (heap st b) = DISP_INLINE \/ bdisposition (heap st b) = DISP_ATTACH) ->
  op_toggle_disposition st = Done s1 ->
  exists s2, op_toggle_disposition s1 = Done s2 /\
    s2 = with_heap st (heap s2) /\ forall x, heap s2 x = heap st x.
Proof.
  intros Hb Hd H. unfold op_toggle_disposition in *. rewrite Hb in H.
  injection H as <-.
  assert (Hc : cur_body (with_heap st (hupd (heap st) b (set_disposition (heap st b)
     match bdisposition (heap st b) with DISP_INLINE => DISP_ATTACH | _ => DISP_INLINE end)))
     = Some b) by exact Hb.
  rewrite Hc. eexists; split; [reflexivity|]. cbn [heap with_heap]. rewrite hupd_eq.
  split; [reflexivity|].
  intros x. unfold hupd. destruct (Nat.eqb_spec x b); [subst|reflexivity].
  destruct (heap st b); cbn in *; destruct Hd as [->| ->]; reflexivity.
Qed.

(** X21.  A form-data or none disposition does not come back after two toggles: it ends as attachment. *)
Lemma toggle_disposition_form_data st b :
  cur_body st = Some b ->
  bdisposition (heap st b) = DISP_FORM_DATA \/ bdisposition (heap st b) = DISP_NONE ->
  exists s1 s2, op_toggle_disposition st = Done s1 /\ op_toggle_disposition s1 = Done s2 /\
    bdisposition (heap s2 b) = DISP_ATTACH.
Proof.
  intros Hb Hd. unfold op_toggle_disposition. rewrite Hb.
  do 2 eexists; split; [reflexivity|].
  assert (Hc : forall h, cur_body (with_heap st h) = Some b) by (intros; exact Hb).
  rewrite Hc. split; [reflexivity|]. cbn [heap with_heap]. rewrite !hupd_eq.
  destruct (heap st b); cbn in *; destruct Hd as [->| ->]; reflexivity.
Qed.

(** X22.  Toggling unlink twice restores every body. *)
Lemma toggle_unlink_twice st s1 :
  op_toggle_unlink st = Done s1 ->
  exists s2, op_toggle_unlink s1 = Done s2 /\
    s2 = with_heap st (heap s2) /\ forall x, heap s2 x = heap st x.
Proof.
  unfold op_toggle_unlink. destruct (length (idx st) =? 0) eqn:E0; [discriminate|].
  destruct (cur_body st) as [b|] eqn:Hb; [|discriminate]. intros H. injection H as <-.
  cbn [idx with_heap]. rewrite E0.
  assert (Hc : forall h, cur_body (with_heap st h) = Some b) by (intros; exact Hb).
  rewrite Hc. eexists; split; [reflexivity|]. cbn [heap with_heap]. rewrite hupd_eq.
  split; [reflexivity|].
  intros x. unfold hupd. destruct (Nat.eqb_spec x b); [subst|reflexivity].
  destruct (heap st b); cbn. rewrite negb_involutive. reflexivity.
Qed.

Lemma enc_eqb_eq a b : enc_eqb a b = true <-> a = b.
Proof. destruct a, b; cbn; split; congruence. Qed.

(** X23.  A successful edit-encoding changes at most the encoding of the current body, to a value other than other, uuencoded or the old one. *)
Lemma edit_encoding_valid chk ans st s :
  op_edit_encoding chk ans st = Done s ->
  s = with_heap st (heap s) /\
  forall x, heap s x = heap st x \/
    (cur_body st = Some x /\ exists e, heap s x = set_encoding (heap st x) e /\
       e <> ENC_OTHER /\ e <> ENC_UUENCODED /\ e <> bencoding (heap st x)).
Proof.
  unfold op_edit_encoding. destruct (length (idx st) =? 0); [discriminate|].
  destruct (cur_body st) as [b|] eqn:Hb; [|discriminate].
  assert (Hst : st = with_heap st (heap st)) by (destruct st; reflexivity).
  destruct ans as [buf|]; [|intros H; injection H as <-; split; auto].
  destruct (String.eqb buf ""); [intros H; injection H as <-; split; auto|].
  destruct (enc_eqb (chk buf) ENC_OTHER) eqn:E1; [discriminate|].
  destruct (enc_eqb (chk buf) ENC_UUENCODED) eqn:E2; [discriminate|].
  cbn [negb andb].
  destruct (enc_eqb (chk buf) (bencoding (heap st b))) eqn:E3;
    cbn [negb]; intros H; injection H as <-; [split; auto|].
  split; [reflexivity|]. intros x. cbn [heap with_heap]. unfold hupd.
  destruct (Nat.eqb_spec x b); [subst|left; reflexivity].
  right. split; [reflexivity|]. exists (chk buf).
  split; [reflexivity|]. repeat split; intros E; rewrite E in *;
    rewrite (proj2 (enc_eqb_eq _ _) eq_refl) in *; discriminate.
Qed.

Lemma nodup_bound_length (l : list nat) n :
  NoDup l -> (forall x, In x l -> x < n) -> length l <= n.
Proof.
  intros Hn Hb. rewrite <- (length_seq n 0).
  apply NoDup_incl_length; [exact Hn|]. intros x Hx. apply in_seq. specialize (Hb x Hx). lia.
Qed.

Lemma mue_bnext gci now b : bnext (mutt_update_encoding gci now b) = bnext b.
Proof. destruct b; reflexivity. Qed.

Lemma existsb_eqb_in x (l : list nat) : existsb (Nat.eqb x) l = true <-> In x l.
Proof.
  rewrite existsb_exists. split.
  - intros (y & Hy & E). apply Nat.eqb_eq in E. subst. exact Hy.
  - intros H. exists x. split; [exact H|apply Nat.eqb_refl].
Qed.

Lemma update_tagged_spec gci now ids : forall f h m,
  chain h m ids -> NoDup ids -> length ids < f ->
  exists h', update_tagged gci now f h m = Some h' /\
    forall x, h' x = if existsb (Nat.eqb x) ids && btagged (h x)
                     then mutt_update_encoding gci now (h x) else h x.
Proof.
  induction ids as [|t l IH]; intros f h m Hc Hn Hf.
  - inversion Hc; subst. destruct f as [|f]; [cbn in Hf; lia|].
    eexists; split; [reflexivity|]. intros x. reflexivity.
  - inversion Hc as [|t' l' Hc1]; subst.
    destruct f as [|f]; [cbn in Hf; lia|]. cbn [update_tagged].
    apply NoDup_cons_iff in Hn as [Hnin Hn].
    set (h1 := if btagged (h t) then hupd h t (mutt_update_encoding gci now (h t)) else h).
    assert (E1 : forall x, x <> t -> h1 x = h x)
      by (intros x Hx; unfold h1; destruct (btagged (h t)); [apply hupd_neq|]; auto).
    assert (E2 : h1 t = if btagged (h t) then mutt_update_encoding gci now (h t) else h t)
      by (unfold h1; destruct (btagged (h t)); [apply hupd_eq|reflexivity]).
    assert (Hc2 : chain h1 (bnext (h1 t)) l).
    { rewrite E2. replace (bnext (if btagged (h t) then _ else h t)) with (bnext (h t))
        by (destruct (btagged (h t)); [rewrite mue_bnext|]; reflexivity).
      apply (chain_frame h); [exact Hc1|]. intros x Hx. rewrite E1; [reflexivity|].
      intros ->. contradiction. }
    destruct (IH f h1 _ Hc2 Hn ltac:(cbn in Hf; lia)) as (h' & Hu & Hh').
    exists h'. split; [exact Hu|]. intros x. rewrite Hh'. cbn [existsb].
    destruct (Nat.eqb_spec x t) as [->|Hx].
    + assert (En : existsb (Nat.eqb t) l = false)
        by (destruct (existsb (Nat.eqb t) l) eqn:E; [apply existsb_eqb_in in E; contradiction|reflexivity]).
      rewrite En, E2. destruct (btagged (h t)); reflexivity.
    + rewrite (E1 x Hx). reflexivity.
Qed.

(** X24.  With the tag prefix on a well-formed top-level chain, update-encoding succeeds and updates exactly the tagged bodies of the top-level chain; parts nested below them are left alone. *)
Lemma update_encoding_tagged gci now st ids :
  chain (heap st) (ebody st) ids -> NoDup ids -> (forall x, In x ids -> x < next_body st) ->
  idx st <> [] ->
  exists s, op_update_encoding gci now true st = Done s /\ s = with_heap st (heap s) /\
    forall x, heap s x = if existsb (Nat.eqb x) ids && btagged (heap st x)
                         then mutt_update_encoding gci now (heap st x) else heap st x.
Proof.
  intros Hc Hn Hb Hi.
  destruct (update_tagged_spec gci now ids (fuel st) (heap st) (ebody st) Hc Hn)
    as (h' & Hu & Hh').
  { pose proof (nodup_bound_length ids (next_body st) Hn Hb). unfold fuel. lia. }
  unfold op_update_encoding. destruct (idx st) eqn:E; [contradiction|]. cbn [length Nat.eqb].
  rewrite Hu. eexists; split; [reflexivity|]. split; [reflexivity|]. exact Hh'.
Qed.

Lemma swap_nums_map (g g' : nat -> Z) : forall i l q0 q1,
  NoDup l -> nth_error l i = Some q0 -> nth_error l (S i) = Some q1 ->
  g' q0 = g q1 -> g' q1 = g q0 -> (forall q, q <> q0 -> q <> q1 -> g' q = g q) ->
  map g' (swap_adj i l) = map g l.
Proof.
  induction i as [|i IH]; intros l q0 q1 Hn E0 E1 G0 G1 G.
  - destruct l as [|x [|y r]]; cbn in E0, E1; try discriminate.
    injection E0 as <-. injection E1 as <-. cbn. rewrite G0, G1. f_equal. f_equal.
    apply NoDup_cons_iff in Hn as [Hx Hn]. apply NoDup_cons_iff in Hn as [Hy _].
    apply map_ext_in. intros q Hq. apply G; intros ->; [apply Hx; right|apply Hy]; exact Hq.
  - destruct l as [|x l]; [discriminate|]. change (nth_error l i = Some q0) in E0.
    change (nth_error l (S i) = Some q1) in E1. cbn [swap_adj map].
    apply NoDup_cons_iff in Hn as [Hx Hn]. f_equal.
    + apply G; intros ->; apply Hx; [apply (nth_error_In _ _ E0)|apply (nth_error_In _ _ E1)].
    + eapply IH; eassumption.
Qed.

(** X25.  compose_attach_swap exchanges two adjacent entries and keeps the display numbers in place in the index. *)
Lemma swap_keeps_numbers st first s :
  NoDup (idx st) -> compose_attach_swap st first = Some s ->
  map (fun q => ap_num (aps s q)) (idx s) = map (fun q => ap_num (aps st q)) (idx st) /\
  entries s = swap_adj first (entries st).
Proof.
  intros Hn H. split; [|exact (compose_attach_swap_entries st first s H)].
  apply compose_attach_swap_inv in H as (q0 & q1 & h1 & E0 & E1 & _ & ->).
  cbn [idx aps]. rewrite (replace_replace_swap _ _ _ _ E0 E1).
  assert (Hne : q0 <> q1).
  { intros <-. pose proof (NoDup_nth_error (idx st)) as [Hd _]. specialize (Hd Hn first (S first)).
    assert (first < length (idx st)) by (apply nth_error_Some; congruence).
    specialize (Hd H). rewrite E0, E1 in Hd. specialize (Hd eq_refl). lia. }
  apply (swap_nums_map _ _ first (idx st) q0 q1 Hn E0 E1).
  - rewrite hupd_eq. reflexivity.
  - rewrite hupd_neq by auto. rewrite hupd_eq. reflexivity.
  - intros q H0 H1. rewrite !hupd_neq by auto. reflexivity.
Qed.

Lemma keep_unowned_unlink h a l x :
  bunlink (keep_unowned h a l x) =
    if existsb (fun q => ap_unowned (a q) && (ap_body (a q) =? x)) l then false else bunlink (h x).
Proof.
  revert h; induction l as [|q l IH]; intros h; cbn [keep_unowned existsb]; [reflexivity|].
  rewrite IH. destruct (ap_unowned (a q)) eqn:Eu; cbn [andb orb].
  - unfold hupd. destruct (Nat.eqb_spec x (ap_body (a q))) as [->|Hx].
    + rewrite Nat.eqb_refl. destruct (existsb _ l); reflexivity.
    + destruct (Nat.eqb_spec (ap_body (a q)) x); [congruence|]. reflexivity.
  - reflexivity.
Qed.

Lemma detach_all_unlink h a l x : bunlink (detach_all h a l x) = bunlink (h x).
Proof.
  revert h; induction l as [|q l IH]; intros h; cbn [detach_all]; [reflexivity|].
  rewrite IH. destruct (bemail _); unfold wnext, hupd;
    repeat match goal with |- context [?u =? ?v] => destruct (Nat.eqb_spec u v); subst end;
    reflexivity.
Qed.

(** X26.  Exiting without saving clears the unlink flag of every body that an unowned entry points to, and leaves all other unlink flags unchanged. *)
Lemma exit_discard_unlink nf st x :
  bunlink (op_exit_discard nf st x) =
    if existsb (fun q => ap_unowned (aps st q) && (ap_body (aps st q) =? x)) (idx st)
    then false else bunlink (heap st x).
Proof.
  unfold op_exit_discard. destruct nf; [|rewrite detach_all_unlink]; apply keep_unowned_unlink.
Qed.

(** ** Witnesses: the hypotheses of the theorems above hold on concrete inputs *)

Lemma draw_lines_witness :
  (1 <= 2)%Z /\
  fst (draw_envelope_addr mutt_str_len (fun _ => "") HDR_TO ["alice@example.org"; "bob@example.org"]
         30 10 1 2)
  = Z.min 2 (calc_address_loop mutt_str_len (30 - 10) ["alice@example.org"; "bob@example.org"]
               1 (30 - 10)).
Proof. split; [lia|]. apply draw_lines. lia. Defined.

Lemma crypt_used_witness :
  fst (redraw_crypt_lines (fun _ => false) (fun _ => None)
         (mkBuild (Z.lor APPLICATION_PGP APPLICATION_SMIME) false false false)
         (Z.lor SEC_ENCRYPT APPLICATION_PGP) AUTOCRYPT_REC_OFF 8)
  = calc_security (fun _ => false)
      (mkBuild (Z.lor APPLICATION_PGP APPLICATION_SMIME) false false false)
      (Z.lor SEC_ENCRYPT APPLICATION_PGP).
Proof. apply crypt_used. intros E. vm_compute in E. discriminate E. Defined.

Lemma crypt_rows_witness :
  rows_within 8
    (8 + fst (redraw_crypt_lines (fun _ => false) (fun _ => Some "0x1234")
                (mkBuild (Z.lor APPLICATION_PGP APPLICATION_SMIME) false false false)
                (Z.lor (Z.lor SEC_ENCRYPT SEC_SIGN) APPLICATION_SMIME) AUTOCRYPT_REC_OFF 8))
    (snd (redraw_crypt_lines (fun _ => false) (fun _ => Some "0x1234")
            (mkBuild (Z.lor APPLICATION_PGP APPLICATION_SMIME) false false false)
            (Z.lor (Z.lor SEC_ENCRYPT SEC_SIGN) APPLICATION_SMIME) AUTOCRYPT_REC_OFF 8)).
Proof.
  apply crypt_rows; [intros E; vm_compute in E; discriminate E | vm_compute; reflexivity].
Defined.

Lemma crypt_both_sign_overflows_witness :
  fst (redraw_crypt_lines (fun _ => false) (fun _ => Some "0x1234")
         (mkBuild (Z.lor APPLICATION_PGP APPLICATION_SMIME) false false false)
         (Z.lor (Z.lor SEC_SIGN APPLICATION_PGP) APPLICATION_SMIME) AUTOCRYPT_REC_OFF 8) = 2%Z /\
  In (EvHeader (8 + 2) HDR_CRYPTINFO)
    (snd (redraw_crypt_lines (fun _ => false) (fun _ => Some "0x1234")
            (mkBuild (Z.lor APPLICATION_PGP APPLICATION_SMIME) false false false)
            (Z.lor (Z.lor SEC_SIGN APPLICATION_PGP) APPLICATION_SMIME) AUTOCRYPT_REC_OFF 8)).
Proof. apply crypt_both_sign_overflows; vm_compute; reflexivity. Defined.

Lemma init_header_padding_aligns_witness :
  pad_done (mkPadSt false (fun _ => 0%Z) 0) = false /\
  let st' := init_header_padding mutt_str_len (fun s => s) (mkBuild 0 true true true)
               (mkPadSt false (fun _ => 0%Z) 0) in
  (forall f, In f (header_fields (mkBuild 0 true true true)) -> f <> HDR_CRYPTINFO ->
     (label_spaces (fun s => s) st' f + mutt_str_len (Prompts f))%Z = MaxHeaderWidth st') /\
  HeaderPadding st' HDR_CRYPTINFO
  = Z.max 0 (mutt_str_len (Prompts HDR_CRYPTINFO) - mutt_str_len (Prompts HDR_CRYPTINFO)
             + MaxHeaderWidth st') /\
  pad_done st' = true.
Proof. split; [reflexivity|]. apply init_header_padding_aligns. reflexivity. Defined.

Lemma update_crypt_info_exclusive_witness :
  let s := fst (update_crypt_info (fun _ => true) (fun s => s) (fun _ => AUTOCRYPT_REC_YES)
                  (mkBuild (Z.lor APPLICATION_PGP APPLICATION_SMIME) false true false)
                  (Z.lor (Z.lor SEC_ENCRYPT SEC_SIGN) APPLICATION_SMIME)
                  (mkRedraw 1 1 1 1 AUTOCRYPT_REC_OFF)) in
  sec_has s SEC_AUTOCRYPT && sec_has s (Z.lor (Z.lor SEC_ENCRYPT SEC_SIGN) APPLICATION_SMIME)
  = false.
Proof. apply update_crypt_info_exclusive. reflexivity. Defined.

Lemma autocrypt_menu_encrypt_witness :
  let s := fst (fst (op_autocrypt_menu (fun _ => true) (fun s => s) (fun _ => AUTOCRYPT_REC_YES)
                       (mkBuild (Z.lor APPLICATION_PGP APPLICATION_SMIME) false true false)
                       (Z.lor SEC_SIGN APPLICATION_SMIME) (mkRedraw 1 1 1 1 AUTOCRYPT_REC_OFF)
                       MUTT_YES 1)) in
  sec_has s SEC_AUTOCRYPT && sec_has s SEC_AUTOCRYPT_OVERRIDE && sec_has s APPLICATION_PGP = true /\
  sec_has s (Z.lor (Z.lor (Z.lor (Z.lor SEC_ENCRYPT SEC_SIGN) APPLICATION_SMIME) SEC_OPPENCRYPT)
               SEC_INLINE) = false.
Proof.
  apply autocrypt_menu_encrypt; [intros; reflexivity | intros; reflexivity | reflexivity
                                 | intros _; reflexivity | left; reflexivity].
Defined.

Lemma autocrypt_menu_clear_witness :
  sec_has (fst (fst (op_autocrypt_menu (fun _ => true) (fun s => s) (fun _ => AUTOCRYPT_REC_YES)
                       (mkBuild APPLICATION_PGP false true false)
                       (Z.lor SEC_AUTOCRYPT APPLICATION_PGP) (mkRedraw 1 1 1 1 AUTOCRYPT_REC_OFF)
                       MUTT_NO 2))) SEC_AUTOCRYPT = false.
Proof.
  apply autocrypt_menu_clear; [intros; reflexivity | reflexivity | right; reflexivity].
Defined.

Lemma redraw_mix_line_prefix_witness :
  exists k, k <= length ["0"; "remailer1"; "remailer2"] /\
    redraw_mix_line ["0"; "remailer1"; "remailer2"] 30 2
    = EvHeader 2 HDR_MIX :: mix_render (firstn k ["0"; "remailer1"; "remailer2"])
                              (has_next (skipn k ["0"; "remailer1"; "remailer2"])) /\
    (k = 0 \/ (12 + mix_width (firstn k ["0"; "remailer1"; "remailer2"]) < 30)%Z) /\
    (k < length ["0"; "remailer1"; "remailer2"] ->
     (30 <= 12 + mix_width (firstn (S k) ["0"; "remailer1"; "remailer2"]))%Z).
Proof.
  apply redraw_mix_line_prefix; [discriminate | lia | repeat constructor; cbn; lia].
Defined.

Lemma toggle_disposition_form_data_witness :
  exists s1 s2,
    op_toggle_disposition
      (with_heap single_leaf (hupd (heap single_leaf) 0
                                (set_disposition (heap single_leaf 0) DISP_FORM_DATA)))
    = Done s1 /\ op_toggle_disposition s1 = Done s2 /\ bdisposition (heap s2 0) = DISP_ATTACH.
Proof. apply toggle_disposition_form_data; [reflexivity | left; reflexivity]. Defined.

Lemma toggle_unlink_twice_witness :
  exists s2, op_toggle_unlink
               (match op_toggle_unlink single_leaf with Done s => s | _ => single_leaf end)
             = Done s2 /\
    s2 = with_heap single_leaf (heap s2) /\ forall x, heap s2 x = heap single_leaf x.
Proof. apply toggle_unlink_twice. reflexivity. Defined.

Lemma edit_encoding_valid_witness :
  let s := match op_edit_encoding (fun _ => ENC_BASE64) (Some "base64") single_leaf with
           | Done s => s | _ => single_leaf end in
  s = with_heap single_leaf (heap s) /\
  forall x, heap s x = heap single_leaf x \/
    (cur_body single_leaf = Some x /\ exists e, heap s x = set_encoding (heap single_leaf x) e /\
       e <> ENC_OTHER /\ e <> ENC_UUENCODED /\ e <> bencoding (heap single_leaf x)).
Proof. intros s. apply (edit_encoding_valid (fun _ => ENC_BASE64) (Some "base64")). reflexivity. Defined.

Lemma update_encoding_tagged_witness :
  exists s, op_update_encoding (fun _ => None) 0 true scenario_b = Done s /\
    s = with_heap scenario_b (heap s) /\
    forall x, heap s x = if existsb (Nat.eqb x) [0; 1; 2] && btagged (heap scenario_b x)
                         then mutt_update_encoding (fun _ => None) 0 (heap scenario_b x)
                         else heap scenario_b x.
Proof.
  apply update_encoding_tagged.
  - apply (chainb_chain 4). reflexivity.
  - repeat constructor; cbn; lia.
  - intros x H. cbn. repeat destruct H as [<-|H]; [lia..|contradiction].
  - discriminate.
Defined.

Lemma swap_keeps_numbers_witness :
  let s := match compose_attach_swap scenario_b 1 with Some s => s | None => scenario_b end in
  map (fun q => ap_num (aps s q)) (idx s) = map (fun q => ap_num (aps scenario_b q)) (idx scenario_b) /\
  entries s = swap_adj 1 (entries scenario_b).
Proof.
  intros s. apply swap_keeps_numbers.
  - cbn. repeat constructor; cbn; lia.
  - reflexivity.
Defined.

End Compose.
